(** * The self-cloning execution guard of runc's nsenter (cloned_binary.c)
    and the process title of gspt (setproctitle.h)

    A shallow embedding of
    [vendor/github.com/opencontainers/runc/libcontainer/nsenter/cloned_binary.c]
    together with a small model of the part of the kernel the file talks to
    (descriptor table, inodes with seals, the /proc/self pseudo-files), and
    the properties of the guard established on that embedding; then a
    shallow embedding of
    [vendor/github.com/erikdubbelboer/gspt/setproctitle.h] over the memory
    that holds the argument and environment strings, and the properties of
    the title functions. *)

From Stdlib Require Import ZArith Lia.
From Stdlib.Strings Require Import Byte.
From Stdlib Require Import String.
From stdpp Require Import base option list gmap.

Local Open Scope Z_scope.

#[local] Set Warnings "-clear-no-such-hyp".

(** ** Constants of the C file and of the headers it includes *)

Module Errno.
(** Values of <errno.h> on Linux. *)
Definition EIO : Z := 5.
Definition ENOEXEC : Z := 8.
Definition EINVAL : Z := 22.
Definition ENOTRECOVERABLE : Z := 131.
End Errno.
Import Errno.

(** memfd_create(2) flags, as the file copies them from <linux/memfd.h>. *)
Definition MFD_CLOEXEC : Z := 0x0001.
Definition MFD_ALLOW_SEALING : Z := 0x0002.

(** Seals, as the file copies them from <linux/fcntl.h>. *)
Definition F_SEAL_SEAL : Z := 0x0001.
Definition F_SEAL_SHRINK : Z := 0x0002.
Definition F_SEAL_GROW : Z := 0x0004.
Definition F_SEAL_WRITE : Z := 0x0008.

Definition RUNC_SENDFILE_MAX : Z := 0x7FFFF000.
Definition RUNC_MEMFD_SEALS : Z :=
  Z.lor (Z.lor (Z.lor F_SEAL_SEAL F_SEAL_SHRINK) F_SEAL_GROW) F_SEAL_WRITE.

(** open(2) flags of <fcntl.h> (Linux, generic architecture values). *)
Definition O_RDONLY : Z := 0x0.
Definition O_RDWR : Z := 0x2.
Definition O_EXCL : Z := 0x80.
Definition O_CLOEXEC : Z := 0x80000.
Definition O_DIRECTORY : Z := 0x10000.
Definition O_TMPFILE : Z := Z.lor 0x400000 O_DIRECTORY.

(** [has_flag flags f]: every bit of [f] is set in [flags]. *)
Definition has_flag (flags f : Z) : bool := Z.land flags f =? f.

(** ** C data *)

Abbreviation byte := Byte.byte.
Abbreviation NUL := Byte.x00.

#[global] Instance byte_eq_decision : EqDecision byte := Byte.byte_eq_dec.

(** INT_MAX of <limits.h>: [int] has 32 bits. *)
Definition INT_MAX : Z := 0x7fffffff.

(** The result of a piece of C code that touches memory: it finishes with a
    value, or its behaviour is undefined in C ([Fault]: it reads or writes
    outside an object, or an [int] computation overflows), or the model's
    loop bound was too small ([NoFuel]; shown below never to happen). *)
Inductive result (A : Type) : Type :=
  | Done (a : A)
  | Fault
  | NoFuel.
Arguments Done {A} a.
Arguments Fault {A}.
Arguments NoFuel {A}.

(** A [char *] stored in an argument vector: the cell has not been written
    since the array was (re)allocated, or it holds NULL, or it points at
    offset [off] of the data block that was parsed. *)
Inductive cell : Type :=
  | Uninit
  | Null
  | Ptr (off : nat).

#[global] Instance cell_eq_decision : EqDecision cell.
Proof. solve_decision. Defined.

(** [must_realloc ptr n]: the block [ptr] (NULL is [None]) resized to [n]
    elements. The first [min n (old size)] elements are kept and the new
    ones are indeterminate ([fill]). The C function retries realloc(3) until
    it succeeds, so it never returns NULL. *)
Definition must_realloc {A : Type} (fill : A) (ptr : option (list A)) (n : nat)
  : option (list A) :=
  Some (resize n fill (default [] ptr)).

(** [strlen mem]: [mem] is the memory from the pointer to the end of the
    object it points into. Without a NUL byte in it the scan leaves the
    object. *)
Fixpoint strlen (mem : list byte) : option nat :=
  match mem with
  | [] => None
  | b :: mem' => if decide (b = NUL) then Some 0%nat else S <$> strlen mem'
  end.

(** The C string a cell points to, read in the block [data]. *)
Definition string_at (data : list byte) (c : cell) : option (list byte) :=
  match c with
  | Ptr off => k ← strlen (drop off data); Some (take k (drop off data))
  | _ => None
  end.

(** The strings of a NULL-terminated vector, as execve(2) walks it: cells up
    to the first NULL. [None] when the walk meets an unwritten cell, an
    unterminated string, or the end of the array before a NULL. *)
Fixpoint vector_strings (data : list byte) (arr : list cell)
  : option (list (list byte)) :=
  match arr with
  | [] => None
  | Null :: _ => Some []
  | c :: arr' =>
      s ← string_at data c; ss ← vector_strings data arr'; Some (s :: ss)
  end.

(** ** parse_xargs *)

(** The loop of [parse_xargs]. [cur] is the offset of the C pointer [cur] in
    the block [data]; [output] is the value of [*output]. [num] is an [int]:
    once it has reached INT_MAX, the [num + 1] of the size given to
    [must_realloc] overflows. *)
Fixpoint parse_xargs_loop (fuel : nat) (data : list byte) (data_length : Z)
    (num : Z) (cur : nat) (output : option (list cell))
  : result (Z * option (list cell)) :=
  if Z.of_nat cur <? data_length then
    match fuel with
    | O => NoFuel
    | S fuel' =>
        let num := num + 1 in
        if INT_MAX <? num + 1 then Fault
        else
          let output := must_realloc Uninit output (Z.to_nat (num + 1)) in
          let output := (λ arr, <[Z.to_nat (num - 1) := Ptr cur]> arr) <$> output in
          match strlen (drop cur data) with
          | None => Fault
          | Some k =>
              parse_xargs_loop fuel' data data_length num (cur + (k + 1))%nat output
          end
    end
  else Done (num, output).

(** [parse_xargs data data_length output]: returns the C return value and
    the new value of [*output]; [data_length] is the value of the [int]
    argument. After the loop the C code stores NULL at
    index [num]; when the loop never ran [*output] is still NULL and the
    store goes through a null pointer. *)
Definition parse_xargs (data : option (list byte)) (data_length : Z)
    (output : option (list cell)) : result (Z * option (list cell)) :=
  match data, output with
  | Some d, None =>
      match parse_xargs_loop (S (length d)) d data_length 0 0%nat None with
      | Done (num, Some arr) => Done (num, Some (<[Z.to_nat num := Null]> arr))
      | Done (_, None) => Fault
      | Fault => Fault
      | NoFuel => NoFuel
      end
  | _, _ => Done (-1, output)
  end.

(** ** The process and the part of the kernel it talks to *)

(** An inode: its bytes, its seals ([None] for a file that does not support
    sealing, where F_GET_SEALS fails with EINVAL) and its link count. *)
Record inode : Type := Inode {
  i_data : list byte;
  i_seals : option Z;
  i_nlink : Z;
}.

(** What an open descriptor refers to. *)
Inductive backing : Type :=
  | OnInode (ino : Z)
  | ProcCmdline
  | ProcEnviron.

Record fdesc : Type := Fdesc {
  fd_file : backing;
  fd_pos : nat;
  fd_cloexec : bool;
}.

(** The paths the file opens: the literals "/proc/self/exe",
    "/proc/self/cmdline", "/proc/self/environ" and "/tmp", and
    "/proc/self/fd/%d" as asprintf(3) builds it. *)
Inductive path : Type :=
  | proc_self_exe
  | proc_self_cmdline
  | proc_self_environ
  | tmp
  | proc_self_fd (fd : Z).

(** The environment's answer to one fallible call: it makes the call fail
    ([Deny]) or lets it proceed ([Grant cap]); for a transfer call a non-zero
    [cap] bounds the bytes moved by that call (a short transfer). *)
Inductive reply : Type :=
  | Deny
  | Grant (cap : nat).

(** The four operations of the guard, logged when they are entered. *)
Inductive op : Type :=
  | Detect
  | Fetch
  | Clone
  | Reexec.

#[global] Instance op_eq_decision : EqDecision op.
Proof. solve_decision. Defined.

(** [w_script] holds the answers to the fallible calls still to come, in
    order (every later call is granted in full); [w_trace] is a ghost log of
    the guard's operations. *)
Record world : Type := World {
  w_inodes : gmap Z inode;
  w_exe : Z;
  w_cmdline : list byte;
  w_environ : list byte;
  w_fds : gmap Z fdesc;
  w_script : list reply;
  w_trace : list op;
}.

Definition set_inodes (m : gmap Z inode) (w : world) : world :=
  World m (w_exe w) (w_cmdline w) (w_environ w) (w_fds w) (w_script w) (w_trace w).
Definition set_fds (m : gmap Z fdesc) (w : world) : world :=
  World (w_inodes w) (w_exe w) (w_cmdline w) (w_environ w) m (w_script w) (w_trace w).
Definition set_script (s : list reply) (w : world) : world :=
  World (w_inodes w) (w_exe w) (w_cmdline w) (w_environ w) (w_fds w) s (w_trace w).
Definition set_trace (t : list op) (w : world) : world :=
  World (w_inodes w) (w_exe w) (w_cmdline w) (w_environ w) (w_fds w) (w_script w) t.

(** How a computation of the process ends: it returns, or the process image
    is replaced ([Exec], with the state the new image starts in), or it
    runs into undefined behaviour ([Abort]: a [Fault] of the C code), or the
    model ran out of loop fuel ([Stuck]). *)
Inductive outcome (A : Type) : Type :=
  | Ret (a : A) (w : world)
  | Exec (w : world)
  | Abort (w : world)
  | Stuck.
Arguments Ret {A} a w.
Arguments Exec {A} w.
Arguments Abort {A} w.
Arguments Stuck {A}.

Definition M (A : Type) : Type := world → outcome A.

#[global] Instance M_ret : MRet M := λ A a w, Ret a w.
#[global] Instance M_bind : MBind M := λ A B k m w,
  match m w with
  | Ret a w' => k a w'
  | Exec w' => Exec w'
  | Abort w' => Abort w'
  | Stuck => Stuck
  end.

Definition lift {A : Type} (r : result A) : M A := λ w,
  match r with
  | Done a => Ret a w
  | Fault => Abort w
  | NoFuel => Stuck
  end.

Definition log (o : op) : M unit := λ w, Ret () (set_trace (w_trace w ++ [o]) w).

(** The answer to the next fallible call: the head of the script, and a
    full grant once the script is used up. *)
Definition ask : M reply := λ w,
  Ret (hd (Grant 0) (w_script w)) (set_script (tl (w_script w)) w).

(** The lowest non-negative key not in use: one of the first [size m + 1]
    numbers is free. *)
Definition lowest_free {A : Type} (m : gmap Z A) : Z :=
  default (Z.of_nat (size m))
          (List.find (λ n, bool_decide (m !! n = None))
                     (Z.of_nat <$> seq 0 (S (size m)))).

(** Enter a description in the descriptor table under the lowest free
    number and return that number. *)
Definition install (d : fdesc) : M Z := λ w,
  let fd := lowest_free (w_fds w) in
  Ret fd (set_fds (<[fd := d]> (w_fds w)) w).

Definition new_inode (i : inode) : M Z := λ w,
  let ino := lowest_free (w_inodes w) in
  Ret ino (set_inodes (<[ino := i]> (w_inodes w)) w).

Definition file_bytes (w : world) (b : backing) : option (list byte) :=
  match b with
  | OnInode ino => i_data <$> w_inodes w !! ino
  | ProcCmdline => Some (w_cmdline w)
  | ProcEnviron => Some (w_environ w)
  end.

(** Bytes moved by one transfer call asked for [count] bytes with [avail]
    bytes left in the source. *)
Definition transfer_size (cap : nat) (count : Z) (avail : nat) : nat :=
  let n := Z.to_nat (Z.min count (Z.of_nat avail)) in
  match cap with
  | O => n
  | S _ => Nat.min cap n
  end.

(** [write_at pos chunk data]: [data] with [chunk] written at offset [pos]
    (a gap is filled with zero bytes). *)
Definition write_at (pos : nat) (chunk data : list byte) : list byte :=
  resize pos NUL data ++ chunk ++ drop (pos + length chunk) data.

(** ** System and library calls *)

Definition cloexec_of (flags : Z) : bool := has_flag flags O_CLOEXEC.

(** open(2). Opening "/tmp" is modelled with O_TMPFILE only (an unnamed
    regular file is created, link count 0); the file opens no directory in
    another way. The mode argument has no effect in this model. *)
Definition sys_open (p : path) (flags : Z) : M Z :=
  r ← ask;
  match r with
  | Deny => mret (-1)
  | Grant _ => λ w,
      match p with
      | proc_self_exe =>
          match w_inodes w !! w_exe w with
          | Some _ => install (Fdesc (OnInode (w_exe w)) 0 (cloexec_of flags)) w
          | None => Ret (-1) w
          end
      | proc_self_cmdline => install (Fdesc ProcCmdline 0 (cloexec_of flags)) w
      | proc_self_environ => install (Fdesc ProcEnviron 0 (cloexec_of flags)) w
      | tmp =>
          if has_flag flags O_TMPFILE then
            (ino ← new_inode (Inode [] None 0);
             install (Fdesc (OnInode ino) 0 (cloexec_of flags))) w
          else Ret (-1) w
      | proc_self_fd n =>
          match w_fds w !! n with
          | Some d => install (Fdesc (fd_file d) 0 (cloexec_of flags)) w
          | None => Ret (-1) w
          end
      end
  end.

(** memfd_create(2): a fresh anonymous file, sealable when
    MFD_ALLOW_SEALING is given and sealed against sealing otherwise. *)
Definition memfd_create (name : string) (flags : Z) : M Z :=
  r ← ask;
  match r with
  | Deny => mret (-1)
  | Grant _ =>
      let seals := if has_flag flags MFD_ALLOW_SEALING then 0 else F_SEAL_SEAL in
      ino ← new_inode (Inode [] (Some seals) 0);
      install (Fdesc (OnInode ino) 0 (has_flag flags MFD_CLOEXEC))
  end.

(** close(2): the descriptor is released. *)
Definition sys_close (fd : Z) : M Z := λ w,
  match w_fds w !! fd with
  | Some _ => Ret 0 (set_fds (delete fd (w_fds w)) w)
  | None => Ret (-1) w
  end.

(** read(2): the return value and the bytes stored in the buffer. *)
Definition sys_read (fd : Z) (count : Z) : M (Z * list byte) :=
  r ← ask;
  match r with
  | Deny => mret (-1, [])
  | Grant cap => λ w,
      match w_fds w !! fd with
      | None => Ret (-1, []) w
      | Some d =>
          match file_bytes w (fd_file d) with
          | None => Ret (-1, []) w
          | Some bytes =>
              let avail := drop (fd_pos d) bytes in
              let n := transfer_size cap count (length avail) in
              Ret (Z.of_nat n, take n avail)
                  (set_fds (<[fd := Fdesc (fd_file d) (fd_pos d + n) (fd_cloexec d)]>
                              (w_fds w)) w)
          end
      end
  end.

(** sendfile(2) with a NULL offset: bytes go from the position of [in_fd]
    to the position of [out_fd], and both positions advance. Writing to a
    file sealed against writes, or growing one sealed against growth, is
    refused. *)
Definition sendfile (out_fd in_fd : Z) (count : Z) : M Z :=
  r ← ask;
  match r with
  | Deny => mret (-1)
  | Grant cap => λ w,
      match w_fds w !! in_fd, w_fds w !! out_fd with
      | Some din, Some (Fdesc (OnInode oino) opos ocx) =>
          match file_bytes w (fd_file din), w_inodes w !! oino with
          | Some bytes, Some oi =>
              let avail := drop (fd_pos din) bytes in
              let n := transfer_size cap count (length avail) in
              let data := write_at opos (take n avail) (i_data oi) in
              let s := default 0 (i_seals oi) in
              if has_flag s F_SEAL_WRITE
                 || (has_flag s F_SEAL_GROW && (length (i_data oi) <? length data)%nat)
              then Ret (-1) w
              else
                Ret (Z.of_nat n)
                  (set_inodes (<[oino := Inode data (i_seals oi) (i_nlink oi)]> (w_inodes w))
                  (set_fds (<[out_fd := Fdesc (OnInode oino) (opos + n) ocx]>
                           (<[in_fd := Fdesc (fd_file din) (fd_pos din + n) (fd_cloexec din)]>
                              (w_fds w))) w))
          | _, _ => Ret (-1) w
          end
      | _, _ => Ret (-1) w
      end
  end.

(** fcntl(fd, F_GET_SEALS). *)
Definition fcntl_F_GET_SEALS (fd : Z) : M Z :=
  r ← ask;
  match r with
  | Deny => mret (-1)
  | Grant _ => λ w,
      match w_fds w !! fd with
      | Some (Fdesc (OnInode ino) _ _) =>
          match w_inodes w !! ino with
          | Some (Inode _ (Some s) _) => Ret s w
          | _ => Ret (-1) w
          end
      | _ => Ret (-1) w
      end
  end.

(** fcntl(fd, F_ADD_SEALS, seals): refused on a file that cannot be sealed
    or that carries F_SEAL_SEAL. *)
Definition fcntl_F_ADD_SEALS (fd : Z) (seals : Z) : M Z :=
  r ← ask;
  match r with
  | Deny => mret (-1)
  | Grant _ => λ w,
      match w_fds w !! fd with
      | Some (Fdesc (OnInode ino) _ _) =>
          match w_inodes w !! ino with
          | Some (Inode data (Some s) nlink) =>
              if has_flag s F_SEAL_SEAL then Ret (-1) w
              else Ret 0 (set_inodes
                            (<[ino := Inode data (Some (Z.lor s seals)) nlink]> (w_inodes w)) w)
          | _ => Ret (-1) w
          end
      | _ => Ret (-1) w
      end
  end.

(** The fields of [struct stat] the file reads. *)
Record stat : Type := Stat {
  st_nlink : Z;
  st_size : Z;
}.

(** fstat(2): the return value and the buffer, left as it was on failure. *)
Definition fstat (fd : Z) (statbuf : stat) : M (Z * stat) :=
  r ← ask;
  match r with
  | Deny => mret (-1, statbuf)
  | Grant _ => λ w,
      match w_fds w !! fd with
      | Some (Fdesc (OnInode ino) _ _) =>
          match w_inodes w !! ino with
          | Some i => Ret (0, Stat (i_nlink i) (Z.of_nat (length (i_data i)))) w
          | None => Ret (-1, statbuf) w
          end
      | Some (Fdesc _ _ _) => Ret (0, Stat 1 0) w
      | None => Ret (-1, statbuf) w
      end
  end.

(** asprintf(&fdpath, "/proc/self/fd/%d", fd): [None] when it fails (a
    negative return value), the path otherwise. *)
Definition asprintf_proc_self_fd (fd : Z) : M (option path) :=
  r ← ask;
  match r with
  | Deny => mret None
  | Grant _ => mret (Some (proc_self_fd fd))
  end.

(** A [char **] together with the block its entries point into. *)
Definition vector : Type := option (list cell) * option (list byte).

Definition strings_of (v : vector) : option (list (list byte)) :=
  match v with
  | (Some cells, Some block) => vector_strings block cells
  | (Some _, None) => None
  | (None, _) => Some []
  end.

(** The NUL-delimited blob the kernel shows for a list of strings. *)
Definition nul_join (ss : list (list byte)) : list byte :=
  concat ((λ s, s ++ [NUL]) <$> ss).

(** fexecve(3): on success the image is replaced by the file behind [fd];
    the new image sees the strings of [argv] and [envp] in its pseudo-files
    and keeps the descriptors that are not close-on-exec (and the ghost log
    goes on). *)
Definition fexecve (fd : Z) (argv envp : vector) : M Z :=
  _ ← log Reexec;
  r ← ask;
  match r with
  | Deny => mret (-1)
  | Grant _ => λ w,
      match w_fds w !! fd, strings_of argv, strings_of envp with
      | Some (Fdesc (OnInode ino) _ _), Some args, Some env =>
          match w_inodes w !! ino with
          | Some _ =>
              Exec (World (w_inodes w) ino (nul_join args) (nul_join env)
                          (filter (λ kv, fd_cloexec kv.2 = false) (w_fds w))
                          (w_script w) (w_trace w))
          | None => Ret (-1) w
          end
      | _, _, _ => Ret (-1) w
      end
  end.

(** ** The functions of cloned_binary.c *)

Definition RUNC_MEMFD_COMMENT : string := "runc_cloned:/proc/self/exe".

(** Conversion of a [size_t] to [int], as at the calls of [parse_xargs]. *)
Definition int_of_size_t (n : Z) : Z :=
  let m := n mod 2 ^ 32 in
  if m <? 2 ^ 31 then m else m - 2 ^ 32.

(** memcpy(copy + off, buf, n) into a block that holds [off + n] bytes. *)
Definition memcpy (copy : option (list byte)) (off : nat) (buf : list byte)
  : option (list byte) :=
  write_at off buf <$> copy.

(** The [for (;;)] loop of [read_file]; [length] is [*length], which is the
    size of the block [copy] and so cannot wrap. *)
Fixpoint read_file_loop (fuel : nat) (fd : Z) (copy : option (list byte))
    (length : Z) : M (option (list byte) * Z) :=
  match fuel with
  | O => λ _, Stuck
  | S fuel' =>
      '(n, buf) ← sys_read fd 4096;
      if n <? 0 then
        _ ← sys_close fd; mret (None, length)
      else if n =? 0 then
        _ ← sys_close fd; mret (copy, length)
      else
        let copy := must_realloc NUL copy (Z.to_nat (length + n)) in
        let copy := memcpy copy (Z.to_nat length) buf in
        read_file_loop fuel' fd copy (length + n)
  end.

(** A bound on the iterations of the loop: one per byte left behind [fd],
    and the read that sees the end of the file. *)
Definition read_bound (fd : Z) : M nat := λ w,
  Ret (S (length (default [] (d ← w_fds w !! fd; file_bytes w (fd_file d))))) w.

(** [read_file path length]: [has_length] is false when the [length]
    pointer is NULL. Returns the block ([None] is NULL) and the value of
    [*length] (0 when it was not written). *)
Definition read_file (p : path) (has_length : bool)
  : M (option (list byte) * Z) :=
  if negb has_length then mret (None, 0)
  else
    fd ← sys_open p (Z.lor O_RDONLY O_CLOEXEC);
    if fd <? 0 then mret (None, 0)
    else
      fuel ← read_bound fd;
      read_file_loop fuel fd None 0.

(** What [fetchve] leaves behind: the two vectors and the two blocks
    ([None] once freed). *)
Record fetched : Type := Fetched {
  f_argv : option (list cell);
  f_envp : option (list cell);
  f_cmdline : option (list byte);
  f_environ : option (list byte);
}.

(** The [error] label of [fetchve]: both blocks are freed. *)
Definition fetchve_error (argv envp : option (list cell)) : M (Z * fetched) :=
  mret (- EINVAL, Fetched argv envp None None).

Definition fetchve (argv envp : option (list cell)) : M (Z * fetched) :=
  _ ← log Fetch;
  '(cmdline, cmdline_size) ← read_file proc_self_cmdline true;
  if bool_decide (cmdline = None) then fetchve_error argv envp
  else
    '(environ, environ_size) ← read_file proc_self_environ true;
    if bool_decide (environ = None) then fetchve_error argv envp
    else
      '(n, argv) ← lift (parse_xargs cmdline (int_of_size_t cmdline_size) argv);
      if n <=? 0 then fetchve_error argv envp
      else
        '(n, envp) ← lift (parse_xargs environ (int_of_size_t environ_size) envp);
        if n <=? 0 then fetchve_error argv envp
        else mret (0, Fetched argv envp cmdline environ).

Section build.
(** Whether the file is compiled with HAVE_MEMFD_CREATE. *)
Variable HAVE_MEMFD_CREATE : bool.

Definition is_self_cloned : M Z :=
  _ ← log Detect;
  fd ← sys_open proc_self_exe (Z.lor O_RDONLY O_CLOEXEC);
  if fd <? 0 then mret (- ENOTRECOVERABLE)
  else
    is_cloned ←
      (if HAVE_MEMFD_CREATE then
         ret ← fcntl_F_GET_SEALS fd;
         mret (if ret =? RUNC_MEMFD_SEALS then 1 else 0)
       else
         '(ret, statbuf) ← fstat fd (Stat 0 0);
         mret (if ret >=? 0 then (if st_nlink statbuf =? 0 then 1 else 0) else 0));
    _ ← sys_close fd;
    mret is_cloned.

(** The [error] label of [clone_binary]. *)
Definition clone_binary_error (memfd : Z) : M Z :=
  _ ← sys_close memfd; mret (- EIO).

Definition clone_binary : M Z :=
  _ ← log Clone;
  memfd ←
    (if HAVE_MEMFD_CREATE then
       memfd_create RUNC_MEMFD_COMMENT (Z.lor MFD_CLOEXEC MFD_ALLOW_SEALING)
     else
       sys_open tmp (Z.lor (Z.lor (Z.lor O_TMPFILE O_EXCL) O_RDWR) O_CLOEXEC));
  if memfd <? 0 then mret (- ENOTRECOVERABLE)
  else
    binfd ← sys_open proc_self_exe (Z.lor O_RDONLY O_CLOEXEC);
    if binfd <? 0 then clone_binary_error memfd
    else
      sent ← sendfile memfd binfd RUNC_SENDFILE_MAX;
      _ ← sys_close binfd;
      if sent <? 0 then clone_binary_error memfd
      else if HAVE_MEMFD_CREATE then
        err ← fcntl_F_ADD_SEALS memfd RUNC_MEMFD_SEALS;
        if err <? 0 then clone_binary_error memfd
        else mret memfd
      else
        fdpath ← asprintf_proc_self_fd memfd;
        match fdpath with
        | None => clone_binary_error memfd
        | Some fdpath =>
            newfd ← sys_open fdpath (Z.lor O_RDONLY O_CLOEXEC);
            if newfd <? 0 then clone_binary_error memfd
            else
              _ ← sys_close memfd;
              mret newfd
        end.

Definition ensure_cloned_binary : M Z :=
  cloned ← is_self_cloned;
  if (cloned >? 0) || (cloned =? - ENOTRECOVERABLE) then mret cloned
  else
    '(r, f) ← fetchve None None;
    if r <? 0 then mret (- EINVAL)
    else
      execfd ← clone_binary;
      if execfd <? 0 then mret (- EIO)
      else
        _ ← fexecve execfd (f_argv f, f_cmdline f) (f_envp f, f_environ f);
        mret (- ENOEXEC).
End build.

(** * The process title of gspt (setproctitle.h)

    A shallow embedding of [vendor/github.com/erikdubbelboer/gspt/setproctitle.h]
    as it is compiled on Linux (HAVE_SETPROCTITLE 0,
    HAVE_SETPROCTITLE_REPLACEMENT 1). The argument and environment strings
    of a process lie in one area of its initial stack; [mem] is that area,
    and a [char *] into it is the offset of a byte ([Z]: the code also
    computes pointers that lie before the area). NULL is [None]. *)

Module Spt.

Definition SPT_MAXTITLE : Z := 255.
(** [sizeof buf] for [char buf[SPT_MAXTITLE + 1]]. *)
Definition sizeof_buf : Z := SPT_MAXTITLE + 1.
Definition INT_MAX : Z := 2 ^ 31 - 1.
Definition SPACE : byte := x20.

(** Conversion to [size_t] (64 bits). *)
Definition size_t (n : Z) : Z := n mod 2 ^ 64.

#[global] Instance result_ret : MRet result := λ A a, Done a.
#[global] Instance result_bind : MBind result := λ A B k r,
  match r with
  | Done a => k a
  | Fault => Fault
  | NoFuel => NoFuel
  end.

(** The static [SPT]. [SPT_arg0] is the copy of the original argv[0] that
    strdup(3) made, a string of its own and not a pointer into the area. *)
Record spt : Type := mkSPT {
  SPT_arg0 : option (list byte);
  SPT_env0 : option Z;
  SPT_base : option Z;
  SPT_end : option Z;
  SPT_nul : option Z;
  SPT_reset : Z;
}.

(** Static storage starts zeroed. *)
Definition SPT_zero : spt := mkSPT None None None None None 0.

Definition set_arg0 (a : option (list byte)) (SPT : spt) : spt :=
  mkSPT a (SPT_env0 SPT) (SPT_base SPT) (SPT_end SPT) (SPT_nul SPT) (SPT_reset SPT).
Definition set_env0 (p : option Z) (SPT : spt) : spt :=
  mkSPT (SPT_arg0 SPT) p (SPT_base SPT) (SPT_end SPT) (SPT_nul SPT) (SPT_reset SPT).
Definition set_title_space (base end_ nul : Z) (SPT : spt) : spt :=
  mkSPT (SPT_arg0 SPT) (SPT_env0 SPT) (Some base) (Some end_) (Some nul) (SPT_reset SPT).
Definition set_reset (r : Z) (SPT : spt) : spt :=
  mkSPT (SPT_arg0 SPT) (SPT_env0 SPT) (SPT_base SPT) (SPT_end SPT) (SPT_nul SPT) r.

(** ** Memory accesses *)

(** [*p]. *)
Definition load (mem : list byte) (p : Z) : result byte :=
  if p <? 0 then Fault
  else match mem !! Z.to_nat p with
       | Some b => Done b
       | None => Fault
       end.

(** [*p = b]. *)
Definition store (mem : list byte) (p : Z) (b : byte) : result (list byte) :=
  if (0 <=? p) && (p <? Z.of_nat (length mem)) then Done (<[Z.to_nat p := b]> mem)
  else Fault.

(** strlen(p). *)
Definition strlen_at (mem : list byte) (p : Z) : result Z :=
  if p <? 0 then Fault
  else match strlen (drop (Z.to_nat p) mem) with
       | Some k => Done (Z.of_nat k)
       | None => Fault
       end.

(** memset(p, c, n), with [n] a [size_t]. *)
Definition memset (mem : list byte) (p : Z) (c : byte) (n : Z) : result (list byte) :=
  if (0 <=? p) && (p + n <=? Z.of_nat (length mem)) then
    Done (list_inserts (Z.to_nat p) (replicate (Z.to_nat n) c) mem)
  else Fault.

(** memcpy(p, src, n) from a buffer [src] outside the area. *)
Definition memcpy (mem : list byte) (p : Z) (src : list byte) (n : Z)
  : result (list byte) :=
  if (0 <=? p) && (p + n <=? Z.of_nat (length mem)) && (n <=? Z.of_nat (length src)) then
    Done (list_inserts (Z.to_nat p) (take (Z.to_nat n) src) mem)
  else Fault.

(** strcmp(3) on the memory from each pointer to the end of its object:
    zero when the strings are equal, the difference of the first bytes
    that differ otherwise. *)
Fixpoint strcmp (a b : list byte) : result Z :=
  match a, b with
  | x :: a', y :: b' =>
      if decide (x = y) then
        if decide (x = NUL) then Done 0 else strcmp a' b'
      else Done (Z.of_N (Byte.to_N x) - Z.of_N (Byte.to_N y))
  | _, _ => Fault
  end.

(** strcmp(p, s) for a pointer into the area and a string [s] outside. *)
Definition strcmp_at (mem : list byte) (p : Z) (s : list byte) : result Z :=
  if p <? 0 then Fault else strcmp (drop (Z.to_nat p) mem) (s ++ [NUL]).

(** The value of a cell of a [char **] array that has been written. *)
Definition cell_value (argv : list cell) (i : Z) : result (option Z) :=
  if i <? 0 then Fault
  else match argv !! Z.to_nat i with
       | Some (Ptr o) => Done (Some (Z.of_nat o))
       | Some Null => Done None
       | Some Uninit | None => Fault
       end.

(** ** The functions of setproctitle.h *)

Definition spt_min (a b : Z) : Z := if a <? b then a else b.

(** [while ( *ptr && ptr > limit) --ptr;] *)
Fixpoint scan_back (fuel : nat) (mem : list byte) (limit ptr : Z) : result Z :=
  b ← load mem ptr;
  if negb (bool_decide (b = NUL)) && (ptr >? limit) then
    match fuel with
    | O => NoFuel
    | S fuel' => scan_back fuel' mem limit (ptr - 1)
    end
  else Done ptr.

(** The [for] loop of [spt_find_argv_from_env]; [i] counts down to 1.
    [None] is the [return NULL] inside the loop. *)
Fixpoint find_loop (i : nat) (mem : list byte) (limit ptr : Z) (buf : list cell)
  : result (option (Z * list cell)) :=
  match i with
  | O => Done (Some (ptr, buf))
  | S i' =>
      b ← load mem ptr;
      if negb (bool_decide (b = NUL)) then Done None
      else
        let ptr := ptr - 1 in
        ptr ← scan_back (Z.to_nat (ptr - limit)) mem limit ptr;
        if ptr <=? limit then Done None
        else find_loop i' mem limit ptr (<[i := Ptr (Z.to_nat (ptr + 1))]> buf)
  end.

(** [spt_find_argv_from_env argc arg0]: [malloc_ok] tells whether its
    malloc(3) succeeds; [arg0] is the string the argument points to. A
    negative [argc] makes the store to [buf[argc]] leave the block. *)
Definition spt_find_argv_from_env (SPT : spt) (mem : list byte) (malloc_ok : bool)
    (argc : Z) (arg0 : list byte) : result (option (list cell)) :=
  if negb malloc_ok then Done None
  else if argc <? 0 then Fault
  else
    let buf := <[Z.to_nat argc := Null]> (replicate (Z.to_nat (argc + 1)) Uninit) in
    match SPT_env0 SPT with
    | None => Fault
    | Some env0 =>
        let ptr := env0 in
        let limit := ptr - 8192 in
        let ptr := ptr - 1 in
        r ← find_loop (Z.to_nat (argc - 1)) mem limit ptr buf;
        match r with
        | None => Done None
        | Some (ptr, buf) =>
            let ptr := ptr - Z.of_nat (length arg0) in
            if ptr <=? limit then Done None
            else
              c ← strcmp_at mem ptr arg0;
              if negb (c =? 0) then Done None
              else Done (Some (<[0%nat := Ptr (Z.to_nat ptr)]> buf))
        end
    end.

(** [spt_init1]: [environ] is the array of the environment pointers up to
    its NULL, so [environ[0]] is its head, or NULL. *)
Definition spt_init1 (environ : list Z) (SPT : spt) : Z * spt :=
  (2, set_env0 (head environ) SPT).

Definition spt_fast_init1 : Z := 0.

(** The first loop of [spt_init2],
    [for (i = 0; i < argc || (i >= argc && argv[i]); i++)]. *)
Fixpoint argv_loop (fuel : nat) (mem : list byte) (argc : Z) (argv : list cell)
    (i end_ : Z) : result Z :=
  match fuel with
  | O => NoFuel
  | S fuel' =>
      go ← (if i <? argc then Done true
            else p ← cell_value argv i; Done (bool_decide (p ≠ None)));
      if go : bool then
        p ← cell_value argv i;
        match p with
        | Some a =>
            if a <? end_ then argv_loop fuel' mem argc argv (i + 1) end_
            else
              k ← strlen_at mem a;
              argv_loop fuel' mem argc argv (i + 1) (a + k + 1)
        | None => argv_loop fuel' mem argc argv (i + 1) end_
        end
      else Done end_
  end.

(** [envp[i]] for [char **envp = &SPT.env0]: [envp[0]] is [SPT.env0], and
    the following indices read the members that follow it in [SPT] (base,
    end, nul). After these comes the [int] member, which is no pointer; the
    model stops there. *)
Definition envp (SPT : spt) (i : nat) : result (option Z) :=
  match [SPT_env0 SPT; SPT_base SPT; SPT_end SPT; SPT_nul SPT] !! i with
  | Some p => Done p
  | None => Fault
  end.

(** The second loop of [spt_init2], [for (i = 0; envp[i]; i++)]. *)
Fixpoint envp_loop (fuel : nat) (mem : list byte) (SPT : spt) (i : nat) (end_ : Z)
  : result Z :=
  match fuel with
  | O => NoFuel
  | S fuel' =>
      p ← envp SPT i;
      match p with
      | None => Done end_
      | Some a =>
          if a <? end_ then envp_loop fuel' mem SPT (S i) end_
          else
            k ← strlen_at mem a;
            envp_loop fuel' mem SPT (S i) (a + k + 1)
      end
  end.

(** The C library the header is compiled against: with glibc
    [spt_init2] copies program_invocation_name and
    program_invocation_short_name, on Darwin the program name. *)
Inductive libc : Type :=
  | GLIBC
  | APPLE
  | OTHER.

(** Whether the [i]-th allocation succeeds. *)
Definition alloc (heap : list bool) (i : nat) : bool := nth i heap true.

Definition progname_copied (l : libc) (heap : list bool) : bool :=
  match l with
  | GLIBC => alloc heap 2 && alloc heap 3
  | APPLE => alloc heap 2
  | OTHER => true
  end.

(** [spt_init2 argc arg0]: returns the new [SPT] and the new memory.
    [heap] tells which of its allocations succeed. *)
Definition spt_init2 (l : libc) (heap : list bool) (argc : Z) (arg0 : list byte)
    (SPT : spt) (mem : list byte) : result (spt * list byte) :=
  argv ← spt_find_argv_from_env SPT mem (alloc heap 0) argc arg0;
  match argv with
  | None => Done (SPT, mem)
  | Some argv =>
      base ← cell_value argv 0;
      match base with
      | None => Done (SPT, mem)
      | Some base =>
          k ← strlen_at mem base;
          let nul := base + k in
          let end_ := nul + 1 in
          end_ ← argv_loop (S (length argv)) mem argc argv 0 end_;
          end_ ← envp_loop 5 mem SPT 0 end_;
          if negb (alloc heap 1) then Done (set_arg0 None SPT, mem)
          else
            let SPT :=
              set_arg0 (Some (take (Z.to_nat k) (drop (Z.to_nat base) mem))) SPT in
            if negb (progname_copied l heap) then Done (SPT, mem)
            else
              mem ← memset mem base NUL (size_t (end_ - base));
              Done (set_title_space base end_ nul SPT, mem)
      end
  end.

(** vsnprintf(buf, sizeof buf, "%s", s): the return value and the buffer,
    whose bytes after the terminator keep what the stack held ([junk]). *)
Definition snprintf_s (junk s : list byte) : Z * list byte :=
  (if Z.of_nat (length s) <=? INT_MAX then Z.of_nat (length s) else -1,
   write_at 0 (take (Z.to_nat SPT_MAXTITLE) s ++ [NUL]) junk).

(** [setproctitle fmt ...]. The header calls it with the format "%s" only:
    [fmt] is [Some title] for the call ("%s", title) and [None] for a NULL
    format. [junk] is what the 256 bytes of [buf] hold on entry. *)
Definition setproctitle (junk : list byte) (fmt : option (list byte)) (SPT : spt)
    (mem : list byte) : result (spt * list byte) :=
  match SPT_base SPT with
  | None => Done (SPT, mem)
  | Some base =>
      s ← match fmt with
          | Some title => Done title
          | None => match SPT_arg0 SPT with
                    | Some a => Done a
                    | None => Fault
                    end
          end;
      let '(len, buf) := snprintf_s junk s in
      if len <=? 0 then Done (SPT, mem)
      else
        match SPT_end SPT with
        | None => Fault
        | Some end_ =>
            '(mem, reset) ←
              (if SPT_reset SPT =? 0 then
                 mem ← memset mem base NUL (size_t (end_ - base));
                 Done (mem, 1)
               else
                 mem ← memset mem base NUL (spt_min sizeof_buf (size_t (end_ - base)));
                 Done (mem, SPT_reset SPT));
            let len :=
              int_of_size_t
                (spt_min (size_t len)
                         (size_t (spt_min sizeof_buf (size_t (end_ - base)) - 1))) in
            mem ← memcpy mem base buf (size_t len);
            let nul := base + len in
            mem ← match SPT_nul SPT with
                  | None => Done mem
                  | Some SPT_nul =>
                      if nul <? SPT_nul then
                        memset mem nul SPACE (size_t (SPT_nul - nul))
                      else if (nul =? SPT_nul) && (nul + 1 <? end_) then
                        mem ← store mem SPT_nul SPACE;
                        store mem (nul + 1) NUL
                      else Done mem
                  end;
            Done (set_reset reset SPT, mem)
        end
  end.

(** [spt_setproctitle title] is [setproctitle("%s", title)]. *)
Definition spt_setproctitle (junk title : list byte) (SPT : spt) (mem : list byte)
  : result (spt * list byte) :=
  setproctitle junk (Some title) SPT mem.

(** Without HAVE_SETPROCTITLE_FAST, [spt_setproctitle_fast] does nothing. *)
Definition spt_setproctitle_fast (title : list byte) (SPT : spt) (mem : list byte)
  : result (spt * list byte) :=
  Done (SPT, mem).

End Spt.

(** * The vocabulary of the statements *)

(** The entries [parse_xargs] yields for a blob, read back as strings. *)
Definition xargs_entries (blob : list byte) : option (list (list byte)) :=
  match parse_xargs (Some blob) (Z.of_nat (length blob)) None with
  | Done (_, Some arr) => vector_strings blob arr
  | _ => None
  end.

(** The blob "a\0bb\0\0" (six bytes). *)
Definition blob_a_bb : list byte := [x61; x00; x62; x62; x00; x00].

(** The value of [*output] after [parse_xargs]'s loop has stored the
    offsets [offs]: one cell per offset and one cell not yet written. *)
Definition out_of (offs : list nat) : option (list cell) :=
  match offs with
  | [] => None
  | _ => Some ((Ptr <$> offs) ++ [Uninit])
  end.

(** Where the entries of [nul_join ss] start when the blob starts at [base]. *)
Fixpoint entry_offsets (base : nat) (ss : list (list byte)) : list nat :=
  match ss with
  | [] => []
  | s :: ss' => base :: entry_offsets (base + (length s + 1)) ss'
  end.

(** [returns m w r]: run in [w], the computation returns [r]. *)
Definition returns {A : Type} (m : M A) (w : world) (r : A) : Prop :=
  ∃ w', m w = Ret r w'.

(** The answer the environment gives to the [k]-th fallible call from [w]. *)
Definition reply_at (k : nat) (w : world) : reply := nth k (w_script w) (Grant 0).

#[global] Instance reply_eq_decision : EqDecision reply.
Proof. solve_decision. Defined.
#[global] Instance inode_eq_decision : EqDecision inode.
Proof. solve_decision. Defined.

(** The inode behind "/proc/self/exe". *)
Definition exe_inode (w : world) : option inode := w_inodes w !! w_exe w.

(** Opening "/proc/self/exe" as the first call from [w] fails. *)
Definition open_exe_fails (w : world) : Prop :=
  reply_at 0 w = Deny ∨ exe_inode w = None.

(** What a seal query on the executable, made as the second call from [w],
    reports: the seal set, or [None] when the query fails. *)
Definition queried_seals (w : world) : option Z :=
  match reply_at 1 w with
  | Deny => None
  | Grant _ => i ← exe_inode w; i_seals i
  end.

(** What fstat(2) on the executable, made as the second call from [w],
    reports as its link count; [None] when fstat fails. *)
Definition queried_nlink (w : world) : option Z :=
  match reply_at 1 w with
  | Deny => None
  | Grant _ => i_nlink <$> exe_inode w
  end.

(** The files the process can name are the same in both states. *)
Definition same_files (w w' : world) : Prop :=
  w_inodes w' = w_inodes w ∧ w_exe w' = w_exe w
  ∧ w_cmdline w' = w_cmdline w ∧ w_environ w' = w_environ w.

(** The value [is_self_cloned] computes, in terms of what the environment
    shows, and the number of answers it uses up. *)
Definition detect_result (b : bool) (w : world) : Z :=
  match reply_at 0 w, exe_inode w with
  | Grant _, Some i =>
      match reply_at 1 w with
      | Deny => 0
      | Grant _ =>
          if b then
            match i_seals i with
            | Some s => if s =? RUNC_MEMFD_SEALS then 1 else 0
            | None => 0
            end
          else if i_nlink i =? 0 then 1 else 0
      end
  | _, _ => - ENOTRECOVERABLE
  end.

Definition detect_calls (w : world) : nat :=
  match reply_at 0 w, exe_inode w with
  | Grant _, Some _ => 2
  | _, _ => 1
  end.

(** The block [read_file] holds after reading the bytes [c]: NULL until
    the first byte is read. *)
Definition block_of (c : list byte) : option (list byte) :=
  match c with
  | [] => None
  | _ => Some c
  end.

(** The bytes behind the two pseudo-files [fetchve] reads. *)
Definition pseudo_file (p : path) (w : world) : option (list byte) :=
  match p with
  | proc_self_cmdline => Some (w_cmdline w)
  | proc_self_environ => Some (w_environ w)
  | _ => None
  end.

(** The calls [fetchve] made were all granted and both pseudo-files hold
    bytes: the only way past its two reads. *)
Definition reads_granted (j : nat) (w : world) : Prop :=
  (∀ k, (k < j)%nat → reply_at k w ≠ Deny)
  ∧ w_cmdline w ≠ [] ∧ w_environ w ≠ [].

(** The environment refuses no call from [w] on. *)
Definition no_refusal (w : world) : Prop := ∀ k, reply_at k w ≠ Deny.

(** The bytes the one [sendfile] call of [clone_binary] moves: the third
    answer of the environment may cut the transfer short; otherwise it is
    bounded by the size of the executable and by RUNC_SENDFILE_MAX. *)
Definition clone_sent (w : world) (src : inode) : nat :=
  match reply_at 2 w with
  | Deny => 0
  | Grant cap => transfer_size cap RUNC_SENDFILE_MAX (length (i_data src))
  end.

(** The image [clone_binary] leaves behind its descriptor when it succeeds:
    the first [n] bytes of the executable, no link, and all four seals when
    the memfd is used. *)
Definition cloned_image (b : bool) (src : inode) (n : nat) : inode :=
  Inode (take n (i_data src)) (if b then Some RUNC_MEMFD_SEALS else None) 0.

(** The state the new image starts in. *)
Definition exec_world (w : world) (ino : Z) (args env : list (list byte)) : world :=
  World (w_inodes w) ino (nul_join args) (nul_join env)
        (filter (λ kv, fd_cloexec kv.2 = false) (w_fds w))
        (tail (w_script w)) (w_trace w ++ [Reexec]).

(** The ways a run of the guard can end. [t] is what the run adds to the
    log after [Detect]. *)
Inductive guard_end (b : bool) (w : world) : outcome Z → list op → Prop :=
  | end_detected (w' : world) :
      detect_result b w ≠ 0 →
      w_trace w' = w_trace w ++ [Detect] → w_fds w' = w_fds w →
      same_files w w' →
      guard_end b w (Ret (detect_result b w) w') []
  | end_fetch_failed (w' : world) :
      detect_result b w = 0 →
      w_trace w' = w_trace w ++ [Detect; Fetch] → w_fds w' = w_fds w →
      guard_end b w (Ret (- EINVAL) w') [Fetch]
  | end_fetch_fault (w' : world) :
      detect_result b w = 0 →
      w_trace w' = w_trace w ++ [Detect; Fetch] → w_fds w' = w_fds w →
      guard_end b w (Abort w') [Fetch]
  | end_clone_failed (w' : world) :
      detect_result b w = 0 →
      w_trace w' = w_trace w ++ [Detect; Fetch; Clone] → w_fds w' = w_fds w →
      guard_end b w (Ret (- EIO) w') [Fetch; Clone]
  | end_exec_failed (w' : world) (execfd : Z) (d : fdesc) :
      detect_result b w = 0 →
      w_trace w' = w_trace w ++ [Detect; Fetch; Clone; Reexec] →
      w_fds w !! execfd = None → w_fds w' = <[execfd := d]> (w_fds w) →
      guard_end b w (Ret (- ENOEXEC) w') [Fetch; Clone; Reexec]
  | end_replaced (w' : world) (src : inode) (n : nat) :
      detect_result b w = 0 →
      w_trace w' = w_trace w ++ [Detect; Fetch; Clone; Reexec] →
      exe_inode w = Some src →
      w_inodes w !! w_exe w' = None →
      w_inodes w' = <[w_exe w' := cloned_image b src n]> (w_inodes w) →
      guard_end b w (Exec w') [Fetch; Clone; Reexec].

(** The log a run of the guard ends with. *)
Definition final_trace {A : Type} (o : outcome A) : list op :=
  match o with
  | Ret _ w | Exec w | Abort w => w_trace w
  | Stuck => []
  end.

(** A process whose executable is an ordinary file and whose command line
    is "a\0b\0", with a script of answers. *)
Definition elf : inode := Inode [x7f; x45; x4c; x46] None 1.
Definition plain_world (script : list reply) : world :=
  World {[ 7 := elf ]} 7 [x61; x00; x62; x00] [x58; x3d; x31; x00] ∅ script [].

(** The four fatal classes and the negative status of each. *)
Inductive fatal_class : Type :=
  | UnrecoverableEnvironment
  | InvalidInput
  | IOFailure
  | ExecFailure.

Definition status_class (r : Z) : option fatal_class :=
  if r =? - ENOTRECOVERABLE then Some UnrecoverableEnvironment
  else if r =? - EINVAL then Some InvalidInput
  else if r =? - EIO then Some IOFailure
  else if r =? - ENOEXEC then Some ExecFailure
  else None.

(** The operations entered after [Detect] in a run that ends in a class. *)
Definition ops_before (c : fatal_class) : list op :=
  match c with
  | UnrecoverableEnvironment => []
  | InvalidInput => [Fetch]
  | IOFailure => [Fetch; Clone]
  | ExecFailure => [Fetch; Clone; Reexec]
  end.

(** The state a computation leaves the new image in when it ends in a
    re-exec (the state it started from otherwise). *)
Definition after_exec {A : Type} (m : M A) (w : world) : world :=
  match m w with
  | Exec w' => w'
  | _ => w
  end.

(** An executable of 0x80000000 bytes (2 GiB), larger than one transfer. *)
Definition big_exe : inode := Inode (replicate (Z.to_nat 0x80000000) x00) None 1.
Definition big_world : world :=
  World {[ 7 := big_exe ]} 7 [x61; x00] [x58; x3d; x31; x00] ∅ [] [].

(** The run of the memfd build in which every call succeeds but the final
    fexecve: the thirteenth fallible call is refused. *)
Definition exec_refused_world : world :=
  plain_world (replicate 12 (Grant 0) ++ [Deny]).

(** The fallible calls a computation made, counted on the script. *)
Definition calls_made {A : Type} (m : M A) (w : world) : nat :=
  match m w with
  | Ret _ w' | Exec w' | Abort w' => length (w_script w) - length (w_script w')
  | Stuck => 0
  end.

(** A process whose command line is the three bytes "abc", without a NUL. *)
Definition unterminated_world : world :=
  World {[ 7 := elf ]} 7 [x61; x62; x63] [x58; x3d; x31; x00] ∅ [] [].

(** A process whose environment is the three bytes "X=1", without a NUL. *)
Definition unterminated_env_world : world :=
  World {[ 7 := elf ]} 7 [x61; x00; x62; x00] [x58; x3d; x31] ∅ [] [].

(** The environment grants every call from [w] on in full. *)
Definition full_grants (w : world) : Prop := ∀ k, reply_at k w = Grant 0.

(** The offsets [parse_xargs]'s loop stores from [cur] on: each entry starts
    where the loop stands, below [data_length], and the loop moves past its
    terminator; the loop stops at or after [data_length]. *)
Fixpoint entries_chain (data : list byte) (data_length : Z) (cur : nat)
    (offs : list nat) : Prop :=
  match offs with
  | [] => data_length ≤ Z.of_nat cur
  | o :: offs' =>
      o = cur ∧ Z.of_nat cur < data_length
      ∧ ∃ k, strlen (drop cur data) = Some k
             ∧ entries_chain data data_length (cur + (k + 1)) offs'
  end.

(** The state a computation ends in (the state it started from when the
    model's loop bound is hit). *)
Definition state_after {A : Type} (m : M A) (w : world) : world :=
  match m w with
  | Ret _ w' | Exec w' | Abort w' => w'
  | Stuck => w
  end.

(** A process like [plain_world] that holds two open descriptors, the
    second of them close-on-exec. *)
Definition open_world (script : list reply) : world :=
  World {[ 7 := elf ]} 7 [x61; x00; x62; x00] [x58; x3d; x31; x00]
        {[ 0 := Fdesc ProcCmdline 0 false; 1 := Fdesc ProcEnviron 2 true ]}
        script [].

(** The title space of [SPT] is set up in [mem]: [base], [nul] and [end]
    point at the offsets [b ≤ n < e] of the area, and the byte at [nul] is
    still the terminator when [setproctitle] has run before and a reset
    does not reach it. *)
Definition title_space (SPT : Spt.spt) (mem : list byte) (b n e : nat) : Prop :=
  Spt.SPT_base SPT = Some (Z.of_nat b)
  ∧ Spt.SPT_nul SPT = Some (Z.of_nat n)
  ∧ Spt.SPT_end SPT = Some (Z.of_nat e)
  ∧ (b ≤ n < e)%nat ∧ (e ≤ length mem)%nat
  ∧ Z.of_nat (length mem) < 2 ^ 64
  ∧ (Spt.SPT_reset SPT ≠ 0 → (256 ≤ n - b)%nat → mem !! n = Some NUL).

(** The bytes of a title that fit the title space: at most 255, and one
    less than the space. *)
Definition title_fit (t : list byte) (b e : nat) : nat :=
  (length t `min` (256 `min` (e - b) - 1))%nat.

(** The memory of a process as the kernel lays it out: the argument strings
    one after the other, then the first environment string, between other
    bytes. *)
Definition stack_area (pre : list byte) (args : list (list byte)) (e0 rest : list byte)
  : list byte :=
  pre ++ nul_join args ++ e0 ++ NUL :: rest.

(** [spt_setproctitle] called with one title after the other; each call
    comes with what its stack buffer held. *)
Fixpoint set_titles (calls : list (list byte * list byte)) (SPT : Spt.spt)
    (mem : list byte) : result (Spt.spt * list byte) :=
  match calls with
  | [] => Done (SPT, mem)
  | (junk, title) :: calls' =>
      match Spt.spt_setproctitle junk title SPT mem with
      | Done (SPT', mem') => set_titles calls' SPT' mem'
      | Fault => Fault
      | NoFuel => NoFuel
      end
  end.

(** A process started as "k3s server" with the environment "A=1", "B=2":
    a byte of other data, then the argument and the environment strings.
    Its first environment string starts at offset 12. *)
Definition k3s_args : list (list byte) :=
  [[x6b; x33; x73]; [x73; x65; x72; x76; x65; x72]].
Definition k3s_stack : list byte :=
  stack_area [xff] k3s_args [x41; x3d; x31] [x42; x3d; x32; x00].
Definition k3s_SPT : Spt.spt := (Spt.spt_init1 [12; 16] Spt.SPT_zero).2.

(** * Properties *)

(** First the behaviour of each function of the file, then the properties
    of the guard stated on them. *)

(** ** strlen and the vectors *)

Lemma strlen_app_nul (s rest : list byte) :
  NUL ∉ s → strlen (s ++ NUL :: rest) = Some (length s).
Proof.
  induction s as [|b s IH]; simpl; intros Hs.
  - done.
  - rewrite decide_False by (intros ->; apply Hs; left).
    rewrite IH; [done|]. intros ?; apply Hs; by right.
Qed.

Lemma strlen_Some (mem : list byte) (k : nat) :
  strlen mem = Some k → (k < length mem)%nat ∧ mem !! k = Some NUL ∧ NUL ∉ take k mem.
Proof.
  revert k; induction mem as [|b mem IH]; simpl; intros k; [done|].
  destruct (decide (b = NUL)) as [->|Hb].
  - intros [= <-]; simpl. repeat split; [lia|]. apply not_elem_of_nil.
  - destruct (strlen mem) as [k'|] eqn:E; simpl; [|done].
    intros [= <-]. destruct (IH k' eq_refl) as (?&?&?).
    repeat split; [lia|done|]. simpl. rewrite not_elem_of_cons. done.
Qed.

Lemma strlen_None (mem : list byte) : strlen mem = None ↔ NUL ∉ mem.
Proof.
  induction mem as [|b mem IH]; simpl.
  - split; [intros _; apply not_elem_of_nil|done].
  - destruct (decide (b = NUL)) as [->|Hb].
    + split; [done|]. intros H; exfalso; apply H; left.
    + rewrite not_elem_of_cons. destruct (strlen mem); simpl.
      * split; [done|]. intros [_ H]. by apply IH in H.
      * split; [|done]. intros _. split; [congruence|]. by apply IH.
Qed.

Lemma resize_store (cells : list cell) (c : cell) :
  <[length cells := c]> (resize (S (S (length cells))) Uninit (cells ++ [Uninit]))
  = cells ++ [c; Uninit].
Proof.
  rewrite resize_ge by (rewrite length_app; simpl; lia).
  rewrite length_app; simpl.
  replace (S (S (length cells)) - (length cells + 1))%nat with 1%nat by lia.
  rewrite <- app_assoc; simpl.
  rewrite insert_app_r_alt by lia. by rewrite Nat.sub_diag.
Qed.

Lemma realloc_store (offs : list nat) (cur : nat) :
  let num := Z.of_nat (length offs) + 1 in
  (λ arr, <[Z.to_nat (num - 1) := Ptr cur]> arr)
    <$> must_realloc Uninit (out_of offs) (Z.to_nat (num + 1))
  = out_of (offs ++ [cur]).
Proof.
  intros num. unfold must_realloc, num.
  replace (Z.to_nat (Z.of_nat (length offs) + 1 - 1)) with (length offs) by lia.
  replace (Z.to_nat (Z.of_nat (length offs) + 1 + 1)) with (S (S (length offs))) by lia.
  destruct offs as [|o offs]; [done|].
  remember (o :: offs) as l eqn:El.
  assert (out_of l = Some ((Ptr <$> l) ++ [Uninit])) as -> by (by subst l).
  assert (out_of (l ++ [cur]) = Some ((Ptr <$> l ++ [cur]) ++ [Uninit])) as ->
    by (by subst l).
  cbn [default fmap option_fmap option_map]. f_equal.
  rewrite <- (length_fmap Ptr l).
  rewrite resize_store. rewrite fmap_app, <- app_assoc. done.
Qed.

(** ** parse_xargs: the loop *)

Lemma parse_xargs_loop_step (fuel : nat) (data : list byte) (len : Z)
    (offs : list nat) (cur : nat) :
  Z.of_nat cur < len → Z.of_nat (length offs) + 1 < INT_MAX →
  parse_xargs_loop (S fuel) data len (Z.of_nat (length offs)) cur (out_of offs)
  = match strlen (drop cur data) with
    | None => Fault
    | Some k =>
        parse_xargs_loop fuel data len (Z.of_nat (length (offs ++ [cur])))
                         (cur + (k + 1))%nat (out_of (offs ++ [cur]))
    end.
Proof.
  intros Hlt Hnum. cbn [parse_xargs_loop].
  destruct (Z.ltb_spec (Z.of_nat cur) len); [|lia].
  destruct (Z.ltb_spec INT_MAX (Z.of_nat (length offs) + 1 + 1)); [lia|].
  rewrite realloc_store.
  replace (Z.of_nat (length (offs ++ [cur]))) with (Z.of_nat (length offs) + 1)
    by (rewrite length_app; simpl; lia).
  done.
Qed.

(** The INT_MAX-th entry: [num + 1] overflows. *)
Lemma parse_xargs_loop_overflow (fuel : nat) (data : list byte) (len : Z)
    (num : Z) (cur : nat) (out : option (list cell)) :
  Z.of_nat cur < len → INT_MAX ≤ num + 1 →
  parse_xargs_loop (S fuel) data len num cur out = Fault.
Proof.
  intros Hlt Hnum. cbn [parse_xargs_loop].
  destruct (Z.ltb_spec (Z.of_nat cur) len); [|lia].
  destruct (Z.ltb_spec INT_MAX (num + 1 + 1)); [done|lia].
Qed.

(** One turn of the loop, whatever the count. *)
Lemma parse_xargs_loop_turn (fuel : nat) (data : list byte) (len : Z)
    (offs : list nat) (cur : nat) :
  Z.of_nat cur < len →
  parse_xargs_loop (S fuel) data len (Z.of_nat (length offs)) cur (out_of offs)
  = Fault
  ∨ Z.of_nat (length offs) + 1 < INT_MAX
    ∧ ∃ k, strlen (drop cur data) = Some k
           ∧ parse_xargs_loop (S fuel) data len (Z.of_nat (length offs)) cur
                              (out_of offs)
             = parse_xargs_loop fuel data len (Z.of_nat (length (offs ++ [cur])))
                                (cur + (k + 1))%nat (out_of (offs ++ [cur])).
Proof.
  intros Hlt.
  destruct (Z.lt_ge_cases (Z.of_nat (length offs) + 1) INT_MAX) as [Hnum|Hnum].
  - rewrite parse_xargs_loop_step by done.
    destruct (strlen (drop cur data)) as [k|]; [|by left].
    right. split; [done|]. by exists k.
  - left. apply parse_xargs_loop_overflow; lia.
Qed.

Lemma parse_xargs_loop_exit (fuel : nat) (data : list byte) (len num : Z)
    (cur : nat) (out : option (list cell)) :
  len ≤ Z.of_nat cur →
  parse_xargs_loop fuel data len num cur out = Done (num, out).
Proof.
  intros Hge. destruct fuel; cbn [parse_xargs_loop];
    destruct (Z.ltb_spec (Z.of_nat cur) len); done || lia.
Qed.

(** What the loop leaves when it finishes: the offsets it was given and
    the offsets it found, each the start of a string that ends inside the
    block. *)
Lemma parse_xargs_loop_shape (fuel : nat) (data : list byte) (len : Z) :
  ∀ (offs : list nat) (cur : nat) (n : Z) (out' : option (list cell)),
    parse_xargs_loop fuel data len (Z.of_nat (length offs)) cur (out_of offs)
      = Done (n, out') →
    ∃ offs', n = Z.of_nat (length (offs ++ offs'))
             ∧ out' = out_of (offs ++ offs')
             ∧ Forall (λ off, is_Some (strlen (drop off data))) offs'.
Proof.
  induction fuel as [|fuel IH]; intros offs cur n out'.
  - cbn [parse_xargs_loop]. destruct (Z.ltb_spec (Z.of_nat cur) len); [done|].
    intros [= <- <-]. exists []. by rewrite app_nil_r.
  - destruct (Z.lt_ge_cases (Z.of_nat cur) len) as [Hlt|Hge].
    + destruct (parse_xargs_loop_turn fuel data len offs cur Hlt)
        as [->|(_ & k & Ek & ->)]; [done|].
      intros Hrun. apply IH in Hrun as (offs' & -> & -> & Hall).
      exists (cur :: offs'). rewrite <- app_assoc. repeat split; [done..|].
      constructor; [by rewrite Ek|done].
    + rewrite parse_xargs_loop_exit by done.
      intros [= <- <-]. exists []. by rewrite app_nil_r.
Qed.

(** The bound given to the loop is never reached. *)
Lemma parse_xargs_loop_total (fuel : nat) (data : list byte) (len : Z) :
  ∀ (offs : list nat) (cur : nat),
    (length data - cur < fuel)%nat →
    parse_xargs_loop fuel data len (Z.of_nat (length offs)) cur (out_of offs) ≠ NoFuel.
Proof.
  induction fuel as [|fuel IH]; intros offs cur Hfuel; [lia|].
  destruct (Z.lt_ge_cases (Z.of_nat cur) len) as [Hlt|Hge].
  - destruct (parse_xargs_loop_turn fuel data len offs cur Hlt)
      as [->|(_ & k & Ek & ->)]; [done|].
    apply IH. apply strlen_Some in Ek as (Hk & _).
    rewrite length_drop in Hk. lia.
  - by rewrite parse_xargs_loop_exit.
Qed.

Lemma parse_xargs_total (data : option (list byte)) (len : Z)
    (output : option (list cell)) :
  parse_xargs data len output ≠ NoFuel.
Proof.
  unfold parse_xargs. destruct data as [d|], output as [o|]; try done.
  pose proof (parse_xargs_loop_total (S (length d)) d len [] 0%nat) as Htot.
  change (out_of []) with (@None (list cell)) in Htot.
  change (Z.of_nat (length [])) with 0 in Htot.
  destruct (parse_xargs_loop _ _ _ _ _ _) as [[num [arr|]]| |]; try done.
  apply Htot; lia.
Qed.

(** The walk over a vector made of valid pointers and a NULL. *)
Lemma vector_strings_ptrs (data : list byte) (offs : list nat) (tl : list cell) :
  Forall (λ off, is_Some (strlen (drop off data))) offs →
  ∃ ss, vector_strings data ((Ptr <$> offs) ++ Null :: tl) = Some ss
        ∧ length ss = length offs.
Proof.
  induction 1 as [|off offs [k Hk] _ (ss & Hss & Hlen)]; simpl.
  - by exists [].
  - rewrite Hk; simpl. change (list_fmap nat cell Ptr offs) with (Ptr <$> offs).
    rewrite Hss; simpl. eexists; split; [done|]. simpl; lia.
Qed.

Lemma store_null (offs : list nat) :
  <[length offs := Null]> ((Ptr <$> offs) ++ [Uninit]) = (Ptr <$> offs) ++ [Null].
Proof.
  rewrite <- (length_fmap Ptr offs) at 1.
  rewrite insert_app_r_alt by lia. by rewrite Nat.sub_diag.
Qed.

(** A successful [parse_xargs] in terms of the offsets it found. *)
Lemma parse_xargs_Done (data : option (list byte)) (len : Z)
    (output out : option (list cell)) (n : Z) :
  parse_xargs data len output = Done (n, out) → 0 < n →
  ∃ d offs, data = Some d ∧ output = None
            ∧ n = Z.of_nat (length offs)
            ∧ out = Some ((Ptr <$> offs) ++ [Null])
            ∧ Forall (λ off, is_Some (strlen (drop off d))) offs.
Proof.
  unfold parse_xargs. destruct data as [d|]; [|intros [= <- _]; lia].
  destruct output as [o|]; [intros [= <- _]; lia|].
  destruct (parse_xargs_loop _ _ _ _ _ _) as [[num [arr|]]| |] eqn:Eloop; try done.
  intros [= <- <-] Hpos.
  apply (parse_xargs_loop_shape _ _ _ []) in Eloop as (offs & -> & Harr & Hall).
  rewrite app_nil_l in *. exists d, offs.
  destruct offs as [|o offs]; [done|].
  injection Harr as ->. rewrite Nat2Z.id, store_null. done.
Qed.

(** ** parse_xargs on a blob of NUL-terminated entries *)

Lemma entry_offsets_length (base : nat) (ss : list (list byte)) :
  length (entry_offsets base ss) = length ss.
Proof. revert base; induction ss as [|s ss IH]; intros base; simpl; [done|by rewrite IH]. Qed.

Lemma nul_join_cons (s : list byte) (ss : list (list byte)) :
  nul_join (s :: ss) = s ++ NUL :: nul_join ss.
Proof. unfold nul_join; simpl. by rewrite <- app_assoc. Qed.

Lemma nul_join_length (ss : list (list byte)) :
  (length ss ≤ length (nul_join ss))%nat.
Proof.
  induction ss as [|s ss IH]; [done|].
  rewrite nul_join_cons, length_app; simpl; lia.
Qed.

Lemma parse_xargs_loop_join (ss : list (list byte)) :
  ∀ (pre : list byte) (offs : list nat) (fuel : nat),
    Forall (λ s, NUL ∉ s) ss → (length ss ≤ fuel)%nat →
    Z.of_nat (length offs + length ss) < INT_MAX →
    parse_xargs_loop fuel (pre ++ nul_join ss)
                     (Z.of_nat (length (pre ++ nul_join ss)))
                     (Z.of_nat (length offs)) (length pre) (out_of offs)
    = Done (Z.of_nat (length (offs ++ entry_offsets (length pre) ss)),
            out_of (offs ++ entry_offsets (length pre) ss)).
Proof.
  induction ss as [|s ss IH]; intros pre offs fuel Hss Hfuel Hnum.
  - rewrite parse_xargs_loop_exit; [by rewrite !app_nil_r|].
    unfold nul_join; simpl. rewrite app_nil_r. lia.
  - destruct fuel as [|fuel]; [simpl in Hfuel; lia|].
    apply Forall_cons in Hss as [Hs Hss]. cbn [length] in Hnum, Hfuel.
    rewrite parse_xargs_loop_step
      by (rewrite ?nul_join_cons, ?length_app; simpl; lia).
    rewrite drop_app_length, nul_join_cons, strlen_app_nul by done.
    replace (pre ++ s ++ NUL :: nul_join ss)
      with ((pre ++ s ++ [NUL]) ++ nul_join ss)
      by (by rewrite <- !app_assoc).
    replace (length pre + (length s + 1))%nat with (length (pre ++ s ++ [NUL]))
      by (rewrite !length_app; simpl; lia).
    rewrite IH by (done || rewrite ?length_app; simpl; lia).
    cbn [entry_offsets]. rewrite <- !app_assoc.
    replace (length (pre ++ s ++ [NUL])) with (length pre + (length s + 1))%nat
      by (rewrite !length_app; simpl; lia).
    done.
Qed.

Lemma vector_strings_join (ss : list (list byte)) :
  ∀ pre : list byte,
    Forall (λ s, NUL ∉ s) ss →
    vector_strings (pre ++ nul_join ss)
                   ((Ptr <$> entry_offsets (length pre) ss) ++ [Null]) = Some ss.
Proof.
  induction ss as [|s ss IH]; intros pre Hss; [done|].
  apply Forall_cons in Hss as [Hs Hss].
  cbn [entry_offsets fmap list_fmap app vector_strings string_at].
  rewrite drop_app_length, nul_join_cons, strlen_app_nul by done.
  cbn [mbind option_bind]. rewrite take_app_length.
  specialize (IH (pre ++ s ++ [NUL]) Hss).
  rewrite <- !app_assoc in IH. cbn [app] in IH.
  replace (length (pre ++ s ++ [NUL])) with (length pre + (length s + 1))%nat in IH
    by (rewrite !length_app; simpl; lia).
  change (list_fmap nat cell Ptr) with (fmap (M:=list) Ptr).
  by rewrite IH.
Qed.

Lemma parse_xargs_join (ss : list (list byte)) :
  ss ≠ [] → Forall (λ s, NUL ∉ s) ss → Z.of_nat (length ss) < INT_MAX →
  parse_xargs (Some (nul_join ss)) (Z.of_nat (length (nul_join ss))) None
  = Done (Z.of_nat (length ss), Some ((Ptr <$> entry_offsets 0 ss) ++ [Null])).
Proof.
  intros Hne Hss Hnum. unfold parse_xargs.
  pose proof (parse_xargs_loop_join ss [] [] (S (length (nul_join ss))) Hss) as Hloop.
  rewrite !app_nil_l in Hloop. cbn [length out_of] in Hloop.
  change (Z.of_nat 0) with 0 in Hloop.
  rewrite Hloop by (pose proof (nul_join_length ss); lia).
  rewrite entry_offsets_length.
  destruct (entry_offsets 0 ss) as [|o offs] eqn:Eoffs.
  { destruct ss; [done|discriminate]. }
  cbn [out_of]. rewrite <- (entry_offsets_length 0 ss), Eoffs.
  by rewrite Nat2Z.id, store_null.
Qed.

(** C3 (as stated, refuted). The claim has the blob "a\0bb\0\0" split to
    exactly the two entries "a" and "bb"; the entries [parse_xargs] yields
    for that blob are not these two. *)
Lemma parse_xargs_a_bb_not_two_entries :
  xargs_entries blob_a_bb ≠ Some [[x61]; [x62; x62]].
Proof. vm_compute. discriminate. Qed.

(** C3 (amended). Take any sequence of NUL-free entries and the blob made
    of these entries, each followed by its NUL terminator, the blob being
    shorter than INT_MAX bytes. When there is at least one entry,
    [parse_xargs] splits the blob into exactly these entries, the empty
    ones included, and returns their number; in particular "a\0bb\0\0"
    yields the three entries "a", "bb" and "". When there is none (the
    empty blob), [parse_xargs] yields no vector: the loop never runs and
    the NULL sentinel is stored through the NULL [*output]. *)
Theorem parse_xargs_one_entry_per_terminator (ss : list (list byte)) :
  Forall (λ s, NUL ∉ s) ss →
  Z.of_nat (length (nul_join ss)) < INT_MAX →
  match ss with
  | [] =>
      parse_xargs (Some (nul_join ss)) (Z.of_nat (length (nul_join ss))) None = Fault
      ∧ xargs_entries (nul_join ss) = None
  | _ :: _ =>
      (∃ arr, parse_xargs (Some (nul_join ss)) (Z.of_nat (length (nul_join ss))) None
              = Done (Z.of_nat (length ss), Some arr))
      ∧ xargs_entries (nul_join ss) = Some ss
  end.
Proof.
  intros Hss Hlen. destruct ss as [|s ss]; [by vm_compute|].
  unfold xargs_entries.
  rewrite parse_xargs_join by (done || pose proof (nul_join_length (s :: ss)); lia).
  split; [by eexists|].
  apply (vector_strings_join (s :: ss) []); done.
Qed.

Lemma parse_xargs_one_entry_per_terminator_witness :
  xargs_entries blob_a_bb = Some [[x61]; [x62; x62]; []].
Proof.
  refine (proj2 (parse_xargs_one_entry_per_terminator [[x61]; [x62; x62]; []] _ _)).
  - repeat constructor; intros H; repeat (apply elem_of_cons in H as [H|H]; [discriminate H|]);
      by apply elem_of_nil in H.
  - vm_compute. reflexivity.
Defined.

(** C9. Whenever [parse_xargs] returns a positive count [n], the array it
    leaves in [*output] has [n + 1] cells: the first [n] are pointers into
    the block, each at the start of a string that ends inside the block, and
    the cell at index [n] is NULL; walking the vector up to its NULL gives
    [n] strings. *)
Theorem parse_xargs_null_terminated (data : option (list byte)) (len : Z)
    (output out : option (list cell)) (n : Z) :
  parse_xargs data len output = Done (n, out) → 0 < n →
  ∃ d arr ss,
    data = Some d ∧ out = Some arr
    ∧ length arr = S (Z.to_nat n)
    ∧ arr !! Z.to_nat n = Some Null
    ∧ (∀ i, (i < Z.to_nat n)%nat → ∃ off, arr !! i = Some (Ptr off))
    ∧ vector_strings d arr = Some ss ∧ length ss = Z.to_nat n.
Proof.
  intros Hrun Hpos.
  destruct (parse_xargs_Done _ _ _ _ _ Hrun Hpos) as (d & offs & -> & _ & -> & -> & Hall).
  destruct (vector_strings_ptrs d offs [] Hall) as (ss & Hss & Hlen).
  exists d, ((Ptr <$> offs) ++ [Null]), ss. rewrite Nat2Z.id.
  repeat split; try done.
  - rewrite length_app, length_fmap; simpl; lia.
  - rewrite lookup_app_r by (rewrite length_fmap; lia).
    by rewrite length_fmap, Nat.sub_diag.
  - intros i Hi. destruct (lookup_lt_is_Some_2 offs i Hi) as [off Hoff].
    exists off. rewrite lookup_app_l by (rewrite length_fmap; lia).
    by rewrite list_lookup_fmap, Hoff.
Qed.

Lemma parse_xargs_null_terminated_witness :
  ∃ d arr ss,
    Some blob_a_bb = Some d ∧ Some [Ptr 0; Ptr 2; Ptr 5; Null] = Some arr
    ∧ length arr = S (Z.to_nat 3)
    ∧ arr !! Z.to_nat 3 = Some Null
    ∧ (∀ i, (i < Z.to_nat 3)%nat → ∃ off, arr !! i = Some (Ptr off))
    ∧ vector_strings d arr = Some ss ∧ length ss = Z.to_nat 3.
Proof.
  apply (parse_xargs_null_terminated (Some blob_a_bb) 6 None); [reflexivity|lia].
Defined.

(** ** The descriptor table *)

Lemma lowest_free_found {A : Type} (m : gmap Z A) :
  ∃ n, List.find (λ n, bool_decide (m !! n = None))
                 (Z.of_nat <$> seq 0 (S (size m))) = Some n.
Proof.
  destruct (List.find _ _) as [n|] eqn:Efind; [by eexists|exfalso].
  set (keys := Z.of_nat <$> seq 0 (S (size m))) in *.
  assert (Hsub : (list_to_set keys : gset Z) ⊆ dom m).
  { intros k Hk. apply elem_of_list_to_set, list_elem_of_In in Hk.
    apply (find_none _ _ Efind) in Hk. apply bool_decide_eq_false in Hk.
    apply elem_of_dom. by destruct (m !! k). }
  apply subseteq_size in Hsub.
  rewrite size_dom, size_list_to_set in Hsub.
  - unfold keys in Hsub. rewrite length_fmap, length_seq in Hsub. lia.
  - apply NoDup_fmap_2; [apply _|apply NoDup_seq].
Qed.

Lemma lowest_free_free {A : Type} (m : gmap Z A) : m !! lowest_free m = None.
Proof.
  unfold lowest_free. destruct (lowest_free_found m) as [n Hn]. rewrite Hn; simpl.
  apply find_some in Hn as [_ Hn]. by apply bool_decide_eq_true in Hn.
Qed.

Lemma lowest_free_nonneg {A : Type} (m : gmap Z A) : 0 ≤ lowest_free m.
Proof.
  unfold lowest_free. destruct (lowest_free_found m) as [n Hn]. rewrite Hn; simpl.
  apply find_some in Hn as [Hin _].
  apply list_elem_of_In, list_elem_of_fmap in Hin as (k & -> & _). lia.
Qed.

Lemma lowest_free_ltb {A : Type} (m : gmap Z A) : (lowest_free m <? 0) = false.
Proof. pose proof (lowest_free_nonneg m). lia. Qed.

Lemma lowest_free_insert_ne {A : Type} (m : gmap Z A) (k : Z) (x : A) :
  lowest_free (<[k:=x]> m) ≠ k.
Proof.
  intros Heq. pose proof (lowest_free_free (<[k:=x]> m)) as Hfree.
  rewrite Heq, lookup_insert_eq in Hfree. done.
Qed.

Lemma lowest_free_insert_free {A : Type} (m : gmap Z A) (k : Z) (x : A) :
  m !! lowest_free (<[k:=x]> m) = None.
Proof.
  pose proof (lowest_free_free (<[k:=x]> m)) as Hfree.
  by rewrite lookup_insert_ne in Hfree by (apply not_eq_sym, lowest_free_insert_ne).
Qed.

Lemma lowest_free_ne_Some {A : Type} (m : gmap Z A) (k : Z) (x : A) :
  m !! k = Some x → lowest_free m ≠ k.
Proof. intros Hk Heq. by rewrite <- Heq, lowest_free_free in Hk. Qed.

Create HintDb fresh.
#[global] Hint Resolve lowest_free_insert_ne lowest_free_ne_Some not_eq_sym : fresh.

(** ** The script of answers and symbolic execution *)

(** The replies in terms of the script as the calls consume it. *)
Lemma nth_0_hd {A : Type} (s : list A) (d : A) : nth 0 s d = hd d s.
Proof. by destruct s. Qed.

Lemma nth_S_tl {A : Type} (k : nat) (s : list A) (d : A) :
  nth (S k) s d = nth k (tl s) d.
Proof. by destruct s, k. Qed.

Lemma drop_S_tl {A : Type} (k : nat) (s : list A) : drop (S k) s = drop k (tl s).
Proof. by destruct s, k. Qed.

Lemma tail_drop {A : Type} (k : nat) (s : list A) : tail (drop k s) = drop (S k) s.
Proof.
  revert s; induction k as [|k IH]; intros s; [by destruct s|].
  destruct s as [|x s]; [done|]. apply IH.
Qed.

(** A script reached from [s] by answering calls. *)
Lemma script_here {A : Type} (s : list A) : ∃ j, s = drop j s.
Proof. by exists 0%nat. Qed.

Lemma script_tail {A : Type} (s x : list A) :
  (∃ j, x = drop j s) → ∃ j, tail x = drop j s.
Proof. intros [j ->]. exists (S j). apply tail_drop. Qed.

(** Symbolic execution: unfold the calls down to the tests they make on the
    script and on the tables, then split on these tests. *)
Ltac run_unfold :=
  cbv beta iota zeta delta
    [mbind M_bind mret M_ret log ask install new_inode lift
     sys_open memfd_create sys_close sys_read sendfile
     fcntl_F_GET_SEALS fcntl_F_ADD_SEALS fstat asprintf_proc_self_fd fexecve
     w_inodes w_exe w_cmdline w_environ w_fds w_script w_trace
     set_inodes set_fds set_script set_trace
     fd_file fd_pos fd_cloexec i_data i_seals i_nlink st_nlink st_size
     file_bytes fst snd] in *.

Ltac run_flags :=
  match goal with
  | |- context [has_flag ?a ?b] =>
      let v := eval vm_compute in (has_flag a b) in
      lazymatch v with
      | true => change (has_flag a b) with true
      | false => change (has_flag a b) with false
      end
  | |- context [cloexec_of ?a] =>
      let v := eval vm_compute in (cloexec_of a) in
      lazymatch v with
      | true => change (cloexec_of a) with true
      | false => change (cloexec_of a) with false
      end
  end.

Ltac run_rewrite :=
  repeat first
    [ rewrite lowest_free_ltb
    | rewrite lookup_insert_eq
    | rewrite lowest_free_free
    | rewrite delete_insert_id by (done || apply lowest_free_free)
    | rewrite insert_insert_eq
    | rewrite delete_insert_ne by eauto with fresh
    | rewrite lookup_insert_ne by eauto with fresh
    | rewrite lookup_delete_ne by eauto with fresh
    | run_flags
    | match goal with
      | H : ?m !! ?k = _ |- context [?m !! ?k] => rewrite H
      end
    | progress cbn [fmap option_fmap option_map default from_option id orb andb]
    | progress change (-1 <? 0) with true
    | progress change (0 <? 0) with false ].

(** Boolean tests on integers in the hypotheses, as propositions. *)
Ltac zbool :=
  repeat match goal with
  | H : (_ <? _) = true |- _ => apply Z.ltb_lt in H
  | H : (_ <? _) = false |- _ => apply Z.ltb_ge in H
  | H : (_ <=? _) = true |- _ => apply Z.leb_le in H
  | H : (_ <=? _) = false |- _ => apply Z.leb_gt in H
  | H : (_ =? _) = true |- _ => apply Z.eqb_eq in H
  | H : (_ =? _) = false |- _ => apply Z.eqb_neq in H
  | H : (_ >? _) = true |- _ => rewrite Z.gtb_ltb in H
  | H : (_ >? _) = false |- _ => rewrite Z.gtb_ltb in H
  | H : (_ >=? _) = true |- _ => rewrite Z.geb_leb in H
  | H : (_ >=? _) = false |- _ => rewrite Z.geb_leb in H
  end.

Ltac run_known :=
  match goal with
  | H : ?x = _ |- context [match ?x with _ => _ end] => rewrite H
  end.

Ltac run_split :=
  match goal with
  | |- context [match ?x with _ => _ end] =>
      lazymatch x with
      | context [match _ with _ => _ end] => fail
      | _ => destruct x eqn:?
      end
  end.

Ltac run :=
  repeat (progress (run_unfold; run_rewrite; run_unfold;
                    try first [run_known | run_split])).

(** ** is_self_cloned *)

Lemma is_self_cloned_spec (b : bool) (w : world) :
  ∃ w', is_self_cloned b w = Ret (detect_result b w) w'
        ∧ same_files w w' ∧ w_fds w' = w_fds w
        ∧ w_trace w' = w_trace w ++ [Detect]
        ∧ w_script w' = drop (detect_calls w) (w_script w).
Proof.
  unfold detect_result, detect_calls, exe_inode, reply_at, same_files.
  rewrite !nth_S_tl, !nth_0_hd.
  destruct w as [inodes exe cmdline environ fds script trace].
  unfold is_self_cloned. run; simplify_eq;
    (eexists; split; [reflexivity|]); run_unfold; rewrite ?drop_S_tl; done.
Qed.

(** ** read_file *)

Lemma transfer_size_le (cap : nat) (count : Z) (avail : nat) :
  (transfer_size cap count avail ≤ avail)%nat.
Proof. unfold transfer_size. destruct cap; lia. Qed.

Lemma transfer_size_0 (cap : nat) (avail : nat) :
  transfer_size cap 4096 avail = 0%nat → avail = 0%nat.
Proof. unfold transfer_size. destruct cap; lia. Qed.

(** One round of the loop appends the bytes read to the block. *)
Lemma read_chunk_append (c buf : list byte) :
  buf ≠ [] →
  memcpy (must_realloc NUL (block_of c)
                       (Z.to_nat (Z.of_nat (length c) + Z.of_nat (length buf))))
         (Z.to_nat (Z.of_nat (length c))) buf
  = block_of (c ++ buf).
Proof.
  intros Hbuf. unfold memcpy, must_realloc, write_at.
  replace (default [] (block_of c)) with c by (by destruct c).
  replace (Z.to_nat (Z.of_nat (length c) + Z.of_nat (length buf)))
    with (length c + length buf)%nat by lia.
  rewrite Nat2Z.id. cbn [fmap option_fmap option_map].
  rewrite resize_resize, resize_all by lia.
  rewrite drop_ge, app_nil_r by (rewrite length_resize; lia).
  by destruct c, buf.
Qed.

(** The loop of [read_file] ends by closing [fd] and returning. It returns
    NULL when one of the reads it made was refused; when none was, it
    returns the bytes it was given followed by the bytes left behind [fd],
    and their number. *)
Lemma read_file_loop_spec (fuel : nat) :
  ∀ (fd : Z) (c : list byte) (w : world) (d : fdesc) (bytes : list byte),
    w_fds w !! fd = Some d →
    file_bytes w (fd_file d) = Some bytes →
    (length bytes - fd_pos d < fuel)%nat →
    ∃ r w' j, read_file_loop fuel fd (block_of c) (Z.of_nat (length c)) w = Ret r w'
            ∧ same_files w w' ∧ w_fds w' = delete fd (w_fds w)
            ∧ w_trace w' = w_trace w
            ∧ w_script w' = drop j (w_script w)
            ∧ (∀ k, (k < j)%nat → reply_at k w = Deny → r.1 = None)
            ∧ ((∃ k, (k < j)%nat ∧ reply_at k w = Deny)
               ∨ r = (block_of (c ++ drop (fd_pos d) bytes),
                      Z.of_nat (length (c ++ drop (fd_pos d) bytes)))).
Proof.
  induction fuel as [|fuel IH]; intros fd c w d bytes Hfd Hbytes Hfuel; [lia|].
  cbn [read_file_loop]. unfold reply_at.
  destruct w as [inodes exe cmdline environ fds script trace].
  unfold same_files. run_unfold.
  destruct (hd (Grant 0) script) as [|cap] eqn:Er.
  - run. eexists _, _, 1%nat. split; [done|]. run_unfold.
    rewrite drop_S_tl. split_and!; try done.
    all: left; exists 0%nat; split; [lia|]; by rewrite nth_0_hd.
  - run; zbool.
    + lia.
    + eexists _, _, 1%nat. split; [done|]. run_unfold.
      rewrite delete_insert_eq, drop_S_tl. split_and!; try done.
      * intros [|k] Hk; [|lia]. rewrite nth_0_hd, Er. done.
      * right. assert (Z.of_nat (transfer_size cap 4096 (length (drop fd_pos0 bytes))) = 0)
          as Hz by done.
        apply Nat2Z.inj_iff with (m := 0%nat), transfer_size_0, nil_length_inv in Hz.
        rewrite Hz, app_nil_r. done.
    + set (n := transfer_size cap 4096 (length (drop fd_pos0 bytes))) in *.
      assert (0 < n)%nat as Hn by lia.
      pose proof (transfer_size_le cap 4096 (length (drop fd_pos0 bytes))) as Hle.
      fold n in Hle.
      set (buf := take n (drop fd_pos0 bytes)).
      assert (Hlen : length buf = n) by (unfold buf; rewrite length_take; lia).
      replace (Z.of_nat n) with (Z.of_nat (length buf)) by (by rewrite Hlen).
      rewrite read_chunk_append
        by (intros Heq; rewrite Heq in Hlen; simpl in Hlen; lia).
      replace (Z.of_nat (length c) + Z.of_nat (length buf))
        with (Z.of_nat (length (c ++ buf))) by (rewrite length_app; lia).
      rewrite length_drop in Hle.
      edestruct (IH fd (c ++ buf)
                    (World inodes exe cmdline environ
                           (<[fd := Fdesc fd_file0 (fd_pos0 + n) fd_cloexec0]> fds)
                           (tail script) trace)
                    (Fdesc fd_file0 (fd_pos0 + n) fd_cloexec0) bytes)
        as (r & w' & j & Hrun & Hsame & Hfds & Htrace & Hscript & Hdeny & Hres).
      * run_unfold. by rewrite lookup_insert_eq.
      * done.
      * run_unfold. lia.
      * exists r, w', (S j). split; [done|].
        rewrite delete_insert_eq in Hfds. unfold same_files in Hsame. run_unfold.
        rewrite drop_S_tl. destruct Hsame as (?&?&?&?). split_and!; try done.
        -- intros [|k] Hk; [by rewrite nth_0_hd, Er|].
           rewrite nth_S_tl. apply Hdeny. lia.
        -- destruct Hres as [(k & Hk & Hd)|Hres]; [left|right].
           ++ exists (S k). split; [lia|]. by rewrite nth_S_tl.
           ++ rewrite Hres. unfold buf.
              rewrite <- (take_drop n (drop fd_pos0 bytes)) at 3 4.
              rewrite drop_drop, <- !app_assoc. done.
Qed.

(** [read_file] on a pseudo-file returns, with the descriptor table as it
    found it. It returns NULL when one of its calls (the open or a read) was
    refused, and the bytes of the file (NULL for an empty file) and their
    number otherwise. *)
Lemma read_file_spec (p : path) (w : world) (bytes : list byte) :
  pseudo_file p w = Some bytes →
  ∃ r w' j, read_file p true w = Ret r w'
          ∧ same_files w w' ∧ w_fds w' = w_fds w ∧ w_trace w' = w_trace w
          ∧ w_script w' = drop j (w_script w)
          ∧ (∀ k, (k < j)%nat → reply_at k w = Deny → r.1 = None)
          ∧ ((∃ k, (k < j)%nat ∧ reply_at k w = Deny)
             ∨ r = (block_of bytes, Z.of_nat (length bytes))).
Proof.
  intros Hp. unfold read_file. cbn [negb].
  destruct w as [inodes exe cmdline environ fds script trace].
  unfold same_files, reply_at. run_unfold.
  destruct (hd (Grant 0) script) as [|cap] eqn:Er.
  - run_unfold. change (-1 <? 0) with true. run_unfold.
    eexists _, _, 1%nat. split; [done|]. run_unfold. rewrite drop_S_tl.
    split_and!; try done. all: left; exists 0%nat; split; [lia|]; by rewrite nth_0_hd.
  - set (fd := lowest_free fds).
    set (d := Fdesc (match p with proc_self_cmdline => ProcCmdline | _ => ProcEnviron end)
                    0 (cloexec_of (Z.lor O_RDONLY O_CLOEXEC))).
    edestruct (read_file_loop_spec (S (length bytes)) fd []
                 (World inodes exe cmdline environ (<[fd := d]> fds) (tail script) trace)
                 d bytes)
      as (r & w' & j & Hrun & Hsame & Hfds & Htrace & Hscript & Hdeny & Hres).
    { run_unfold. by rewrite lookup_insert_eq. }
    { by destruct p. }
    { run_unfold. lia. }
    exists r, w', (S j). unfold same_files in Hsame. run_unfold.
    rewrite delete_insert_id in Hfds by apply lowest_free_free.
    cbn [block_of length app fd_pos d] in Hrun, Hres. rewrite drop_0 in Hres.
    assert ((fd <? 0) = false) as Hfd0 by apply lowest_free_ltb.
    destruct Hsame as (?&?&?&?).
    destruct p; try done; cbn [pseudo_file w_cmdline w_environ] in Hp;
      injection Hp as <-; run_unfold; fold fd; rewrite Hfd0;
      unfold read_bound; run_unfold; rewrite lookup_insert_eq;
      cbn [mbind option_bind default from_option id]; run_unfold;
      cbn [default from_option id]; fold d;
      (split; [exact Hrun|]); rewrite drop_S_tl;
      (split_and!; try done;
       [ intros [|k] Hk; [by rewrite nth_0_hd, Er|]; rewrite nth_S_tl; apply Hdeny; lia
       | destruct Hres as [(k & Hk & Hd)|Hres]; [left|by right];
         exists (S k); split; [lia|]; by rewrite nth_S_tl ]).
Qed.

(** ** fetchve *)

Lemma bind_Ret {A B : Type} (m : M A) (k : A → M B) (w w' : world) (a : A) :
  m w = Ret a w' → (m ≫= k) w = k a w'.
Proof. unfold mbind, M_bind. by intros ->. Qed.

Lemma nth_drop_add {A : Type} (j k : nat) (l : list A) (d : A) :
  nth k (drop j l) d = nth (j + k) l d.
Proof.
  revert l; induction j as [|j IH]; intros l; [done|].
  destruct l as [|x l]; simpl; [by destruct k|apply IH].
Qed.

Lemma drop_drop_add {A : Type} (j k : nat) (l : list A) :
  drop k (drop j l) = drop (j + k) l.
Proof. by rewrite drop_drop. Qed.

Lemma fetchve_spec (w : world) :
  ∃ j,
    match fetchve None None w with
    | Ret (r, f) w' =>
        same_files w w' ∧ w_fds w' = w_fds w
        ∧ w_trace w' = w_trace w ++ [Fetch]
        ∧ w_script w' = drop j (w_script w)
        ∧ (r = - EINVAL
           ∨ (r = 0 ∧ reads_granted j w
              ∧ ∃ args env,
                  strings_of (f_argv f, f_cmdline f) = Some args ∧ args ≠ []
                  ∧ strings_of (f_envp f, f_environ f) = Some env ∧ env ≠ []))
    | Abort w' =>
        same_files w w' ∧ w_fds w' = w_fds w
        ∧ w_trace w' = w_trace w ++ [Fetch]
        ∧ w_script w' = drop j (w_script w)
        ∧ reads_granted j w
    | Exec _ | Stuck => False
    end.
Proof.
  unfold fetchve.
  rewrite (bind_Ret _ _ w (set_trace (w_trace w ++ [Fetch]) w) ()) by done.
  destruct (read_file_spec proc_self_cmdline (set_trace (w_trace w ++ [Fetch]) w)
              (w_cmdline w) eq_refl)
    as ([c1 l1] & w1 & j1 & Hrun1 & Hsame1 & Hfds1 & Htrace1 & Hscript1 & Hdeny1 & Hres1).
  rewrite (bind_Ret _ _ _ _ _ Hrun1).
  unfold same_files in *. cbn [fst snd] in *.
  cbn [w_inodes w_exe w_cmdline w_environ w_fds w_script w_trace set_trace] in *.
  assert (Hempty1 : w_cmdline w = [] → c1 = None).
  { intros Hc. destruct Hres1 as [(k & Hk & Hd)|[= -> _]];
      [by eapply Hdeny1|by rewrite Hc]. }
  destruct Hsame1 as (Hi1 & He1 & Hc1 & Hv1).
  case_bool_decide as Hnull1.
  { exists j1. unfold fetchve_error, mret, M_ret. naive_solver. }
  destruct (read_file_spec proc_self_environ w1 (w_environ w1) eq_refl)
    as ([c2 l2] & w2 & j2 & Hrun2 & Hsame2 & Hfds2 & Htrace2 & Hscript2 & Hdeny2 & Hres2).
  rewrite (bind_Ret _ _ _ _ _ Hrun2).
  cbn [fst snd] in *. destruct Hsame2 as (Hi2 & He2 & Hc2 & Hv2).
  assert (Hempty2 : w_environ w1 = [] → c2 = None).
  { intros Hv. destruct Hres2 as [(k & Hk & Hd)|[= -> _]];
      [by eapply Hdeny2|by rewrite Hv]. }
  assert (Hframe : w_inodes w2 = w_inodes w ∧ w_exe w2 = w_exe w
                   ∧ w_cmdline w2 = w_cmdline w ∧ w_environ w2 = w_environ w
                   ∧ w_fds w2 = w_fds w ∧ w_trace w2 = w_trace w ++ [Fetch]
                   ∧ w_script w2 = drop (j1 + j2) (w_script w)).
  { rewrite Hscript2, Hscript1, drop_drop_add. repeat split; congruence. }
  case_bool_decide as Hnull2.
  { exists (j1 + j2)%nat. unfold fetchve_error, mret, M_ret. naive_solver. }
  assert (Hgranted : reads_granted (j1 + j2) w).
  { split; [|split].
    - intros k Hk Hdeny. destruct (decide (k < j1)%nat) as [Hlt|Hge].
      + apply Hnull1, (Hdeny1 k Hlt). exact Hdeny.
      + apply Hnull2, (Hdeny2 (k - j1)%nat); [lia|].
        unfold reply_at in *. rewrite Hscript1, nth_drop_add.
        cbn [w_script set_trace]. by replace (j1 + (k - j1))%nat with k by lia.
    - intros Hc. by apply Hnull1, Hempty1.
    - intros Hv. apply Hnull2, Hempty2. congruence. }
  destruct (parse_xargs c1 (int_of_size_t l1) None) as [[n1 argv]| |] eqn:Hp1;
    [|exists (j1 + j2)%nat; unfold lift, mbind, M_bind; naive_solver
     |by apply parse_xargs_total in Hp1].
  rewrite (bind_Ret (lift (Done _)) _ w2 w2 _ eq_refl). cbv beta iota.
  destruct (Z.leb_spec n1 0) as [Hn1|Hn1].
  { exists (j1 + j2)%nat. unfold fetchve_error, mret, M_ret. naive_solver. }
  destruct (parse_xargs c2 (int_of_size_t l2) None) as [[n2 envp]| |] eqn:Hp2;
    [|exists (j1 + j2)%nat; unfold lift, mbind, M_bind; naive_solver
     |by apply parse_xargs_total in Hp2].
  rewrite (bind_Ret (lift (Done _)) _ w2 w2 _ eq_refl). cbv beta iota.
  destruct (Z.leb_spec n2 0) as [Hn2|Hn2].
  { exists (j1 + j2)%nat. unfold fetchve_error, mret, M_ret. naive_solver. }
  exists (j1 + j2)%nat. unfold mret, M_ret. cbn [f_argv f_envp f_cmdline f_environ].
  destruct (parse_xargs_Done _ _ _ _ _ Hp1 Hn1) as (d1 & offs1 & -> & _ & -> & -> & Hall1).
  destruct (parse_xargs_Done _ _ _ _ _ Hp2 Hn2) as (d2 & offs2 & -> & _ & -> & -> & Hall2).
  destruct (vector_strings_ptrs d1 offs1 [] Hall1) as (args & Hargs & Hlen1).
  destruct (vector_strings_ptrs d2 offs2 [] Hall2) as (env & Henv & Hlen2).
  destruct Hframe as (?&?&?&?&?&?&?).
  split_and!; try done.
  right. split_and!; [done|apply Hgranted..|].
  exists args, env. cbn [strings_of]. repeat split; try done.
  - intros ->. simpl in Hlen1. lia.
  - intros ->. simpl in Hlen2. lia.
Qed.

(** *** fetchve when no call is refused *)

Lemma no_refusal_drop (w w' : world) (j : nat) :
  w_script w' = drop j (w_script w) → no_refusal w → no_refusal w'.
Proof.
  intros Hscript Hw k. unfold reply_at. rewrite Hscript, nth_drop_add. apply Hw.
Qed.

Lemma read_file_granted (p : path) (w : world) (bytes : list byte) :
  pseudo_file p w = Some bytes → no_refusal w →
  ∃ w', read_file p true w = Ret (block_of bytes, Z.of_nat (length bytes)) w'
        ∧ same_files w w' ∧ w_fds w' = w_fds w ∧ w_trace w' = w_trace w
        ∧ no_refusal w'.
Proof.
  intros Hp Hw.
  destruct (read_file_spec p w bytes Hp)
    as (r & w' & j & Hrun & Hsame & Hfds & Htrace & Hscript & _ & Hres).
  destruct Hres as [(k & _ & Hdeny)|Hres]; [by apply Hw in Hdeny|]. subst r.
  exists w'. split_and!; try done. by eapply no_refusal_drop.
Qed.

Lemma int_of_size_t_small (n : Z) : 0 ≤ n < 2 ^ 31 → int_of_size_t n = n.
Proof.
  intros Hn. unfold int_of_size_t. rewrite Z.mod_small by lia.
  destruct (Z.ltb_spec n (2 ^ 31)); lia.
Qed.

(** With no call refused and two non-empty sources of less than 2^31
    bytes, [fetchve] is the two calls of [parse_xargs] on the bytes of the
    sources. *)
Lemma fetchve_granted (w : world) :
  no_refusal w → w_cmdline w ≠ [] → w_environ w ≠ [] →
  Z.of_nat (length (w_cmdline w)) < 2 ^ 31 →
  Z.of_nat (length (w_environ w)) < 2 ^ 31 →
  ∃ w', same_files w w' ∧ w_fds w' = w_fds w
        ∧ w_trace w' = w_trace w ++ [Fetch] ∧ no_refusal w'
        ∧ fetchve None None w
          = match parse_xargs (Some (w_cmdline w))
                              (Z.of_nat (length (w_cmdline w))) None with
            | Done (n, argv) =>
                if n <=? 0 then Ret (- EINVAL, Fetched argv None None None) w'
                else
                  match parse_xargs (Some (w_environ w))
                                    (Z.of_nat (length (w_environ w))) None with
                  | Done (m, envp) =>
                      if m <=? 0 then Ret (- EINVAL, Fetched argv envp None None) w'
                      else Ret (0, Fetched argv envp (Some (w_cmdline w))
                                           (Some (w_environ w))) w'
                  | Fault => Abort w'
                  | NoFuel => Stuck
                  end
            | Fault => Abort w'
            | NoFuel => Stuck
            end.
Proof.
  intros Hw Hc Hv Hclen Hvlen. unfold fetchve.
  rewrite (bind_Ret _ _ w (set_trace (w_trace w ++ [Fetch]) w) ()) by done.
  destruct (read_file_granted proc_self_cmdline (set_trace (w_trace w ++ [Fetch]) w)
              (w_cmdline w) eq_refl Hw)
    as (w1 & Hrun1 & (Hi1 & He1 & Hc1 & Hv1) & Hfds1 & Htrace1 & Hw1).
  rewrite (bind_Ret _ _ _ _ _ Hrun1).
  cbn [w_inodes w_exe w_cmdline w_environ w_fds w_trace set_trace] in *.
  destruct (read_file_granted proc_self_environ w1 (w_environ w1) eq_refl Hw1)
    as (w2 & Hrun2 & (Hi2 & He2 & Hc2 & Hv2) & Hfds2 & Htrace2 & Hw2).
  assert (block_of (w_cmdline w) = Some (w_cmdline w)) as Hb1
    by (by destruct (w_cmdline w)).
  assert (block_of (w_environ w) = Some (w_environ w)) as Hb2
    by (by destruct (w_environ w)).
  rewrite Hb1. rewrite bool_decide_eq_false_2 by done.
  rewrite (bind_Ret _ _ _ _ _ Hrun2), Hv1, Hb2.
  rewrite bool_decide_eq_false_2 by done.
  rewrite !int_of_size_t_small by lia.
  exists w2. split_and!; [unfold same_files; split_and!; congruence|congruence..|done|].
  unfold lift, mbind, M_bind, fetchve_error, mret, M_ret.
  destruct (parse_xargs (Some (w_cmdline w)) _ None) as [[n argv]| |]; [|done..].
  destruct (n <=? 0); [done|].
  destruct (parse_xargs (Some (w_environ w)) _ None) as [[m envp]| |]; [|done..].
  by destruct (m <=? 0).
Qed.

(** ** clone_binary *)

Lemma write_at_nil (chunk : list byte) : write_at 0 chunk [] = chunk.
Proof. unfold write_at. rewrite drop_nil, app_nil_r. done. Qed.

(** Equalities between descriptor tables or inode tables built from the
    same one by insertions and deletions at fresh keys. *)
Ltac map_solve :=
  apply map_eq; intros ?;
  repeat (first [rewrite lookup_insert | rewrite lookup_delete];
          repeat (case_decide; simplify_eq));
  rewrite ?lowest_free_free, ?lowest_free_insert_free;
  try done;
  try (exfalso;
       match goal with
       | H : lowest_free (<[_:=_]> _) = _ |- _ =>
           exact (lowest_free_insert_ne _ _ _ H)
       | H : _ = lowest_free (<[_:=_]> _) |- _ =>
           exact (lowest_free_insert_ne _ _ _ (eq_sym H))
       end).

(** One of the first answers of the script is a refusal. *)
Ltac deny_at k :=
  exists k; (split; [lia|]); rewrite ?nth_S_tl, nth_0_hd; assumption.
Ltac deny_solve :=
  first [ deny_at 0%nat | deny_at 1%nat | deny_at 2%nat | deny_at 3%nat
        | deny_at 4%nat ].

Lemma clone_binary_spec (b : bool) (w : world) (src : inode) :
  exe_inode w = Some src →
  ∃ r w',
    clone_binary b w = Ret r w'
    ∧ w_trace w' = w_trace w ++ [Clone]
    ∧ w_exe w' = w_exe w ∧ w_cmdline w' = w_cmdline w
    ∧ w_environ w' = w_environ w
    ∧ (∃ j, w_script w' = drop j (w_script w))
    ∧ (((r = - ENOTRECOVERABLE ∨ r = - EIO) ∧ w_fds w' = w_fds w
        ∧ ∃ k, (k < 5)%nat ∧ reply_at k w = Deny)
       ∨ (0 ≤ r ∧ w_fds w !! r = None
          ∧ ∃ ino pos,
              w_inodes w !! ino = None
              ∧ w_fds w' = <[r := Fdesc (OnInode ino) pos true]> (w_fds w)
              ∧ w_inodes w'
                = <[ino := cloned_image b src (clone_sent w src)]> (w_inodes w))).
Proof.
  destruct w as [inodes exe cmdline environ fds script trace].
  unfold exe_inode, clone_sent, cloned_image, reply_at; run_unfold. intros Hexe.
  rewrite !nth_S_tl, nth_0_hd.
  unfold clone_binary, clone_binary_error.
  destruct b.
  - run; zbool; try lia;
      (eexists _, _; (split; [reflexivity|]); run_unfold;
       (split_and!; try reflexivity;
        try (repeat apply script_tail; apply script_here)));
      try (left; (split_and!; [auto|done|]); deny_solve).
    right. split_and!; [apply lowest_free_nonneg|apply lowest_free_free|].
    exists (lowest_free inodes). eexists. split_and!; [apply lowest_free_free|done|].
    rewrite write_at_nil, !drop_0. reflexivity.
  - run; zbool; try lia;
      (eexists _, _; (split; [reflexivity|]); run_unfold;
       (split_and!; try reflexivity;
        try (repeat apply script_tail; apply script_here)));
      try (left; (split_and!; [auto|done|]); deny_solve).
    right. split_and!; [apply lowest_free_nonneg|apply lowest_free_insert_free|].
    exists (lowest_free inodes). eexists. split_and!; [apply lowest_free_free|done|].
    rewrite write_at_nil, !drop_0. reflexivity.
Qed.

(** ** fexecve *)

Lemma fexecve_spec (fd : Z) (argv envp : vector) (w : world)
    (ino : Z) (pos : nat) (cx : bool) (img : inode) (args env : list (list byte)) :
  w_fds w !! fd = Some (Fdesc (OnInode ino) pos cx) →
  w_inodes w !! ino = Some img →
  strings_of argv = Some args → strings_of envp = Some env →
  (reply_at 0 w = Deny
   ∧ ∃ w', fexecve fd argv envp w = Ret (-1) w'
           ∧ w_fds w' = w_fds w ∧ w_trace w' = w_trace w ++ [Reexec]
           ∧ same_files w w')
  ∨ (reply_at 0 w ≠ Deny
     ∧ fexecve fd argv envp w = Exec (exec_world w ino args env)).
Proof.
  intros Hfd Hino Hargs Henv. unfold fexecve, exec_world, reply_at, same_files.
  rewrite nth_0_hd.
  destruct w as [inodes exe cmdline environ fds script trace]. run_unfold.
  destruct (hd (Grant 0) script) as [|cap] eqn:Er.
  - left. split; [done|]. eexists. split; [reflexivity|]. done.
  - right. split; [done|]. rewrite Hfd, Hargs, Henv, Hino. done.
Qed.

(** ** ensure_cloned_binary *)

Lemma detect_result_cases (b : bool) (w : world) :
  (detect_result b w = - ENOTRECOVERABLE ∧ open_exe_fails w)
  ∨ ((detect_result b w = 0 ∨ detect_result b w = 1)
     ∧ ¬ open_exe_fails w ∧ is_Some (exe_inode w)).
Proof.
  unfold detect_result, open_exe_fails.
  destruct (reply_at 0 w); [left; auto|].
  destruct (exe_inode w) as [i|]; [|left; auto].
  right. split; [|split; [intros [?|?]; done|by eexists]].
  destruct (reply_at 1 w); [auto|]. destruct b.
  - destruct (i_seals i) as [s|]; [|auto]. destruct (s =? RUNC_MEMFD_SEALS); auto.
  - destruct (i_nlink i =? 0); auto.
Qed.

Lemma ensure_cloned_binary_spec (b : bool) (w : world) :
  ∃ t, guard_end b w (ensure_cloned_binary b w) t.
Proof.
  unfold ensure_cloned_binary.
  destruct (is_self_cloned_spec b w)
    as (w1 & Hrun1 & (Hi1 & He1 & Hc1 & Hv1) & Hfds1 & Htrace1 & _).
  rewrite (bind_Ret _ _ _ _ _ Hrun1).
  destruct (detect_result_cases b w) as [[Hd Hfail]|[Hd [Hok [src Hsrc]]]].
  { rewrite Hd. change ((_ >? 0) || (_ =? _)) with true. cbv iota.
    exists []. rewrite <- Hd. apply end_detected; try done. by rewrite Hd. }
  destruct Hd as [Hd|Hd].
  2:{ rewrite Hd. change ((_ >? 0) || (_ =? _)) with true. cbv iota.
      exists []. rewrite <- Hd. apply end_detected; try done. by rewrite Hd. }
  rewrite Hd. change ((_ >? 0) || (_ =? _)) with false. cbv iota.
  destruct (fetchve_spec w1) as [j Hfetch].
  unfold mbind at 1, M_bind at 1.
  destruct (fetchve None None w1) as [[r f] w2|w2|w2|] eqn:Hrun2; [| done | | done].
  2:{ destruct Hfetch as (_ & Hfds2 & Htrace2 & _).
      exists [Fetch]. apply end_fetch_fault; [done| |congruence].
      rewrite Htrace2, Htrace1, <- app_assoc. done. }
  destruct Hfetch as ((Hi2 & He2 & Hc2 & Hv2) & Hfds2 & Htrace2 & _ & Hres).
  destruct Hres as [->|(-> & _ & args & env & Hargs & _ & Henv & _)].
  { change (- EINVAL <? 0) with true. cbv iota.
    exists [Fetch]. apply end_fetch_failed; [done| |congruence].
    rewrite Htrace2, Htrace1, <- app_assoc. done. }
  change (0 <? 0) with false. cbv iota.
  assert (Hsrc2 : exe_inode w2 = Some src).
  { unfold exe_inode in *. by rewrite Hi2, He2, Hi1, He1. }
  destruct (clone_binary_spec b w2 src Hsrc2)
    as (execfd & w3 & Hrun3 & Htrace3 & He3 & Hc3 & Hv3 & _ & Hres).
  rewrite (bind_Ret _ _ _ _ _ Hrun3).
  assert (Htr3 : w_trace w3 = w_trace w ++ [Detect; Fetch; Clone]).
  { rewrite Htrace3, Htrace2, Htrace1, <- !app_assoc. done. }
  destruct Hres as [([->| ->] & Hfds3 & _)|(Hpos & Hfree & ino & pos & Hino & Hfds3 & Hino3)].
  1,2: change (_ <? 0) with true; cbv iota; exists [Fetch; Clone];
       apply end_clone_failed; [done|done|congruence].
  destruct (Z.ltb_spec execfd 0) as [?|_]; [lia|].
  destruct (fexecve_spec execfd (f_argv f, f_cmdline f) (f_envp f, f_environ f) w3
              ino pos true (cloned_image b src (clone_sent w2 src)) args env)
    as [(_ & w4 & Hrun4 & Hfds4 & Htrace4 & _)|(_ & Hrun4)]; try done.
  { by rewrite Hfds3, lookup_insert_eq. }
  { by rewrite Hino3, lookup_insert_eq. }
  - rewrite (bind_Ret _ _ _ _ _ Hrun4).
    exists [Fetch; Clone; Reexec].
    eapply (end_exec_failed b w w4 execfd); [done| | |].
    + rewrite Htrace4, Htr3, <- !app_assoc. done.
    + by rewrite <- Hfds1, <- Hfds2.
    + rewrite Hfds4, Hfds3, Hfds2, Hfds1. done.
  - unfold mbind, M_bind. rewrite Hrun4.
    exists [Fetch; Clone; Reexec].
    eapply (end_replaced b w _ src (clone_sent w2 src)); unfold exec_world;
      cbn [w_inodes w_exe w_trace]; [done| |done| |].
    + rewrite Htr3, <- !app_assoc. done.
    + by rewrite <- Hi1, <- Hi2.
    + by rewrite Hino3, Hi2, Hi1.
Qed.

(** ** What the detector reports *)

Lemma is_self_cloned_returns (b : bool) (w : world) (r : Z) :
  returns (is_self_cloned b) w r ↔ r = detect_result b w.
Proof.
  destruct (is_self_cloned_spec b w) as (w' & Hrun & _).
  split; [intros [w'' Hr]; congruence|intros ->; by exists w'].
Qed.

(** C4. [is_self_cloned] returns 1 (Cloned) exactly when opening the
    executable succeeds and, with seal query, the seal set queried on it is
    exactly F_SEAL_SEAL | F_SEAL_SHRINK | F_SEAL_GROW | F_SEAL_WRITE, and
    without seal query, the link count fstat reports is zero. When opening
    the executable fails it returns -ENOTRECOVERABLE, and not 0 (NotCloned). *)
Theorem is_self_cloned_detects (b : bool) (w : world) :
  (returns (is_self_cloned b) w 1
   ↔ ¬ open_exe_fails w
     ∧ if b then
         queried_seals w
         = Some (Z.lor (Z.lor (Z.lor F_SEAL_SEAL F_SEAL_SHRINK) F_SEAL_GROW) F_SEAL_WRITE)
       else queried_nlink w = Some 0)
  ∧ (open_exe_fails w ↔ returns (is_self_cloned b) w (- ENOTRECOVERABLE))
  ∧ (open_exe_fails w → ¬ returns (is_self_cloned b) w 0).
Proof.
  rewrite !is_self_cloned_returns.
  change (Z.lor (Z.lor (Z.lor F_SEAL_SEAL F_SEAL_SHRINK) F_SEAL_GROW) F_SEAL_WRITE)
    with RUNC_MEMFD_SEALS.
  unfold detect_result, open_exe_fails, queried_seals, queried_nlink.
  destruct (reply_at 0 w) eqn:E0; [naive_solver|].
  destruct (exe_inode w) as [[data seals nlink]|] eqn:Ei; [|naive_solver].
  cbn [i_seals i_nlink mbind option_bind fmap option_fmap option_map].
  destruct (reply_at 1 w) eqn:E1; [destruct b; naive_solver|].
  destruct b.
  - destruct seals as [s|]; [|naive_solver].
    destruct (Z.eqb_spec s RUNC_MEMFD_SEALS) as [->|Hne]; [naive_solver|].
    split_and!; [split; [done|]|split; [|done]|]; naive_solver.
  - destruct (Z.eqb_spec nlink 0) as [->|Hne]; [naive_solver|].
    split_and!; [split; [done|]|split; [|done]|]; naive_solver.
Qed.

Lemma guard_end_trace (b : bool) (w : world) (o : outcome Z) (t : list op) :
  guard_end b w o t → final_trace o = w_trace w ++ Detect :: t.
Proof. destruct 1; simpl; congruence. Qed.



(** ** The sequence of the guard and its return values *)

(** Every run of [ensure_cloned_binary] enters [Detect] first and enters
    no operation twice. When [is_self_cloned] reports Cloned the run
    returns 1 and enters nothing else. Every other value it returns is
    negative and is the status of one of the four fatal classes, returned
    right after the operation that failed (the log stops there): a failed
    detection makes the run return -ENOTRECOVERABLE, a failed [fetchve]
    -EINVAL, a failed [clone_binary] -EIO and a failed fexecve -ENOEXEC,
    each in the state the failed operation left. The run never hangs in
    the model's loops. *)
Theorem guard_sequence (b : bool) (w : world) :
  ∃ t,
    final_trace (ensure_cloned_binary b w) = w_trace w ++ Detect :: t
    ∧ NoDup (Detect :: t)
    ∧ (returns (is_self_cloned b) w 1
       ↔ t = [] ∧ returns (ensure_cloned_binary b) w 1)
    ∧ (∀ r, returns (ensure_cloned_binary b) w r →
         (r = 1 ∧ t = [])
         ∨ (r < 0 ∧ ∃ c, status_class r = Some c ∧ t = ops_before c))
    ∧ ensure_cloned_binary b w ≠ Stuck
    ∧ (open_exe_fails w → returns (ensure_cloned_binary b) w (- ENOTRECOVERABLE))
    ∧ (∀ w1 r f w2,
         is_self_cloned b w = Ret 0 w1 → fetchve None None w1 = Ret (r, f) w2 →
         (r < 0 → ensure_cloned_binary b w = Ret (- EINVAL) w2)
         ∧ ∀ e w3,
             0 ≤ r → clone_binary b w2 = Ret e w3 →
             (e < 0 → ensure_cloned_binary b w = Ret (- EIO) w3)
             ∧ ∀ x w4,
                 0 ≤ e →
                 fexecve e (f_argv f, f_cmdline f) (f_envp f, f_environ f) w3
                 = Ret x w4 →
                 ensure_cloned_binary b w = Ret (- ENOEXEC) w4).
Proof.
  destruct (ensure_cloned_binary_spec b w) as [t Hend]. exists t.
  split; [by eapply guard_end_trace|].
  rewrite is_self_cloned_returns. unfold returns.
  assert (Hnodup : NoDup (Detect :: t)).
  { destruct Hend; apply (bool_decide_unpack _); by vm_compute. }
  split; [done|].
  assert (Hret : ∀ r, (∃ w', ensure_cloned_binary b w = Ret r w') →
                 (r = 1 ∧ t = [] ∧ detect_result b w = 1)
                 ∨ (r < 0 ∧ ∃ c, status_class r = Some c ∧ t = ops_before c)).
  { intros r [w'' Hr]. rewrite Hr in Hend.
    inversion Hend; subst; try (right; split; [done|]; by eexists).
    destruct (detect_result_cases b w) as [[Hd _]|[[Hd|Hd] _]];
      rewrite Hd in *; [right; split; [done|]; by eexists|done|by left]. }
  split_and!.
  - split.
    + intros Hd. destruct Hend; try congruence. split; [done|].
      rewrite <- Hd. by eexists.
    + intros [_ Hr]. destruct (Hret 1 Hr) as [(_ & _ & ?)|[? _]]; [done|lia].
  - intros r Hr. destruct (Hret r Hr) as [(? & ? & _)|?]; auto.
  - intros Hstuck. rewrite Hstuck in Hend. inversion Hend.
  - intros Hfail.
    destruct (detect_result_cases b w) as [[Hd _]|[_ [Hok _]]]; [|done].
    destruct Hend; try (rewrite Hd in *; discriminate).
    rewrite Hd. by eexists.
  - intros w1 r f w2 Hrun1 Hrun2. unfold ensure_cloned_binary.
    rewrite (bind_Ret _ _ _ _ _ Hrun1).
    change ((0 >? 0) || (0 =? - ENOTRECOVERABLE)) with false. cbv iota.
    rewrite (bind_Ret _ _ _ _ _ Hrun2). cbv beta iota.
    split; [intros Hr; by destruct (Z.ltb_spec r 0); [|lia]|].
    intros e w3 Hr Hrun3. destruct (Z.ltb_spec r 0); [lia|].
    rewrite (bind_Ret _ _ _ _ _ Hrun3).
    split; [intros He; by destruct (Z.ltb_spec e 0); [|lia]|].
    intros x w4 He Hrun4. destruct (Z.ltb_spec e 0); [lia|].
    by rewrite (bind_Ret _ _ _ _ _ Hrun4).
Qed.

(** C5 (the code at the failing input). On the environment "X=1", which
    does not end in a NUL byte, with every call granted, the run of the
    guard returns no status at all: it ends inside [fetchve], where the
    strlen of [parse_xargs] reads past the end of the block. The malformed
    source is not returned as -EINVAL; the log stops after [Fetch]. *)
Lemma guard_unterminated_environ_returns_no_status :
  w_environ unterminated_env_world ≠ []
  ∧ (NUL ∉ w_environ unterminated_env_world)
  ∧ ∀ b,
      (∃ w', ensure_cloned_binary b unterminated_env_world = Abort w'
             ∧ w_trace w' = [Detect; Fetch])
      ∧ ¬ (∃ r w', ensure_cloned_binary b unterminated_env_world = Ret r w').
Proof.
  split; [discriminate|]. split; [by apply strlen_None|].
  intros [|]; (split;
    [eexists; split; [vm_compute; reflexivity|reflexivity]
    |intros (r & w' & Hrun); vm_compute in Hrun; discriminate Hrun]).
Qed.

(** ** The second run, in the new image *)

(** C8. After a run of the guard that ends in a successful re-exec, the
    executable of the new image is the clone, sealed (when the memfd is
    used) with exactly RUNC_MEMFD_SEALS, the set [is_self_cloned] compares
    the queried seals with. A second run in the new image, when its open and
    its query are granted, returns 1 after [Detect] alone: it enters neither
    [Fetch] nor [Clone] nor [Reexec], creates no inode and leaves no
    descriptor. *)
Theorem guard_idempotent_after_exec (b : bool) (w w' : world) :
  ensure_cloned_binary b w = Exec w' →
  reply_at 0 w' ≠ Deny → reply_at 1 w' ≠ Deny →
  (b = true → i_seals <$> exe_inode w' = Some (Some RUNC_MEMFD_SEALS))
  ∧ returns (is_self_cloned b) w' 1
  ∧ ∃ w'', ensure_cloned_binary b w' = Ret 1 w''
           ∧ w_trace w'' = w_trace w' ++ [Detect]
           ∧ w_inodes w'' = w_inodes w' ∧ w_fds w'' = w_fds w'.
Proof.
  intros Hexec Hopen Hquery.
  destruct (ensure_cloned_binary_spec b w) as [t Hend]. rewrite Hexec in Hend.
  inversion Hend as [| | | | |w1 src n _ _ _ _ Hinodes]; subst.
  assert (Hexe : exe_inode w' = Some (cloned_image b src n)).
  { unfold exe_inode. by rewrite Hinodes, lookup_insert_eq. }
  assert (Hd : detect_result b w' = 1).
  { unfold detect_result. rewrite Hexe.
    destruct (reply_at 0 w'); [done|]. destruct (reply_at 1 w'); [done|].
    by destruct b. }
  split_and!.
  - intros ->. by rewrite Hexe.
  - by apply is_self_cloned_returns.
  - destruct (ensure_cloned_binary_spec b w') as [t' Hend'].
    inversion Hend' as [w'' Hne Htr Hfds [Hino _] Heq| | | | |]; subst; try congruence.
    exists w''. rewrite Hd. done.
Qed.

Lemma guard_idempotent_after_exec_witness :
  let w' := after_exec (ensure_cloned_binary true) (plain_world []) in
  (true = true → i_seals <$> exe_inode w' = Some (Some RUNC_MEMFD_SEALS))
  ∧ returns (is_self_cloned true) w' 1
  ∧ ∃ w'', ensure_cloned_binary true w' = Ret 1 w''
           ∧ w_trace w'' = w_trace w' ++ [Detect]
           ∧ w_inodes w'' = w_inodes w' ∧ w_fds w'' = w_fds w'.
Proof.
  intros w'. apply (guard_idempotent_after_exec true (plain_world []) w').
  - vm_compute. reflexivity.
  - vm_compute. discriminate.
  - vm_compute. discriminate.
Defined.

(** ** The image behind the descriptor [clone_binary] returns *)

Lemma clone_sent_bound (w : world) (src : inode) :
  Z.of_nat (clone_sent w src) ≤ RUNC_SENDFILE_MAX
  ∧ (clone_sent w src ≤ length (i_data src))%nat.
Proof.
  unfold clone_sent, transfer_size, RUNC_SENDFILE_MAX.
  destruct (reply_at 2 w) as [|[|cap]]; lia.
Qed.

Lemma clone_sent_full (w : world) (src : inode) :
  reply_at 2 w = Grant 0 →
  Z.of_nat (length (i_data src)) ≤ RUNC_SENDFILE_MAX →
  clone_sent w src = length (i_data src).
Proof. unfold clone_sent, transfer_size. intros -> ?. lia. Qed.

Lemma clone_binary_image (b : bool) (w : world) (src : inode) :
  exe_inode w = Some src →
  (∀ r w', clone_binary b w = Ret r w' → 0 ≤ r →
     ∃ d ino,
       w_fds w' !! r = Some d ∧ fd_file d = OnInode ino
       ∧ w_inodes w' !! ino = Some (cloned_image b src (clone_sent w src)))
  ∧ ((∀ k, (k < 5)%nat → reply_at k w ≠ Deny) →
     ∃ r w', clone_binary b w = Ret r w' ∧ 0 ≤ r).
Proof.
  intros Hsrc.
  destruct (clone_binary_spec b w src Hsrc)
    as (r0 & w0 & Hrun & _ & _ & _ & _ & _ & Hres).
  split.
  - intros r w' Hr Hpos. rewrite Hrun in Hr. injection Hr as <- <-.
    destruct Hres as [([->| ->] & _)|(_ & _ & ino & pos & _ & Hfds & Hino)];
      [done|done|].
    eexists _, ino. rewrite Hfds, Hino, !lookup_insert_eq. done.
  - intros Hgrant. exists r0, w0. split; [done|].
    destruct Hres as [(_ & _ & k & Hk & Hdeny)|(Hpos & _)]; [|done].
    by apply Hgrant in Hdeny.
Qed.

Lemma cloned_image_truncated (b : bool) (w : world) (src : inode) :
  RUNC_SENDFILE_MAX < Z.of_nat (length (i_data src)) →
  i_data (cloned_image b src (clone_sent w src)) ≠ i_data src.
Proof.
  unfold cloned_image; cbn [i_data]. intros Hbig Heq.
  apply (f_equal length) in Heq. rewrite length_take in Heq.
  pose proof (clone_sent_bound w src). lia.
Qed.

Lemma big_exe_length : Z.of_nat (length (i_data big_exe)) = 0x80000000.
Proof.
  unfold big_exe. cbn [i_data]. rewrite length_replicate.
  apply Z2Nat.id. intros H; discriminate H.
Qed.

(** [clone_binary] makes one transfer call, for at most
    RUNC_SENDFILE_MAX bytes, and does not loop. Whenever it succeeds, the
    image behind the descriptor it returns holds the bytes that call moved:
    a prefix of the executable, at most RUNC_SENDFILE_MAX bytes long. The
    image equals the executable when the executable is at most
    RUNC_SENDFILE_MAX bytes long and the call moved all it was asked for;
    it differs when the executable is longer. It succeeds when none of its
    calls is refused. *)
Theorem clone_binary_copies_one_transfer (b : bool) (w : world) (src : inode) :
  exe_inode w = Some src →
  (∀ r w', clone_binary b w = Ret r w' → 0 ≤ r →
     ∃ d ino img,
       w_fds w' !! r = Some d ∧ fd_file d = OnInode ino
       ∧ w_inodes w' !! ino = Some img
       ∧ i_data img = take (clone_sent w src) (i_data src)
       ∧ Z.of_nat (length (i_data img)) ≤ RUNC_SENDFILE_MAX
       ∧ (reply_at 2 w = Grant 0 →
          Z.of_nat (length (i_data src)) ≤ RUNC_SENDFILE_MAX →
          i_data img = i_data src)
       ∧ (RUNC_SENDFILE_MAX < Z.of_nat (length (i_data src)) →
          i_data img ≠ i_data src))
  ∧ ((∀ k, (k < 5)%nat → reply_at k w ≠ Deny) →
     ∃ r w', clone_binary b w = Ret r w' ∧ 0 ≤ r).
Proof.
  intros Hsrc. destruct (clone_binary_image b w src Hsrc) as [Himg Hok].
  split; [|done]. intros r w' Hrun Hpos.
  destruct (Himg r w' Hrun Hpos) as (d & ino & Hd & Hfile & Hino).
  eexists d, ino, _. split_and!; [done..| | | |]; unfold cloned_image; cbn [i_data].
  - done.
  - rewrite length_take. pose proof (clone_sent_bound w src). lia.
  - intros Hfull Hsmall. rewrite clone_sent_full by done. apply take_ge. lia.
  - apply (cloned_image_truncated b w src).
Qed.

Lemma clone_binary_copies_one_transfer_witness :
  ∃ r w', clone_binary true (plain_world []) = Ret r w' ∧ 0 ≤ r
          ∧ ∃ d ino img,
              w_fds w' !! r = Some d ∧ fd_file d = OnInode ino
              ∧ w_inodes w' !! ino = Some img
              ∧ i_data img = i_data elf.
Proof.
  assert (Hsrc : exe_inode (plain_world []) = Some elf) by reflexivity.
  destruct (clone_binary_copies_one_transfer true (plain_world []) elf Hsrc)
    as [Himg Hok].
  destruct Hok as (r & w' & Hrun & Hpos).
  { intros k _. unfold reply_at. cbn. by destruct k. }
  exists r, w'. split_and!; [done..|].
  destruct (Himg r w' Hrun Hpos) as (d & ino & img & ? & ? & ? & _ & _ & Hfull & _).
  exists d, ino, img. split_and!; [done..|].
  apply Hfull; [reflexivity|]. vm_compute. discriminate.
Defined.

(** ** Descriptors after a failed run *)

(** What a returning run of the guard leaves in the descriptor table: the
    table it found, except after a failed fexecve, where the descriptor of
    the image is still open. *)
Lemma guard_descriptor_table (b : bool) (w w' : world) (r : Z) :
  ensure_cloned_binary b w = Ret r w' →
  (r ≠ - ENOEXEC → w_fds w' = w_fds w)
  ∧ (r = - ENOEXEC →
     ∃ execfd d, w_fds w !! execfd = None ∧ w_fds w' = <[execfd := d]> (w_fds w)).
Proof.
  intros Hrun. destruct (ensure_cloned_binary_spec b w) as [t Hend].
  rewrite Hrun in Hend.
  inversion Hend as [w1 Hne _ Hfds _| | | |w1 execfd d _ _ Hfree Hfds|]; subst;
    try (split; [done|]; intros Heq; try discriminate Heq).
  - destruct (detect_result_cases b w) as [[Hd _]|[[Hd|Hd] _]];
      rewrite Hd in Heq; discriminate Heq.
  - by exists execfd, d.
Qed.

(** C1 (the code at the failing input). When fexecve fails,
    [ensure_cloned_binary] returns -ENOEXEC with the descriptor of the
    sealed image still open: the process had no descriptor open before the
    call and has descriptor 0, on the sealed image, after it. *)
Lemma ensure_cloned_binary_leaks_on_fexecve_failure :
  ∃ w' img,
    ensure_cloned_binary true exec_refused_world = Ret (- ENOEXEC) w'
    ∧ w_fds exec_refused_world = ∅
    ∧ w_fds w' = {[ 0 := Fdesc (OnInode 0) 4 true ]}
    ∧ w_inodes w' !! 0 = Some img
    ∧ i_seals img = Some RUNC_MEMFD_SEALS.
Proof.
  eexists _, _. split_and!.
  - vm_compute. reflexivity.
  - reflexivity.
  - vm_compute. reflexivity.
  - vm_compute. reflexivity.
  - reflexivity.
Qed.

(** ** What fetchve returns when a source cannot be read *)

Lemma fetchve_EINVAL (w : world) :
  (∃ k, (k < calls_made (fetchve None None) w)%nat ∧ reply_at k w = Deny)
  ∨ w_cmdline w = [] ∨ w_environ w = [] →
  ∃ f w', fetchve None None w = Ret (- EINVAL, f) w'.
Proof.
  intros Hcause. unfold calls_made in Hcause.
  destruct (fetchve_spec w) as [j Hspec].
  assert (Hgranted : reads_granted j w →
            ∀ w', w_script w' = drop j (w_script w) →
            (∃ k, (k < length (w_script w) - length (w_script w'))%nat
                  ∧ reply_at k w = Deny)
            ∨ w_cmdline w = [] ∨ w_environ w = [] → False).
  { intros (Hall & Hc & Hv) w' Hscript [(k & Hk & Hdeny)|[?|?]]; [|done..].
    apply (Hall k); [|done]. rewrite Hscript, length_drop in Hk. lia. }
  destruct (fetchve None None w) as [[r f] w'|w'|w'|]; [| done | | done].
  - destruct Hspec as (_ & _ & _ & Hscript & [->|(_ & Hg & _)]); [by eauto|].
    destruct (Hgranted Hg w' Hscript Hcause).
  - destruct Hspec as (_ & _ & _ & Hscript & Hg).
    destruct (Hgranted Hg w' Hscript Hcause).
Qed.

(** C6 (as stated, refuted). When opening "/proc/self/cmdline" is refused,
    [fetchve] returns -EINVAL: the status of the Invalid-Input class, not of
    the I/O-Failure class, and the value it returns for an empty command
    line. *)
Lemma fetchve_unreadable_is_not_IOError :
  reply_at 0 (plain_world [Deny]) = Deny
  ∧ ∃ r f w' f0 w0,
      fetchve None None (plain_world [Deny]) = Ret (r, f) w'
      ∧ status_class r = Some InvalidInput
      ∧ status_class r ≠ Some IOFailure
      ∧ fetchve None None (World {[ 7 := elf ]} 7 [] [x58; x3d; x31; x00] ∅ [] [])
        = Ret (r, f0) w0.
Proof.
  split; [reflexivity|]. eexists _, _, _, _, _. split_and!.
  - vm_compute. reflexivity.
  - reflexivity.
  - discriminate.
  - vm_compute. reflexivity.
Qed.

(** C6 (amended). Whenever one of the calls [fetchve] makes (an open or a
    read of the command-line or environment pseudo-file) is refused,
    [fetchve] returns -EINVAL, the value it also returns when one of the
    two sources is empty; there is no separate status for a source that
    cannot be read. *)
Theorem fetchve_unreadable_is_EINVAL (w : world) :
  (∃ k, (k < calls_made (fetchve None None) w)%nat ∧ reply_at k w = Deny)
  ∨ w_cmdline w = [] ∨ w_environ w = [] →
  ∃ f w', fetchve None None w = Ret (- EINVAL, f) w'
          ∧ status_class (- EINVAL) = Some InvalidInput.
Proof.
  intros Hcause. destruct (fetchve_EINVAL w Hcause) as (f & w' & Hrun).
  by exists f, w'.
Qed.

Lemma fetchve_unreadable_is_EINVAL_witness :
  ∃ f w', fetchve None None (plain_world [Grant 0; Grant 0; Grant 0; Grant 0; Deny])
          = Ret (- EINVAL, f) w'
          ∧ status_class (- EINVAL) = Some InvalidInput.
Proof.
  apply fetchve_unreadable_is_EINVAL. left. exists 4%nat.
  split; [vm_compute; lia|reflexivity].
Defined.

(** ** fetchve on a command line without a NUL byte *)

(** [parse_xargs] on a non-empty block without a NUL byte: the strlen of
    the first entry leaves the block. *)
Lemma parse_xargs_unterminated (blob : list byte) :
  blob ≠ [] → NUL ∉ blob →
  parse_xargs (Some blob) (Z.of_nat (length blob)) None = Fault.
Proof.
  intros Hne Hnul. unfold parse_xargs.
  pose proof (parse_xargs_loop_step (length blob) blob (Z.of_nat (length blob)) [] 0)
    as Hstep.
  cbn [length out_of] in Hstep. change (Z.of_nat 0) with 0 in Hstep.
  rewrite Hstep by (unfold INT_MAX; destruct blob; [done|simpl; lia]).
  rewrite drop_0. apply strlen_None in Hnul. by rewrite Hnul.
Qed.

(** When [fetchve] succeeds, the argument vector it leaves is not empty. *)
Lemma fetchve_success_nonempty (w w' : world) (f : fetched) :
  fetchve None None w = Ret (0, f) w' →
  ∃ args, strings_of (f_argv f, f_cmdline f) = Some args ∧ args ≠ [].
Proof.
  intros Hrun. destruct (fetchve_spec w) as [j Hspec]. rewrite Hrun in Hspec.
  destruct Hspec as (_ & _ & _ & _ & [Heq|(_ & _ & args & env & ? & ? & _)]);
    [discriminate Heq|by exists args].
Qed.

(** C7 (the code at the failing input). On the command line "abc", which
    holds no NUL-terminated entry, [fetchve] does not return -EINVAL: with
    every call granted, [parse_xargs] counts the unterminated bytes as an
    entry and its strlen reads past the end of the block. *)
Lemma fetchve_unterminated_cmdline_faults :
  w_cmdline unterminated_world ≠ []
  ∧ (NUL ∉ w_cmdline unterminated_world)
  ∧ (∃ w', fetchve None None unterminated_world = Abort w')
  ∧ ¬ (∃ f w', fetchve None None unterminated_world = Ret (- EINVAL, f) w').
Proof.
  split_and!.
  - discriminate.
  - by apply strlen_None.
  - eexists. vm_compute. reflexivity.
  - intros (f & w' & Hrun). vm_compute in Hrun. discriminate Hrun.
Qed.

(** On every non-empty command line without a NUL byte, with no call
    refused, [fetchve] faults in [parse_xargs] instead of returning. *)
Lemma fetchve_unterminated_faults (w : world) :
  no_refusal w → w_cmdline w ≠ [] → NUL ∉ w_cmdline w → w_environ w ≠ [] →
  Z.of_nat (length (w_cmdline w)) < 2 ^ 31 →
  Z.of_nat (length (w_environ w)) < 2 ^ 31 →
  ∃ w', fetchve None None w = Abort w'.
Proof.
  intros Hw Hc Hnul Hv Hclen Hvlen.
  destruct (fetchve_granted w Hw Hc Hv Hclen Hvlen) as (w' & _ & _ & _ & _ & Hrun).
  rewrite parse_xargs_unterminated in Hrun by done. by exists w'.
Qed.

(** ** The guard when nothing fails *)

(** On sources made of NUL-terminated entries and shorter than INT_MAX
    bytes, with no call refused, [fetchve] succeeds and its vectors hold exactly the entries. *)
Lemma fetchve_terminated (w : world) (args env : list (list byte)) :
  no_refusal w →
  w_cmdline w = nul_join args → w_environ w = nul_join env →
  args ≠ [] → env ≠ [] →
  Forall (λ s, NUL ∉ s) args → Forall (λ s, NUL ∉ s) env →
  Z.of_nat (length (w_cmdline w)) < INT_MAX →
  Z.of_nat (length (w_environ w)) < INT_MAX →
  ∃ f w', fetchve None None w = Ret (0, f) w'
          ∧ strings_of (f_argv f, f_cmdline f) = Some args
          ∧ strings_of (f_envp f, f_environ f) = Some env
          ∧ same_files w w' ∧ w_fds w' = w_fds w
          ∧ w_trace w' = w_trace w ++ [Fetch] ∧ no_refusal w'.
Proof.
  intros Hw Hc Hv Hargs Henv Hanul Hvnul Hclen Hvlen.
  assert (Hcne : w_cmdline w ≠ []).
  { rewrite Hc. destruct args as [|a args]; [done|].
    rewrite nul_join_cons. by destruct a. }
  assert (Hvne : w_environ w ≠ []).
  { rewrite Hv. destruct env as [|e env]; [done|].
    rewrite nul_join_cons. by destruct e. }
  destruct (fetchve_granted w Hw Hcne Hvne) as (w' & Hsame & Hfds & Htrace & Hw' & Hrun);
    [unfold INT_MAX in *; lia..|].
  rewrite Hc, Hv in Hrun. rewrite Hc in Hclen. rewrite Hv in Hvlen.
  pose proof (nul_join_length args). pose proof (nul_join_length env).
  rewrite !parse_xargs_join in Hrun by (done || lia).
  destruct (Z.leb_spec (Z.of_nat (length args)) 0) as [Hle|_];
    [destruct args; [done|simpl in Hle; lia]|].
  destruct (Z.leb_spec (Z.of_nat (length env)) 0) as [Hle|_];
    [destruct env; [done|simpl in Hle; lia]|].
  eexists _, w'. split; [exact Hrun|]. cbn [f_argv f_envp f_cmdline f_environ strings_of].
  split_and!; try done.
  - apply (vector_strings_join args []); done.
  - apply (vector_strings_join env []); done.
Qed.

Lemma full_grants_no_refusal (w : world) : full_grants w → no_refusal w.
Proof. intros Hw k. by rewrite Hw. Qed.

(** A process that is not yet cloned and whose sources are made of
    NUL-terminated entries, in an environment that grants every call in
    full, is replaced by the guard: the new image runs from a fresh inode
    that holds the bytes one transfer moves, and sees the same command line
    and environment. *)
Lemma guard_runs_clone (b : bool) (w : world) (src : inode)
    (args env : list (list byte)) :
  full_grants w → exe_inode w = Some src → detect_result b w = 0 →
  w_cmdline w = nul_join args → w_environ w = nul_join env →
  args ≠ [] → env ≠ [] →
  Forall (λ s, NUL ∉ s) args → Forall (λ s, NUL ∉ s) env →
  Z.of_nat (length (w_cmdline w)) < INT_MAX →
  Z.of_nat (length (w_environ w)) < INT_MAX →
  ∃ w', ensure_cloned_binary b w = Exec w'
        ∧ w_cmdline w' = w_cmdline w ∧ w_environ w' = w_environ w
        ∧ w_inodes w !! w_exe w' = None
        ∧ exe_inode w'
          = Some (cloned_image b src
                    (transfer_size 0 RUNC_SENDFILE_MAX (length (i_data src)))).
Proof.
  intros Hfull Hsrc Hd Hc Hv Hargs Henv Hanul Hvnul Hclen Hvlen.
  unfold ensure_cloned_binary.
  destruct (is_self_cloned_spec b w)
    as (w1 & Hrun1 & (Hi1 & He1 & Hc1 & Hv1) & Hfds1 & Htrace1 & Hscript1).
  rewrite (bind_Ret _ _ _ _ _ Hrun1), Hd.
  change ((_ >? 0) || (_ =? _)) with false. cbv iota.
  assert (Hfull1 : full_grants w1).
  { intros k. unfold reply_at. rewrite Hscript1, nth_drop_add. apply Hfull. }
  destruct (fetchve_terminated w1 args env) as
    (f & w2 & Hrun2 & Hfargs & Hfenv & (Hi2 & He2 & Hc2 & Hv2) & Hfds2 & Htrace2 & Hw2);
    try congruence; try (by apply full_grants_no_refusal).
  rewrite (bind_Ret _ _ _ _ _ Hrun2). change (0 <? 0) with false. cbv iota.
  assert (Hsrc2 : exe_inode w2 = Some src).
  { unfold exe_inode in *. by rewrite Hi2, He2, Hi1, He1. }
  destruct (clone_binary_spec b w2 src Hsrc2)
    as (execfd & w3 & Hrun3 & _ & _ & _ & _ & [j Hscript3] & Hres).
  rewrite (bind_Ret _ _ _ _ _ Hrun3).
  destruct Hres as [(_ & _ & k & _ & Hdeny)|(Hpos & _ & ino & pos & Hino & Hfds3 & Hino3)];
    [by apply Hw2 in Hdeny|].
  destruct (Z.ltb_spec execfd 0) as [?|_]; [lia|].
  destruct (fexecve_spec execfd (f_argv f, f_cmdline f) (f_envp f, f_environ f) w3
              ino pos true (cloned_image b src (clone_sent w2 src)) args env)
    as [(Hdeny & _)|(_ & Hrun4)]; try done.
  { by rewrite Hfds3, lookup_insert_eq. }
  { by rewrite Hino3, lookup_insert_eq. }
  { by apply (no_refusal_drop w2 w3 j Hscript3 Hw2) in Hdeny. }
  unfold mbind, M_bind. rewrite Hrun4. eexists. split; [done|].
  assert (Hsent : clone_sent w2 src
                  = transfer_size 0 RUNC_SENDFILE_MAX (length (i_data src))).
  { unfold clone_sent.
    assert (reply_at 2 w2 = Grant 0) as ->; [|done]. unfold reply_at.
    destruct (fetchve_spec w1) as [j2 Hspec]. rewrite Hrun2 in Hspec.
    destruct Hspec as (_ & _ & _ & Hscript2 & _).
    rewrite Hscript2, nth_drop_add. apply Hfull1. }
  unfold exec_world, exe_inode. cbn [w_inodes w_exe w_cmdline w_environ].
  rewrite Hino3, lookup_insert_eq, Hsent, Hc, Hv.
  split_and!; try done.
  by rewrite <- Hi1, <- Hi2.
Qed.

(** When, in addition, the executable fits one transfer, the new image
    holds the bytes of the executable. *)
Lemma guard_replaces_image (b : bool) (w : world) (src : inode)
    (args env : list (list byte)) :
  full_grants w → exe_inode w = Some src → detect_result b w = 0 →
  w_cmdline w = nul_join args → w_environ w = nul_join env →
  args ≠ [] → env ≠ [] →
  Forall (λ s, NUL ∉ s) args → Forall (λ s, NUL ∉ s) env →
  Z.of_nat (length (w_cmdline w)) < INT_MAX →
  Z.of_nat (length (w_environ w)) < INT_MAX →
  Z.of_nat (length (i_data src)) ≤ RUNC_SENDFILE_MAX →
  ∃ w', ensure_cloned_binary b w = Exec w'
        ∧ w_cmdline w' = w_cmdline w ∧ w_environ w' = w_environ w
        ∧ w_inodes w !! w_exe w' = None
        ∧ exe_inode w' = Some (cloned_image b src (length (i_data src)))
        ∧ i_data <$> exe_inode w' = Some (i_data src).
Proof.
  intros Hfull Hsrc Hd Hc Hv Hargs Henv Hanul Hvnul Hclen Hvlen Hsize.
  destruct (guard_runs_clone b w src args env)
    as (w' & Hrun & Hc' & Hv' & Hfresh & Hexe); try done.
  assert (Hsent : transfer_size 0 RUNC_SENDFILE_MAX (length (i_data src))
                  = length (i_data src)) by (unfold transfer_size; lia).
  rewrite Hsent in Hexe. exists w'. split_and!; try done.
  rewrite Hexe. unfold cloned_image. cbn [fmap option_fmap option_map i_data].
  by rewrite take_ge.
Qed.

(** ** The clone of an executable larger than one transfer *)

Lemma one_transfer_truncates (b : bool) (src : inode) :
  RUNC_SENDFILE_MAX < Z.of_nat (length (i_data src)) →
  Z.of_nat (length (i_data (cloned_image b src
              (transfer_size 0 RUNC_SENDFILE_MAX (length (i_data src))))))
  = RUNC_SENDFILE_MAX
  ∧ i_data (cloned_image b src
              (transfer_size 0 RUNC_SENDFILE_MAX (length (i_data src))))
    ≠ i_data src.
Proof.
  unfold cloned_image, transfer_size, RUNC_SENDFILE_MAX. cbn [i_data].
  intros Hbig. split.
  - rewrite length_take. lia.
  - intros Heq. apply (f_equal length) in Heq. rewrite length_take in Heq. lia.
Qed.

(** C2 (the code at the failing input). With every call granted in full,
    [clone_binary] on an executable of 2 GiB makes its one transfer and
    succeeds: the image behind the descriptor it returns is sealed with
    RUNC_MEMFD_SEALS and its bytes are not the bytes of the executable. The
    guard then replaces the process by this image, which holds
    RUNC_SENDFILE_MAX bytes only. *)
Lemma clone_binary_truncates_large_executable :
  (∃ r w' d ino img,
     clone_binary true big_world = Ret r w' ∧ 0 ≤ r
     ∧ w_fds w' !! r = Some d ∧ fd_file d = OnInode ino
     ∧ w_inodes w' !! ino = Some img
     ∧ i_seals img = Some RUNC_MEMFD_SEALS
     ∧ i_data img ≠ i_data big_exe)
  ∧ ∃ w'' img,
      ensure_cloned_binary true big_world = Exec w''
      ∧ exe_inode w'' = Some img
      ∧ i_seals img = Some RUNC_MEMFD_SEALS
      ∧ Z.of_nat (length (i_data img)) = RUNC_SENDFILE_MAX
      ∧ Z.of_nat (length (i_data big_exe)) = 0x80000000
      ∧ i_data img ≠ i_data big_exe.
Proof.
  assert (Hsrc : exe_inode big_world = Some big_exe).
  { unfold exe_inode, big_world. cbn [w_inodes w_exe]. apply lookup_singleton_eq. }
  assert (Hfull : full_grants big_world).
  { intros k. unfold reply_at, big_world. cbn [w_script]. by destruct k. }
  assert (Hbig : RUNC_SENDFILE_MAX < Z.of_nat (length (i_data big_exe)))
    by (rewrite big_exe_length; reflexivity).
  split.
  - destruct (clone_binary_image true big_world big_exe Hsrc) as [Himg Hok].
    destruct Hok as (r & w' & Hrun & Hpos).
    { intros k _. rewrite Hfull. discriminate. }
    destruct (Himg r w' Hrun Hpos) as (d & ino & Hd & Hfile & Hino).
    exists r, w', d, ino, (cloned_image true big_exe (clone_sent big_world big_exe)).
    split; [exact Hrun|]. split; [exact Hpos|]. split; [exact Hd|].
    split; [exact Hfile|]. split; [exact Hino|].
    split; [unfold cloned_image; cbn [i_seals]; reflexivity|].
    by apply cloned_image_truncated.
  - destruct (guard_runs_clone true big_world big_exe [[x61]] [[x58; x3d; x31]])
      as (w'' & Hrun & _ & _ & _ & Hexe).
    + exact Hfull.
    + exact Hsrc.
    + unfold detect_result. rewrite Hsrc. reflexivity.
    + reflexivity.
    + reflexivity.
    + discriminate.
    + discriminate.
    + repeat constructor. by apply strlen_None.
    + repeat constructor. by apply strlen_None.
    + unfold big_world. cbn [w_cmdline length]. unfold INT_MAX. lia.
    + unfold big_world. cbn [w_environ length]. unfold INT_MAX. lia.
    + destruct (one_transfer_truncates true big_exe Hbig) as [Hlen Hne].
      eexists w'', _. split; [exact Hrun|]. split; [exact Hexe|].
      split; [unfold cloned_image; cbn [i_seals]; reflexivity|].
      split; [exact Hlen|]. split; [apply big_exe_length|].
      exact Hne.
Qed.

(** * Further properties of the functions of cloned_binary.c *)

(** Properties of the functions that go beyond the statements above:
    the layout of the vectors, what each function leaves behind, and how
    a run of the guard ends. *)
(** ** Blocks and their entries *)

(** Every block is a sequence of NUL-terminated entries followed by bytes
    without a NUL. *)
Lemma nul_split (d : list byte) :
  ∃ ss t, d = nul_join ss ++ t ∧ Forall (λ s, NUL ∉ s) ss ∧ NUL ∉ t.
Proof.
  induction d as [|b d (ss & t & -> & Hss & Ht)].
  - exists [], []. split_and!; [done|constructor|apply not_elem_of_nil].
  - destruct (decide (b = NUL)) as [->|Hb].
    + exists ([] :: ss), t. rewrite nul_join_cons. split_and!; [done| |done].
      constructor; [apply not_elem_of_nil|done].
    + destruct ss as [|s ss].
      * exists [], (b :: t). split_and!; [done|constructor|].
        rewrite not_elem_of_cons. split; [congruence|done].
      * apply Forall_cons in Hss as [Hs Hss].
        exists ((b :: s) :: ss), t. rewrite !nul_join_cons.
        split_and!; [done| |done].
        constructor; [|done]. rewrite not_elem_of_cons. split; [congruence|done].
Qed.

Lemma nul_join_last (ss : list (list byte)) :
  ss ≠ [] → last (nul_join ss) = Some NUL.
Proof.
  induction ss as [|s ss IH]; [done|]. intros _. rewrite nul_join_cons.
  destruct ss as [|s' ss].
  - unfold nul_join; simpl. by rewrite last_app.
  - rewrite last_app. cbn [last]. rewrite last_cons, IH by done. done.
Qed.

(** A block that ends in a NUL byte is made of NUL-terminated entries. *)
Lemma nul_split_terminated (d : list byte) :
  last d = Some NUL →
  ∃ ss, d = nul_join ss ∧ ss ≠ [] ∧ Forall (λ s, NUL ∉ s) ss.
Proof.
  intros Hlast. destruct (nul_split d) as (ss & t & -> & Hss & Ht).
  destruct t as [|b t _] using rev_ind.
  - rewrite app_nil_r in *. exists ss. split_and!; [done| |done].
    intros ->. discriminate Hlast.
  - rewrite app_assoc, last_snoc in Hlast. injection Hlast as ->.
    exfalso. apply Ht. apply elem_of_app. right. left.
Qed.

Lemma nul_join_count (ss : list (list byte)) :
  Forall (λ s, NUL ∉ s) ss →
  length (filter (λ b, b = NUL) (nul_join ss)) = length ss.
Proof.
  induction 1 as [|s ss Hs _ IH]; [done|].
  rewrite nul_join_cons, filter_app, length_app, filter_cons_True by done.
  cbn [length]. rewrite IH.
  assert (filter (λ b, b = NUL) s = []) as ->; [|done].
  clear -Hs. induction s as [|b s IH]; [done|].
  apply not_elem_of_cons in Hs as [Hb Hs].
  rewrite filter_cons_False by congruence. by apply IH.
Qed.

(** ** parse_xargs on a block that does not end in a NUL byte *)

Lemma parse_xargs_loop_tail (ss : list (list byte)) :
  ∀ (pre t : list byte) (offs : list nat) (fuel : nat),
    Forall (λ s, NUL ∉ s) ss → NUL ∉ t → t ≠ [] → (length ss < fuel)%nat →
    parse_xargs_loop fuel (pre ++ nul_join ss ++ t)
                     (Z.of_nat (length (pre ++ nul_join ss ++ t)))
                     (Z.of_nat (length offs)) (length pre) (out_of offs)
    = Fault.
Proof.
  induction ss as [|s ss IH]; intros pre t offs fuel Hss Ht Hne Hfuel;
    (destruct fuel as [|fuel]; [simpl in Hfuel; lia|]).
  - destruct (parse_xargs_loop_turn fuel (pre ++ nul_join [] ++ t)
                (Z.of_nat (length (pre ++ nul_join [] ++ t))) offs (length pre))
      as [->|(_ & k & Ek & _)]; [|done|].
    + rewrite !length_app. destruct t; [done|simpl; lia].
    + cbn [nul_join fmap list_fmap concat app] in Ek.
      rewrite drop_app_length in Ek. apply strlen_None in Ht. congruence.
  - apply Forall_cons in Hss as [Hs Hss].
    destruct (parse_xargs_loop_turn fuel (pre ++ nul_join (s :: ss) ++ t)
                (Z.of_nat (length (pre ++ nul_join (s :: ss) ++ t))) offs (length pre))
      as [->|(_ & k & Ek & ->)]; [|done|].
    + rewrite nul_join_cons, !length_app. simpl. lia.
    + rewrite drop_app_length, nul_join_cons, <- app_assoc in Ek.
      cbn [app] in Ek. rewrite strlen_app_nul in Ek by done. injection Ek as <-.
      rewrite nul_join_cons, <- app_assoc. cbn [app].
      replace (pre ++ s ++ NUL :: nul_join ss ++ t)
        with ((pre ++ s ++ [NUL]) ++ nul_join ss ++ t)
        by (by rewrite <- !app_assoc).
      replace (length pre + (length s + 1))%nat with (length (pre ++ s ++ [NUL]))
        by (rewrite !length_app; simpl; lia).
      apply IH; try done. simpl in Hfuel; lia.
Qed.

(** ** parse_xargs on a block of INT_MAX entries or more *)

Lemma parse_xargs_loop_many (ss : list (list byte)) :
  ∀ (pre : list byte) (offs : list nat) (fuel : nat),
    Forall (λ s, NUL ∉ s) ss → (length ss ≤ fuel)%nat →
    INT_MAX ≤ Z.of_nat (length offs + length ss) →
    Z.of_nat (length offs) < INT_MAX →
    parse_xargs_loop fuel (pre ++ nul_join ss)
                     (Z.of_nat (length (pre ++ nul_join ss)))
                     (Z.of_nat (length offs)) (length pre) (out_of offs)
    = Fault.
Proof.
  induction ss as [|s ss IH]; intros pre offs fuel Hss Hfuel Hmany Hnum;
    [simpl in Hmany; lia|].
  destruct fuel as [|fuel]; [simpl in Hfuel; lia|].
  apply Forall_cons in Hss as [Hs Hss]. cbn [length] in Hmany, Hfuel.
  destruct (parse_xargs_loop_turn fuel (pre ++ nul_join (s :: ss))
              (Z.of_nat (length (pre ++ nul_join (s :: ss)))) offs (length pre))
    as [->|(Hone & k & Ek & ->)]; [|done|].
  - rewrite nul_join_cons, !length_app. simpl. lia.
  - rewrite drop_app_length, nul_join_cons, strlen_app_nul in Ek by done.
    injection Ek as <-. rewrite nul_join_cons.
    replace (pre ++ s ++ NUL :: nul_join ss)
      with ((pre ++ s ++ [NUL]) ++ nul_join ss)
      by (by rewrite <- !app_assoc).
    replace (length pre + (length s + 1))%nat with (length (pre ++ s ++ [NUL]))
      by (rewrite !length_app; simpl; lia).
    apply IH; try done; rewrite ?length_app; simpl; lia.
Qed.

Lemma parse_xargs_many (ss : list (list byte)) :
  Forall (λ s, NUL ∉ s) ss → INT_MAX ≤ Z.of_nat (length ss) →
  parse_xargs (Some (nul_join ss)) (Z.of_nat (length (nul_join ss))) None = Fault.
Proof.
  intros Hss Hmany. unfold parse_xargs.
  pose proof (parse_xargs_loop_many ss [] [] (S (length (nul_join ss))) Hss) as Hloop.
  rewrite !app_nil_l in Hloop. cbn [length out_of] in Hloop.
  change (Z.of_nat 0) with 0 in Hloop.
  rewrite Hloop; [done| |lia|by vm_compute].
  pose proof (nul_join_length ss). lia.
Qed.

(** A block parsed in full: [parse_xargs] yields its entries exactly when
    its last byte is NUL and it holds less than INT_MAX NUL bytes. *)
Lemma parse_xargs_block (d : list byte) :
  match parse_xargs (Some d) (Z.of_nat (length d)) None with
  | Done (n, out) =>
      ∃ ss, d = nul_join ss ∧ ss ≠ [] ∧ Forall (λ s, NUL ∉ s) ss
            ∧ n = Z.of_nat (length ss)
            ∧ out = Some ((Ptr <$> entry_offsets 0 ss) ++ [Null])
            ∧ Z.of_nat (length ss) < INT_MAX
  | Fault =>
      last d ≠ Some NUL
      ∨ INT_MAX ≤ Z.of_nat (length (filter (λ b, b = NUL) d))
  | NoFuel => False
  end.
Proof.
  destruct (nul_split d) as (ss & t & -> & Hss & Ht).
  destruct t as [|b t].
  - rewrite app_nil_r. destruct ss as [|s ss].
    + vm_compute. left. discriminate.
    + destruct (Z.lt_ge_cases (Z.of_nat (length (s :: ss))) INT_MAX) as [Hnum|Hnum].
      * rewrite parse_xargs_join by done. by exists (s :: ss).
      * rewrite parse_xargs_many by done. right. by rewrite nul_join_count.
  - unfold parse_xargs.
    pose proof (parse_xargs_loop_tail ss [] (b :: t) []
                  (S (length (nul_join ss ++ b :: t))) Hss Ht) as Hloop.
    rewrite !app_nil_l in Hloop. cbn [length out_of] in Hloop.
    change (Z.of_nat 0) with 0 in Hloop. cbn [length].
    rewrite Hloop; [|done|].
    + left. rewrite last_app. intros Hlast.
      destruct (last (b :: t)) as [x|] eqn:E.
      * injection Hlast as ->. apply Ht. by apply last_Some_elem_of.
      * by apply last_None in E.
    + pose proof (nul_join_length ss). rewrite length_app. simpl. lia.
Qed.

(** ** parse_xargs: where the entries start *)

Lemma parse_xargs_loop_chain (fuel : nat) (data : list byte) (len : Z) :
  ∀ (offs : list nat) (cur : nat) (n : Z) (out' : option (list cell)),
    parse_xargs_loop fuel data len (Z.of_nat (length offs)) cur (out_of offs)
      = Done (n, out') →
    ∃ offs', n = Z.of_nat (length (offs ++ offs'))
             ∧ out' = out_of (offs ++ offs')
             ∧ entries_chain data len cur offs'.
Proof.
  induction fuel as [|fuel IH]; intros offs cur n out'.
  - cbn [parse_xargs_loop]. destruct (Z.ltb_spec (Z.of_nat cur) len); [done|].
    intros [= <- <-]. exists []. by rewrite app_nil_r.
  - destruct (Z.lt_ge_cases (Z.of_nat cur) len) as [Hlt|Hge].
    + destruct (parse_xargs_loop_turn fuel data len offs cur Hlt)
        as [->|(_ & k & Ek & ->)]; [done|].
      intros Hrun. apply IH in Hrun as (offs' & -> & -> & Hchain).
      exists (cur :: offs'). rewrite <- app_assoc. repeat split; [done..|].
      by exists k.
    + rewrite parse_xargs_loop_exit by done.
      intros [= <- <-]. exists []. by rewrite app_nil_r.
Qed.

Lemma string_at_strlen (d : list byte) (o k : nat) :
  strlen (drop o d) = Some k →
  ∃ s, string_at d (Ptr o) = Some s ∧ length s = k.
Proof.
  intros Hk. exists (take k (drop o d)). cbn [string_at]. rewrite Hk.
  split; [done|]. apply strlen_Some in Hk as (Hlt & _).
  rewrite length_take. lia.
Qed.

Lemma entries_chain_facts (data : list byte) (len : Z) (offs : list nat) :
  ∀ cur, entries_chain data len cur offs →
    (offs ≠ [] → offs !! 0%nat = Some cur)
    ∧ (∀ i o, offs !! i = Some o → Z.of_nat o < len)
    ∧ (∀ i o o', offs !! i = Some o → offs !! S i = Some o' →
         ∃ s, string_at data (Ptr o) = Some s ∧ o' = (o + length s + 1)%nat)
    ∧ (∀ o, last offs = Some o →
         ∃ s, string_at data (Ptr o) = Some s
              ∧ len ≤ Z.of_nat (o + length s + 1)).
Proof.
  induction offs as [|o offs IH]; intros cur Hchain.
  - split_and!; [done|intros i o; by rewrite lookup_nil..|done].
  - destruct Hchain as (-> & Hlt & k & Hk & Hchain).
    destruct (IH _ Hchain) as (Hhead & Hin & Hnext & Hlast).
    destruct (string_at_strlen data cur k Hk) as (s & Hs & Hlen).
    split_and!.
    + done.
    + intros [|i] o; [intros [= <-]; done|apply Hin].
    + intros [|i] o o'; [|apply Hnext].
      intros [= <-] Ho'. exists s. split; [done|].
      destruct offs as [|o1 offs]; [done|].
      specialize (Hhead ltac:(done)). simpl in Hhead, Ho'.
      injection Hhead as ->. injection Ho' as <-. lia.
    + intros o. destruct offs as [|o1 offs].
      * intros [= <-]. exists s. split; [done|]. simpl in Hchain. lia.
      * rewrite last_cons. destruct (last (o1 :: offs)) eqn:El; [|by apply last_None in El].
        intros [= <-]. by apply Hlast.
Qed.

(** ** parse_xargs: its return value and its vector *)

(** X1. [parse_xargs] never returns 0. It returns -1, with [*output] as it
    was, exactly when the block is NULL or [*output] is not NULL. Otherwise
    a return value is positive and the length given was positive; with a
    length that is not positive the loop never runs and the final NULL is
    stored through the NULL [*output]. *)
Theorem parse_xargs_return_value (data : option (list byte)) (len : Z)
    (output : option (list cell)) :
  match parse_xargs data len output with
  | Done (n, out) =>
      (n = -1 ∧ out = output ∧ (data = None ∨ output ≠ None))
      ∨ (0 < n ∧ 0 < len ∧ is_Some data ∧ output = None)
  | Fault => is_Some data ∧ output = None
  | NoFuel => False
  end
  ∧ (is_Some data → output = None → len ≤ 0 →
     parse_xargs data len output = Fault).
Proof.
  split.
  - pose proof (parse_xargs_total data len output) as Htot.
    destruct (parse_xargs data len output) as [[n out]| |] eqn:Hrun; [| |done].
    + unfold parse_xargs in Hrun.
      destruct data as [d|]; [|injection Hrun as <- <-; left; auto].
      destruct output as [o|]; [injection Hrun as <- <-; left; auto|].
      destruct (parse_xargs_loop _ _ _ _ _ _) as [[num [arr|]]| |] eqn:Eloop;
        try done.
      injection Hrun as <- <-. right.
      apply (parse_xargs_loop_chain _ _ _ []) in Eloop as (offs & -> & Harr & Hchain).
      rewrite app_nil_l in *. destruct offs as [|o offs]; [done|].
      destruct Hchain as (-> & Hlt & _). simpl in Hlt.
      split_and!; [simpl; lia|lia|done..].
    + unfold parse_xargs in Hrun.
      destruct data as [d|]; [|done]. by destruct output.
  - intros [d ->] -> Hlen. unfold parse_xargs.
    by rewrite parse_xargs_loop_exit by (simpl; lia).
Qed.

(** X2. When [parse_xargs] returns a positive count, the pointers it has
    stored are laid out as follows: the first points at the start of the
    block, every pointer lies below [data_length], each entry starts right
    after the terminator of the entry before it, and the last entry ends at
    or after [data_length]. *)
Theorem parse_xargs_entry_pointers (data : option (list byte)) (len : Z)
    (output out : option (list cell)) (n : Z) :
  parse_xargs data len output = Done (n, out) → 0 < n →
  ∃ d offs,
    data = Some d ∧ out = Some ((Ptr <$> offs) ++ [Null])
    ∧ Z.of_nat (length offs) = n
    ∧ offs !! 0%nat = Some 0%nat
    ∧ (∀ i o, offs !! i = Some o → Z.of_nat o < len)
    ∧ (∀ i o o', offs !! i = Some o → offs !! S i = Some o' →
         ∃ s, string_at d (Ptr o) = Some s ∧ o' = (o + length s + 1)%nat)
    ∧ (∀ o, last offs = Some o →
         ∃ s, string_at d (Ptr o) = Some s
              ∧ len ≤ Z.of_nat (o + length s + 1)).
Proof.
  unfold parse_xargs. destruct data as [d|]; [|intros [= <- _]; lia].
  destruct output as [o|]; [intros [= <- _]; lia|].
  destruct (parse_xargs_loop _ _ _ _ _ _) as [[num [arr|]]| |] eqn:Eloop; try done.
  intros [= <- <-] Hpos.
  apply (parse_xargs_loop_chain _ _ _ []) in Eloop as (offs & -> & Harr & Hchain).
  rewrite app_nil_l in *.
  destruct (entries_chain_facts d len offs 0%nat Hchain) as (Hhead & Hin & Hnext & Hlast).
  exists d, offs. destruct offs as [|o offs]; [done|].
  injection Harr as ->. rewrite Nat2Z.id, store_null.
  split_and!; try done. by apply Hhead.
Qed.

Lemma parse_xargs_entry_pointers_witness :
  ∃ d offs,
    Some blob_a_bb = Some d ∧ Some [Ptr 0; Ptr 2; Null] = Some ((Ptr <$> offs) ++ [Null])
    ∧ Z.of_nat (length offs) = 2
    ∧ offs !! 0%nat = Some 0%nat
    ∧ (∀ i o, offs !! i = Some o → Z.of_nat o < 3)
    ∧ (∀ i o o', offs !! i = Some o → offs !! S i = Some o' →
         ∃ s, string_at d (Ptr o) = Some s ∧ o' = (o + length s + 1)%nat)
    ∧ (∀ o, last offs = Some o →
         ∃ s, string_at d (Ptr o) = Some s
              ∧ 3 ≤ Z.of_nat (o + length s + 1)).
Proof.
  apply (parse_xargs_entry_pointers (Some blob_a_bb) 3 None); [reflexivity|lia].
Defined.

(** X3. On a block parsed in full, the behaviour of [parse_xargs] is
    undefined exactly when the last byte of the block is not NUL (an empty
    block included: strlen leaves the block, or the NULL sentinel is stored
    through NULL) or the block holds INT_MAX NUL bytes or more (the count of
    entries overflows); it never exhausts the loop bound of the model. *)
Theorem parse_xargs_faults_iff_unterminated (d : list byte) :
  (parse_xargs (Some d) (Z.of_nat (length d)) None = Fault
   ↔ last d ≠ Some NUL
     ∨ INT_MAX ≤ Z.of_nat (length (filter (λ b, b = NUL) d)))
  ∧ parse_xargs (Some d) (Z.of_nat (length d)) None ≠ NoFuel.
Proof.
  pose proof (parse_xargs_block d) as Hblock.
  destruct (parse_xargs (Some d) (Z.of_nat (length d)) None) as [[n out]| |];
    [|done..].
  destruct Hblock as (ss & -> & Hne & Hss & _ & _ & Hnum).
  split; [|done]. split; [done|]. intros [Hlast|Hmany].
  - by rewrite nul_join_last in Hlast.
  - rewrite nul_join_count in Hmany by done. lia.
Qed.

(** X4. On a block that ends in a NUL byte and is shorter than INT_MAX
    bytes, parsed in full, [parse_xargs] returns the number of NUL bytes of
    the block, and the strings of the vector it builds, each followed by
    its terminator, make up the block again. *)
Theorem parse_xargs_rebuilds_block (d : list byte) :
  last d = Some NUL → Z.of_nat (length d) < INT_MAX →
  ∃ arr ss,
    parse_xargs (Some d) (Z.of_nat (length d)) None
    = Done (Z.of_nat (length (filter (λ b, b = NUL) d)), Some arr)
    ∧ vector_strings d arr = Some ss
    ∧ nul_join ss = d.
Proof.
  intros Hlast Hlen. destruct (nul_split_terminated d Hlast) as (ss & -> & Hne & Hss).
  pose proof (nul_join_length ss).
  rewrite parse_xargs_join, nul_join_count by (done || lia).
  eexists _, ss. split_and!; [done| |done].
  apply (vector_strings_join ss []); done.
Qed.

Lemma parse_xargs_rebuilds_block_witness :
  ∃ arr ss,
    parse_xargs (Some blob_a_bb) (Z.of_nat (length blob_a_bb)) None
    = Done (Z.of_nat (length (filter (λ b, b = NUL) blob_a_bb)), Some arr)
    ∧ vector_strings blob_a_bb arr = Some ss
    ∧ nul_join ss = blob_a_bb.
Proof. apply parse_xargs_rebuilds_block; [reflexivity|vm_compute; reflexivity]. Defined.

(** ** read_file *)

Lemma calls_made_drop {A : Type} (m : M A) (w w' : world) (a : A) (j k : nat) :
  m w = Ret a w' → w_script w' = drop j (w_script w) →
  (k < calls_made m w)%nat → (k < j)%nat.
Proof.
  intros Hrun Hscript. unfold calls_made. rewrite Hrun, Hscript, length_drop. lia.
Qed.

(** X5. When none of its calls is refused, [read_file] on a pseudo-file
    returns all the bytes of the file and their number in [*length],
    however the kernel cuts the reads short, and NULL for an empty file; it
    leaves the files and the descriptor table as it found them. *)
Theorem read_file_returns_whole_file (p : path) (w : world) (bytes : list byte) :
  pseudo_file p w = Some bytes → no_refusal w →
  ∃ w', read_file p true w
        = Ret (match bytes with [] => None | _ => Some bytes end,
               Z.of_nat (length bytes)) w'
        ∧ same_files w w' ∧ w_fds w' = w_fds w.
Proof.
  intros Hp Hw.
  destruct (read_file_granted p w bytes Hp Hw) as (w' & Hrun & Hsame & Hfds & _).
  exists w'. split_and!; [|done..]. rewrite Hrun. by destruct bytes.
Qed.

Lemma read_file_returns_whole_file_witness :
  ∃ w', read_file proc_self_cmdline true
          (plain_world [Grant 0; Grant 1; Grant 2; Grant 0])
        = Ret (Some [x61; x00; x62; x00], 4) w'
        ∧ same_files (plain_world [Grant 0; Grant 1; Grant 2; Grant 0]) w'
        ∧ w_fds w' = w_fds (plain_world [Grant 0; Grant 1; Grant 2; Grant 0]).
Proof.
  apply (read_file_returns_whole_file proc_self_cmdline
           (plain_world [Grant 0; Grant 1; Grant 2; Grant 0])
           [x61; x00; x62; x00]); [reflexivity|].
  intros k. unfold reply_at. cbn [plain_world w_script].
  do 4 (destruct k as [|k]; [discriminate|]). by destruct k.
Defined.

(** X6. When the open or one of the reads it makes is refused, [read_file]
    returns NULL, with the descriptor it had opened closed again. *)
Theorem read_file_refused_returns_NULL (p : path) (w : world) (bytes : list byte) :
  pseudo_file p w = Some bytes →
  (∃ k, (k < calls_made (read_file p true) w)%nat ∧ reply_at k w = Deny) →
  ∃ n w', read_file p true w = Ret (None, n) w'
          ∧ same_files w w' ∧ w_fds w' = w_fds w.
Proof.
  intros Hp (k & Hk & Hdeny).
  destruct (read_file_spec p w bytes Hp)
    as ([c n] & w' & j & Hrun & Hsame & Hfds & _ & Hscript & Hnull & _).
  exists n, w'. split_and!; [|done..].
  rewrite Hrun. f_equal. f_equal. apply (Hnull k); [|done].
  by eapply calls_made_drop.
Qed.

Lemma read_file_refused_returns_NULL_witness :
  ∃ n w', read_file proc_self_cmdline true (plain_world [Grant 0; Grant 1; Deny])
          = Ret (None, n) w'
          ∧ same_files (plain_world [Grant 0; Grant 1; Deny]) w'
          ∧ w_fds w' = w_fds (plain_world [Grant 0; Grant 1; Deny]).
Proof.
  apply (read_file_refused_returns_NULL proc_self_cmdline
           (plain_world [Grant 0; Grant 1; Deny]) [x61; x00; x62; x00]);
    [reflexivity|].
  exists 2%nat. split; [vm_compute; lia|reflexivity].
Defined.

(** X7. [read_file] never returns a part of a file: a block it returns on a
    pseudo-file holds all the bytes of the file, which is then not empty,
    and [*length] is their number. *)
Theorem read_file_never_partial (p : path) (w w' : world) (bytes c : list byte)
    (n : Z) :
  pseudo_file p w = Some bytes →
  read_file p true w = Ret (Some c, n) w' →
  c = bytes ∧ n = Z.of_nat (length bytes) ∧ bytes ≠ [] ∧ w_fds w' = w_fds w.
Proof.
  intros Hp Hrun.
  destruct (read_file_spec p w bytes Hp)
    as (r & w'' & j & Hrun' & _ & Hfds & _ & _ & Hnull & Hres).
  rewrite Hrun in Hrun'. injection Hrun' as <- <-.
  destruct Hres as [(k & Hk & Hdeny)|Hres]; [by specialize (Hnull k Hk Hdeny)|].
  destruct bytes as [|x bytes]; [discriminate Hres|].
  injection Hres as -> ->. done.
Qed.

Lemma read_file_never_partial_witness :
  let w := plain_world [Grant 0; Grant 3] in
  let w' := state_after (read_file proc_self_environ true) w in
  [x58; x3d; x31; x00] = w_environ w
  ∧ 4 = Z.of_nat (length (w_environ w))
  ∧ w_environ w ≠ [] ∧ w_fds w' = w_fds w.
Proof.
  intros w w'.
  apply (read_file_never_partial proc_self_environ w w'); [reflexivity|].
  vm_compute. reflexivity.
Defined.

(** ** fetchve: its outcomes *)

(** A successful [fetchve] has read both pseudo-files in full and has
    parsed each with [parse_xargs], on the size converted to [int]. *)
Lemma fetchve_success (w w' : world) (f : fetched) (r : Z) :
  fetchve None None w = Ret (r, f) w' → r ≠ - EINVAL →
  r = 0
  ∧ f_cmdline f = Some (w_cmdline w) ∧ f_environ f = Some (w_environ w)
  ∧ w_cmdline w ≠ [] ∧ w_environ w ≠ []
  ∧ (∃ n, 0 < n
          ∧ parse_xargs (Some (w_cmdline w))
                        (int_of_size_t (Z.of_nat (length (w_cmdline w)))) None
            = Done (n, f_argv f))
  ∧ (∃ n, 0 < n
          ∧ parse_xargs (Some (w_environ w))
                        (int_of_size_t (Z.of_nat (length (w_environ w)))) None
            = Done (n, f_envp f)).
Proof.
  unfold fetchve.
  rewrite (bind_Ret _ _ w (set_trace (w_trace w ++ [Fetch]) w) ()) by done.
  destruct (read_file_spec proc_self_cmdline (set_trace (w_trace w ++ [Fetch]) w)
              (w_cmdline w) eq_refl)
    as ([c1 l1] & w1 & j1 & Hrun1 & Hsame1 & _ & _ & _ & Hdeny1 & Hres1).
  rewrite (bind_Ret _ _ _ _ _ Hrun1).
  unfold same_files in *. cbn [fst snd] in *.
  cbn [w_inodes w_exe w_cmdline w_environ w_fds w_script w_trace set_trace] in *.
  destruct Hsame1 as (_ & _ & _ & Hv1).
  case_bool_decide as Hnull1.
  { unfold fetchve_error, mret, M_ret. intros [= <- _ _] Hr. done. }
  destruct (read_file_spec proc_self_environ w1 (w_environ w1) eq_refl)
    as ([c2 l2] & w2 & j2 & Hrun2 & _ & _ & _ & _ & Hdeny2 & Hres2).
  rewrite (bind_Ret _ _ _ _ _ Hrun2). cbn [fst snd] in *.
  case_bool_decide as Hnull2.
  { unfold fetchve_error, mret, M_ret. intros [= <- _ _] Hr. done. }
  destruct Hres1 as [(k & Hk & Hd)|[= -> ->]]; [destruct (Hnull1 (Hdeny1 k Hk Hd))|].
  destruct Hres2 as [(k & Hk & Hd)|[= -> ->]]; [destruct (Hnull2 (Hdeny2 k Hk Hd))|].
  rewrite Hv1 in *.
  assert (Hc : w_cmdline w ≠ []) by (intros Hc; by rewrite Hc in Hnull1).
  assert (Hv : w_environ w ≠ []) by (intros Hv; by rewrite Hv in Hnull2).
  assert (block_of (w_cmdline w) = Some (w_cmdline w)) as ->
    by (by destruct (w_cmdline w)).
  assert (block_of (w_environ w) = Some (w_environ w)) as ->
    by (by destruct (w_environ w)).
  unfold lift, mbind, M_bind, fetchve_error, mret, M_ret.
  destruct (parse_xargs (Some (w_cmdline w)) _ None) as [[n argv]| |]; [|done..].
  destruct (Z.leb_spec n 0); [intros [= <- _ _] Hr; done|].
  destruct (parse_xargs (Some (w_environ w)) _ None) as [[m envp]| |]; [|done..].
  destruct (Z.leb_spec m 0); [intros [= <- _ _] Hr; done|].
  intros [= <- <- _] _. cbn [f_argv f_envp f_cmdline f_environ].
  split_and!; try done; eexists; (split; [|reflexivity]); done.
Qed.

(** X8. [fetchve] returns 0 or -EINVAL, or faults inside [parse_xargs]; it
    never replaces the image. However it ends, every descriptor it opened
    is closed again and the files are as it found them. *)
Theorem fetchve_leaves_no_descriptor (w : world) :
  match fetchve None None w with
  | Ret (r, _) w' =>
      (r = 0 ∨ r = - EINVAL) ∧ w_fds w' = w_fds w ∧ same_files w w'
  | Abort w' => w_fds w' = w_fds w ∧ same_files w w'
  | Exec _ | Stuck => False
  end.
Proof.
  destruct (fetchve_spec w) as [j Hspec].
  destruct (fetchve None None w) as [[r f] w'|w'|w'|]; [|done| |done].
  - destruct Hspec as (Hsame & Hfds & _ & _ & Hres).
    split_and!; [|done..]. destruct Hres as [->|[-> _]]; auto.
  - by destruct Hspec as (Hsame & Hfds & _).
Qed.

Lemma parse_xargs_strings (d : list byte) (n : Z) (out : option (list cell)) :
  parse_xargs (Some d) (Z.of_nat (length d)) None = Done (n, out) →
  ∃ ss, strings_of (out, Some d) = Some ss ∧ nul_join ss = d.
Proof.
  intros Hrun. pose proof (parse_xargs_block d) as Hblock.
  rewrite Hrun in Hblock. destruct Hblock as (ss & -> & _ & Hss & _ & -> & _).
  exists ss. split; [|done]. apply (vector_strings_join ss []); done.
Qed.

(** X9. With no call refused and two non-empty sources shorter than
    INT_MAX bytes, [fetchve] never returns -EINVAL; when both sources end
    in a NUL byte it returns 0 and the strings of each vector, with their
    terminators, make up the source again. *)
Theorem fetchve_outcome_when_granted (w : world) :
  no_refusal w → w_cmdline w ≠ [] → w_environ w ≠ [] →
  Z.of_nat (length (w_cmdline w)) < INT_MAX →
  Z.of_nat (length (w_environ w)) < INT_MAX →
  (∀ f w', fetchve None None w ≠ Ret (- EINVAL, f) w')
  ∧ (last (w_cmdline w) = Some NUL → last (w_environ w) = Some NUL →
     ∃ f w' args env,
       fetchve None None w = Ret (0, f) w'
       ∧ strings_of (f_argv f, f_cmdline f) = Some args
       ∧ nul_join args = w_cmdline w
       ∧ strings_of (f_envp f, f_environ f) = Some env
       ∧ nul_join env = w_environ w).
Proof.
  intros Hw Hc Hv Hclen Hvlen.
  destruct (fetchve_granted w Hw Hc Hv) as (w' & _ & _ & _ & _ & Hrun);
    [unfold INT_MAX in *; lia..|].
  pose proof (parse_xargs_block (w_cmdline w)) as Hb1.
  pose proof (parse_xargs_block (w_environ w)) as Hb2.
  assert (Hfew : ∀ d : list byte,
            Z.of_nat (length d) < INT_MAX →
            ¬ INT_MAX ≤ Z.of_nat (length (filter (λ b, b = NUL) d))).
  { intros d Hd. pose proof (length_filter (λ b, b = NUL) d). lia. }
  destruct (parse_xargs (Some (w_cmdline w)) _ None) as [[n argv]| |] eqn:Hp1;
    [| |done].
  - destruct (parse_xargs_strings _ _ _ Hp1) as (args & Hargs & Hjoin1).
    destruct Hb1 as (ss1 & Hd1 & Hne1 & _ & -> & _).
    destruct (Z.leb_spec (Z.of_nat (length ss1)) 0) as [Hle|_];
      [destruct ss1; [done|simpl in Hle; lia]|].
    destruct (parse_xargs (Some (w_environ w)) _ None) as [[m envp]| |] eqn:Hp2;
      [| |done].
    + destruct (parse_xargs_strings _ _ _ Hp2) as (env & Henv & Hjoin2).
      destruct Hb2 as (ss2 & Hd2 & Hne2 & _ & -> & _).
      destruct (Z.leb_spec (Z.of_nat (length ss2)) 0) as [Hle|_];
        [destruct ss2; [done|simpl in Hle; lia]|].
      split; [intros f w''; by rewrite Hrun|].
      intros _ _. eexists _, w', args, env. split; [exact Hrun|]. done.
    + split; [intros f w''; by rewrite Hrun|].
      intros _ Hl2. destruct Hb2 as [Hb2|Hb2]; [done|by apply Hfew in Hb2].
  - split; [intros f w''; by rewrite Hrun|].
    intros Hl1 _. destruct Hb1 as [Hb1|Hb1]; [done|by apply Hfew in Hb1].
Qed.

Lemma fetchve_outcome_when_granted_witness :
  ∃ f w' args env,
    fetchve None None (plain_world []) = Ret (0, f) w'
    ∧ strings_of (f_argv f, f_cmdline f) = Some args
    ∧ nul_join args = w_cmdline (plain_world [])
    ∧ strings_of (f_envp f, f_environ f) = Some env
    ∧ nul_join env = w_environ (plain_world []).
Proof.
  refine (proj2 (fetchve_outcome_when_granted (plain_world []) _ _ _ _ _) _ _);
    [|discriminate|discriminate|vm_compute; reflexivity|vm_compute; reflexivity
     |reflexivity|reflexivity].
  intros k. unfold reply_at. cbn [plain_world w_script]. by destruct k.
Defined.

(** ** is_self_cloned *)

(** X10. [is_self_cloned] returns one of -ENOTRECOVERABLE, 0 and 1; it
    closes the descriptor it opens and changes no file, so the process is
    as before the call. *)
Theorem is_self_cloned_leaves_no_trace (b : bool) (w : world) :
  ∃ r w', is_self_cloned b w = Ret r w'
          ∧ (r = - ENOTRECOVERABLE ∨ r = 0 ∨ r = 1)
          ∧ w_fds w' = w_fds w ∧ same_files w w'.
Proof.
  destruct (is_self_cloned_spec b w) as (w' & Hrun & Hsame & Hfds & _).
  exists (detect_result b w), w'. split_and!; [done| |done..].
  destruct (detect_result_cases b w) as [[-> _]|[[-> | ->] _]]; auto.
Qed.


(** ** clone_binary: failure and success *)

(** None of the first answers of the script is a refusal. *)
Ltac grant_solve :=
  intros k Hk;
  do 5 (destruct k as [|k];
        [first [lia|rewrite ?nth_S_tl, nth_0_hd; congruence]|]);
  lia.

Lemma clone_binary_status (b : bool) (w : world) (src : inode) :
  exe_inode w = Some src →
  ∃ r w',
    clone_binary b w = Ret r w' ∧ w_inodes w ⊆ w_inodes w'
    ∧ ((reply_at 0 w = Deny ∧ r = - ENOTRECOVERABLE ∧ w_fds w' = w_fds w)
       ∨ (reply_at 0 w ≠ Deny ∧ r = - EIO ∧ w_fds w' = w_fds w
          ∧ ∃ k, (1 ≤ k < (if b then 4 else 5))%nat ∧ reply_at k w = Deny)
       ∨ (0 ≤ r ∧ ∀ k, (k < (if b then 4 else 5))%nat → reply_at k w ≠ Deny)).
Proof.
  destruct w as [inodes exe cmdline environ fds script trace].
  unfold exe_inode, reply_at; run_unfold. intros Hexe.
  rewrite !nth_0_hd.
  unfold clone_binary, clone_binary_error.
  destruct b.
  - run; zbool; try lia;
      (eexists _, _; (split; [reflexivity|]); run_unfold);
      (split; [done || apply insert_subseteq, lowest_free_free|]).
    + by left.
    + right; left. split_and!; [done..|deny_solve].
    + right; left. split_and!; [done..|deny_solve].
    + right; left. split_and!; [done..|deny_solve].
    + right; right. split; [apply lowest_free_nonneg|grant_solve].
  - run; zbool; try lia;
      (eexists _, _; (split; [reflexivity|]); run_unfold);
      (split; [done || apply insert_subseteq, lowest_free_free|]).
    + by left.
    + right; left. split_and!; [done..|deny_solve].
    + right; left. split_and!; [done..|deny_solve].
    + right; left. split_and!; [done..|deny_solve].
    + right; left. split_and!; [done..|deny_solve].
    + right; right. split; [apply lowest_free_nonneg|grant_solve].
Qed.

(** X11. [clone_binary] fails exactly when one of its calls is refused
    (four calls with the memfd, five with the temporary file). It returns
    -ENOTRECOVERABLE exactly when the creation of the file is refused and
    -EIO for a later call; after a failure the descriptor table is as it
    was before the call. *)
Theorem clone_binary_failure_status (b : bool) (w : world) (src : inode) :
  exe_inode w = Some src →
  ∃ r w',
    clone_binary b w = Ret r w'
    ∧ (r < 0 ↔ ∃ k, (k < (if b then 4 else 5))%nat ∧ reply_at k w = Deny)
    ∧ (r = - ENOTRECOVERABLE ↔ reply_at 0 w = Deny)
    ∧ (r < 0 → (r = - ENOTRECOVERABLE ∨ r = - EIO) ∧ w_fds w' = w_fds w).
Proof.
  intros Hsrc.
  destruct (clone_binary_status b w src Hsrc) as (r & w' & Hrun & _ & Hres).
  exists r, w'. split; [done|].
  destruct Hres as [(Hdeny & -> & Hfds)|[(Hgrant & -> & Hfds & k & Hk & Hdeny)
                                        |(Hpos & Hgrant)]].
  - split_and!; [split; [|done]|done|auto].
    intros _. exists 0%nat. split; [destruct b; lia|done].
  - split_and!; [split; [|done]|split; [done|]|auto].
    + intros _. exists k. split; [lia|done].
    + intros Hd. done.
  - split_and!.
    + split; [lia|]. intros (k & Hk & Hdeny). by apply Hgrant in Hdeny.
    + split; [intros ->; done|]. intros Hdeny. apply Hgrant in Hdeny; [done|].
      destruct b; lia.
    + lia.
Qed.

Lemma clone_binary_failure_status_witness :
  ∃ r w',
    clone_binary true (plain_world [Grant 0; Grant 0; Deny]) = Ret r w'
    ∧ (r < 0 ↔ ∃ k, (k < 4)%nat
                     ∧ reply_at k (plain_world [Grant 0; Grant 0; Deny]) = Deny)
    ∧ (r = - ENOTRECOVERABLE
       ↔ reply_at 0 (plain_world [Grant 0; Grant 0; Deny]) = Deny)
    ∧ (r < 0 → (r = - ENOTRECOVERABLE ∨ r = - EIO)
               ∧ w_fds w' = w_fds (plain_world [Grant 0; Grant 0; Deny])).
Proof.
  apply (clone_binary_failure_status true (plain_world [Grant 0; Grant 0; Deny]) elf).
  reflexivity.
Defined.

(** X12. When [clone_binary] succeeds, the descriptor it returns was free
    before the call and is the only change to the descriptor table. It is
    close-on-exec and refers to an inode that did not exist before, has no
    link and, with the memfd, carries exactly RUNC_MEMFD_SEALS; no other
    inode is changed. *)
Theorem clone_binary_descriptor (b : bool) (w w' : world) (src : inode) (r : Z) :
  exe_inode w = Some src → clone_binary b w = Ret r w' → 0 ≤ r →
  w_fds w !! r = None
  ∧ (∀ fd, fd ≠ r → w_fds w' !! fd = w_fds w !! fd)
  ∧ ∃ d ino img,
      w_fds w' !! r = Some d ∧ fd_file d = OnInode ino ∧ fd_cloexec d = true
      ∧ w_inodes w !! ino = None ∧ w_inodes w' !! ino = Some img
      ∧ i_nlink img = 0
      ∧ i_seals img = (if b then Some RUNC_MEMFD_SEALS else None)
      ∧ (∀ j, j ≠ ino → w_inodes w' !! j = w_inodes w !! j).
Proof.
  intros Hsrc Hrun Hpos.
  destruct (clone_binary_spec b w src Hsrc)
    as (r' & w'' & Hrun' & _ & _ & _ & _ & _ & Hres).
  rewrite Hrun in Hrun'. injection Hrun' as <- <-.
  destruct Hres as [([->| ->] & _)|(_ & Hfree & ino & pos & Hino & Hfds & Hinodes)];
    [unfold ENOTRECOVERABLE in Hpos; lia|unfold EIO in Hpos; lia|].
  split_and!; [done| |].
  - intros fd Hfd. by rewrite Hfds, lookup_insert_ne.
  - eexists _, ino, _. rewrite Hfds, Hinodes, !lookup_insert_eq.
    split_and!; try done. intros j Hj. by rewrite lookup_insert_ne.
Qed.

Lemma clone_binary_descriptor_witness :
  let w := open_world [] in
  let w' := state_after (clone_binary false) w in
  w_fds w !! 3 = None
  ∧ (∀ fd, fd ≠ 3 → w_fds w' !! fd = w_fds w !! fd)
  ∧ ∃ d ino img,
      w_fds w' !! 3 = Some d ∧ fd_file d = OnInode ino ∧ fd_cloexec d = true
      ∧ w_inodes w !! ino = None ∧ w_inodes w' !! ino = Some img
      ∧ i_nlink img = 0
      ∧ i_seals img = None
      ∧ (∀ j, j ≠ ino → w_inodes w' !! j = w_inodes w !! j).
Proof.
  intros w w'.
  apply (clone_binary_descriptor false w w' elf 3); [reflexivity| |lia].
  vm_compute. reflexivity.
Defined.

(** ** ensure_cloned_binary: how a run ends *)

Lemma guard_exec (b : bool) (w w' : world) :
  ensure_cloned_binary b w = Exec w' →
  ∃ src f args env n,
    detect_result b w = 0 ∧ exe_inode w = Some src
    ∧ (∃ w1 w2, same_files w w1 ∧ fetchve None None w1 = Ret (0, f) w2)
    ∧ strings_of (f_argv f, f_cmdline f) = Some args
    ∧ strings_of (f_envp f, f_environ f) = Some env
    ∧ w_inodes w !! w_exe w' = None
    ∧ w_inodes w' = <[w_exe w' := cloned_image b src n]> (w_inodes w)
    ∧ w_cmdline w' = nul_join args ∧ w_environ w' = nul_join env
    ∧ w_fds w' = filter (λ kv, fd_cloexec kv.2 = false) (w_fds w).
Proof.
  unfold ensure_cloned_binary.
  destruct (is_self_cloned_spec b w)
    as (w1 & Hrun1 & (Hi1 & He1 & Hc1 & Hv1) & Hfds1 & Htrace1 & _).
  rewrite (bind_Ret _ _ _ _ _ Hrun1).
  destruct (detect_result_cases b w) as [[Hd Hfail]|[Hd [Hok [src Hsrc]]]].
  { rewrite Hd. change ((_ >? 0) || (_ =? _)) with true. done. }
  destruct Hd as [Hd|Hd].
  2:{ rewrite Hd. change ((_ >? 0) || (_ =? _)) with true. done. }
  rewrite Hd. change ((_ >? 0) || (_ =? _)) with false. cbv iota.
  destruct (fetchve_spec w1) as [j Hfetch].
  unfold mbind at 1, M_bind at 1.
  destruct (fetchve None None w1) as [[r f] w2|w2|w2|] eqn:Hrun2; [| done | done | done].
  destruct Hfetch as ((Hi2 & He2 & Hc2 & Hv2) & Hfds2 & Htrace2 & _ & Hres).
  destruct Hres as [->|(-> & _ & args & env & Hargs & _ & Henv & _)].
  { change (- EINVAL <? 0) with true. done. }
  change (0 <? 0) with false. cbv iota.
  assert (Hsrc2 : exe_inode w2 = Some src).
  { unfold exe_inode in *. by rewrite Hi2, He2, Hi1, He1. }
  destruct (clone_binary_spec b w2 src Hsrc2)
    as (execfd & w3 & Hrun3 & Htrace3 & He3 & Hc3 & Hv3 & _ & Hres).
  rewrite (bind_Ret _ _ _ _ _ Hrun3).
  destruct Hres as [([->| ->] & Hfds3 & _)|(Hpos & Hfree & ino & pos & Hino & Hfds3 & Hino3)];
    [done..|].
  destruct (Z.ltb_spec execfd 0) as [?|_]; [lia|].
  destruct (fexecve_spec execfd (f_argv f, f_cmdline f) (f_envp f, f_environ f) w3
              ino pos true (cloned_image b src (clone_sent w2 src)) args env)
    as [(_ & w4 & Hrun4 & _)|(_ & Hrun4)]; try done.
  { by rewrite Hfds3, lookup_insert_eq. }
  { by rewrite Hino3, lookup_insert_eq. }
  { by rewrite (bind_Ret _ _ _ _ _ Hrun4). }
  unfold mbind, M_bind. rewrite Hrun4. intros [= <-].
  exists src, f, args, env, (clone_sent w2 src).
  unfold exec_world. cbn [w_inodes w_exe w_cmdline w_environ w_fds].
  split_and!; try done.
  - exists w1, w2. by split.
  - by rewrite <- Hi1, <- Hi2.
  - by rewrite Hino3, Hi2, Hi1.
  - rewrite Hfds3, map_filter_insert_False by (cbn; congruence).
    rewrite delete_id by done. by rewrite Hfds2, Hfds1.
Qed.

(** X13. Whenever the guard replaces the image of a process whose command
    line and environment end in a NUL byte and are shorter than INT_MAX
    bytes, the new image sees the command line and the environment of the
    old one, byte for byte. (On a source that does not end in a NUL byte
    the strlen of [parse_xargs] leaves the block and nothing is claimed.) *)
Theorem guard_exec_passes_arguments (b : bool) (w w' : world) :
  ensure_cloned_binary b w = Exec w' →
  last (w_cmdline w) = Some NUL → last (w_environ w) = Some NUL →
  Z.of_nat (length (w_cmdline w)) < INT_MAX →
  Z.of_nat (length (w_environ w)) < INT_MAX →
  w_cmdline w' = w_cmdline w ∧ w_environ w' = w_environ w.
Proof.
  intros Hexec _ _ Hclen Hvlen.
  destruct (guard_exec b w w' Hexec)
    as (src & f & args & env & n & _ & _ & (w1 & w2 & Hsame & Hrun)
        & Hargs & Henv & _ & _ & -> & -> & _).
  destruct Hsame as (_ & _ & Hc1 & Hv1).
  destruct (fetchve_success w1 w2 f 0 Hrun ltac:(done))
    as (_ & Hfc & Hfv & _ & _ & (n1 & _ & Hp1) & (n2 & _ & Hp2)).
  rewrite Hc1, Hv1 in *.
  rewrite int_of_size_t_small in Hp1, Hp2 by (unfold INT_MAX in *; lia).
  destruct (parse_xargs_strings _ _ _ Hp1) as (args' & Hargs' & <-).
  destruct (parse_xargs_strings _ _ _ Hp2) as (env' & Henv' & <-).
  rewrite Hfc in Hargs. rewrite Hfv in Henv.
  split; congruence.
Qed.

Lemma guard_exec_passes_arguments_witness :
  let w' := after_exec (ensure_cloned_binary true) (plain_world []) in
  w_cmdline w' = w_cmdline (plain_world [])
  ∧ w_environ w' = w_environ (plain_world []).
Proof.
  intros w'. apply (guard_exec_passes_arguments true (plain_world []) w').
  - vm_compute. reflexivity.
  - reflexivity.
  - reflexivity.
  - vm_compute. reflexivity.
  - vm_compute. reflexivity.
Defined.

(** X14. Whenever the guard replaces the image, the new image inherits
    exactly the descriptors of the old one that are not close-on-exec:
    every descriptor the guard opened, the one of the cloned image
    included, is close-on-exec and is gone. The new executable is an inode
    that did not exist before, without a link, and its bytes are a prefix
    of the bytes of the old executable. *)
Theorem guard_exec_inherits_nothing (b : bool) (w w' : world) :
  ensure_cloned_binary b w = Exec w' →
  w_fds w' = filter (λ kv, fd_cloexec kv.2 = false) (w_fds w)
  ∧ w_inodes w !! w_exe w' = None
  ∧ ∃ src img,
      exe_inode w = Some src ∧ exe_inode w' = Some img
      ∧ i_nlink img = 0 ∧ i_data img `prefix_of` i_data src.
Proof.
  intros Hexec.
  destruct (guard_exec b w w' Hexec)
    as (src & f & args & env & n & _ & Hsrc & _ & _ & _ & Hfresh & Hinodes
        & _ & _ & Hfds).
  split_and!; [done..|].
  exists src, (cloned_image b src n). unfold exe_inode in *.
  rewrite Hinodes, lookup_insert_eq. split_and!; [done..|].
  apply prefix_take.
Qed.

Lemma guard_exec_inherits_nothing_witness :
  let w := open_world [] in
  let w' := after_exec (ensure_cloned_binary true) w in
  w_fds w' = filter (λ kv, fd_cloexec kv.2 = false) (w_fds w)
  ∧ w_inodes w !! w_exe w' = None
  ∧ ∃ src img,
      exe_inode w = Some src ∧ exe_inode w' = Some img
      ∧ i_nlink img = 0 ∧ i_data img `prefix_of` i_data src.
Proof.
  intros w w'. apply (guard_exec_inherits_nothing true w w').
  vm_compute. reflexivity.
Defined.

(** X15. The guard changes no file that exists: however a run ends, every
    inode that was there before is there with the same bytes, seals and
    link count; when the run returns or faults, the executable, the command
    line and the environment of the process are the same as well. The run
    never hangs in the model's loops. *)
Theorem guard_changes_no_file (b : bool) (w : world) :
  match ensure_cloned_binary b w with
  | Ret _ w' | Abort w' =>
      w_inodes w ⊆ w_inodes w' ∧ w_exe w' = w_exe w
      ∧ w_cmdline w' = w_cmdline w ∧ w_environ w' = w_environ w
  | Exec w' => w_inodes w ⊆ w_inodes w'
  | Stuck => False
  end.
Proof.
  unfold ensure_cloned_binary.
  destruct (is_self_cloned_spec b w)
    as (w1 & Hrun1 & (Hi1 & He1 & Hc1 & Hv1) & Hfds1 & Htrace1 & _).
  rewrite (bind_Ret _ _ _ _ _ Hrun1).
  destruct (detect_result_cases b w) as [[Hd Hfail]|[Hd [Hok [src Hsrc]]]].
  { rewrite Hd. change ((_ >? 0) || (_ =? _)) with true. cbv iota.
    unfold mret, M_ret. by rewrite Hi1. }
  destruct Hd as [Hd|Hd].
  2:{ rewrite Hd. change ((_ >? 0) || (_ =? _)) with true. cbv iota.
      unfold mret, M_ret. by rewrite Hi1. }
  rewrite Hd. change ((_ >? 0) || (_ =? _)) with false. cbv iota.
  destruct (fetchve_spec w1) as [j Hfetch].
  unfold mbind at 1, M_bind at 1.
  destruct (fetchve None None w1) as [[r f] w2|w2|w2|] eqn:Hrun2; [| done | | done].
  2:{ destruct Hfetch as ((Hi2 & He2 & Hc2 & Hv2) & _).
      rewrite Hi2, Hi1. split_and!; [done|congruence..]. }
  destruct Hfetch as ((Hi2 & He2 & Hc2 & Hv2) & Hfds2 & Htrace2 & _ & Hres).
  destruct Hres as [->|(-> & _ & args & env & Hargs & _ & Henv & _)].
  { change (- EINVAL <? 0) with true. cbv iota. unfold mret, M_ret.
    rewrite Hi2, Hi1. split_and!; [done|congruence..]. }
  change (0 <? 0) with false. cbv iota.
  assert (Hsrc2 : exe_inode w2 = Some src).
  { unfold exe_inode in *. by rewrite Hi2, He2, Hi1, He1. }
  destruct (clone_binary_spec b w2 src Hsrc2)
    as (execfd & w3 & Hrun3 & Htrace3 & He3 & Hc3 & Hv3 & _ & Hres).
  destruct (clone_binary_status b w2 src Hsrc2) as (r' & w3' & Hrun3' & Hsub & _).
  rewrite Hrun3 in Hrun3'. injection Hrun3' as <- <-.
  rewrite Hi2, Hi1 in Hsub.
  rewrite (bind_Ret _ _ _ _ _ Hrun3).
  destruct Hres as [([->| ->] & Hfds3 & _)|(Hpos & Hfree & ino & pos & Hino & Hfds3 & Hino3)].
  1,2: change (_ <? 0) with true; cbv iota; unfold mret, M_ret;
       split_and!; [done|congruence..].
  destruct (Z.ltb_spec execfd 0) as [?|_]; [lia|].
  destruct (fexecve_spec execfd (f_argv f, f_cmdline f) (f_envp f, f_environ f) w3
              ino pos true (cloned_image b src (clone_sent w2 src)) args env)
    as [(_ & w4 & Hrun4 & _ & _ & (Hi4 & He4 & Hc4 & Hv4))|(_ & Hrun4)]; try done.
  { by rewrite Hfds3, lookup_insert_eq. }
  { by rewrite Hino3, lookup_insert_eq. }
  - rewrite (bind_Ret _ _ _ _ _ Hrun4). unfold mret, M_ret.
    rewrite Hi4. split_and!; [done|congruence..].
  - unfold mbind, M_bind. by rewrite Hrun4.
Qed.


(** X16. Every run of the guard that returns a status other than -ENOEXEC,
    and every run that faults while fetching the arguments, leaves the
    descriptor table as it found it: the descriptors opened for the
    detection, for the two pseudo-files and by a failed clone are all
    closed again. *)
Theorem guard_failure_closes_descriptors (b : bool) (w : world) :
  match ensure_cloned_binary b w with
  | Ret r w' => r ≠ - ENOEXEC → w_fds w' = w_fds w
  | Abort w' => w_fds w' = w_fds w
  | Exec _ => True
  | Stuck => False
  end.
Proof.
  destruct (ensure_cloned_binary_spec b w) as [t Hend].
  destruct (ensure_cloned_binary b w) as [r w'|w'|w'|] eqn:Hrun;
    inversion Hend; subst; try done.
Qed.

(** X17. A process that is not yet cloned, whose command line and
    environment end in a NUL byte and are shorter than INT_MAX bytes and whose
    executable fits one transfer, in an environment that grants every call
    in full, is replaced by the guard: the new image runs from a copy that
    holds the bytes of the executable, with the same command line and
    environment. *)
Theorem guard_replaces_process (b : bool) (w : world) (src : inode) :
  full_grants w → exe_inode w = Some src → returns (is_self_cloned b) w 0 →
  last (w_cmdline w) = Some NUL → last (w_environ w) = Some NUL →
  Z.of_nat (length (w_cmdline w)) < INT_MAX →
  Z.of_nat (length (w_environ w)) < INT_MAX →
  Z.of_nat (length (i_data src)) ≤ RUNC_SENDFILE_MAX →
  ∃ w', ensure_cloned_binary b w = Exec w'
        ∧ i_data <$> exe_inode w' = Some (i_data src)
        ∧ w_cmdline w' = w_cmdline w ∧ w_environ w' = w_environ w.
Proof.
  intros Hfull Hsrc Hd Hc Hv Hclen Hvlen Hsize.
  apply is_self_cloned_returns in Hd.
  destruct (nul_split_terminated _ Hc) as (args & Hargs & Hane & Hanul).
  destruct (nul_split_terminated _ Hv) as (env & Henv & Hvne & Hvnul).
  destruct (guard_replaces_image b w src args env)
    as (w' & Hrun & Hc' & Hv' & _ & _ & Hdata); try done.
  by exists w'.
Qed.

Lemma guard_replaces_process_witness :
  ∃ w', ensure_cloned_binary false (plain_world []) = Exec w'
        ∧ i_data <$> exe_inode w' = Some (i_data elf)
        ∧ w_cmdline w' = w_cmdline (plain_world [])
        ∧ w_environ w' = w_environ (plain_world []).
Proof.
  apply (guard_replaces_process false (plain_world []) elf);
    try (vm_compute; reflexivity).
  - intros k. unfold reply_at. cbn [plain_world w_script]. by destruct k.
  - eexists. vm_compute. reflexivity.
  - vm_compute. discriminate.
Defined.

(** * The process title (setproctitle.h) *)

(** ** Memory accesses inside the area *)

Lemma spt_memset_ok (mem : list byte) (p n : nat) (c : byte) :
  (p + n ≤ length mem)%nat →
  Spt.memset mem (Z.of_nat p) c (Z.of_nat n)
  = Done (list_inserts p (replicate n c) mem).
Proof.
  intros Hle. unfold Spt.memset.
  destruct (Z.leb_spec 0 (Z.of_nat p)); [|lia].
  destruct (Z.leb_spec (Z.of_nat p + Z.of_nat n) (Z.of_nat (length mem))); [|lia].
  cbn [andb]. by rewrite !Nat2Z.id.
Qed.

Lemma spt_memcpy_ok (mem src : list byte) (p n : nat) :
  (p + n ≤ length mem)%nat → (n ≤ length src)%nat →
  Spt.memcpy mem (Z.of_nat p) src (Z.of_nat n)
  = Done (list_inserts p (take n src) mem).
Proof.
  intros Hle Hsrc. unfold Spt.memcpy.
  destruct (Z.leb_spec 0 (Z.of_nat p)); [|lia].
  destruct (Z.leb_spec (Z.of_nat p + Z.of_nat n) (Z.of_nat (length mem))); [|lia].
  destruct (Z.leb_spec (Z.of_nat n) (Z.of_nat (length src))); [|lia].
  cbn [andb]. by rewrite !Nat2Z.id.
Qed.

Lemma spt_store_ok (mem : list byte) (p : nat) (c : byte) :
  (p < length mem)%nat →
  Spt.store mem (Z.of_nat p) c = Done (<[p := c]> mem).
Proof.
  intros Hlt. unfold Spt.store.
  destruct (Z.leb_spec 0 (Z.of_nat p)); [|lia].
  destruct (Z.ltb_spec (Z.of_nat p) (Z.of_nat (length mem))); [|lia].
  cbn [andb]. by rewrite Nat2Z.id.
Qed.

(** A block written over a list, read back. *)
Lemma lookup_inserts {A : Type} (l k : list A) (i j : nat) :
  (i + length k ≤ length l)%nat →
  list_inserts i k l !! j
  = if bool_decide (i ≤ j < i + length k)%nat then k !! (j - i)%nat else l !! j.
Proof.
  intros Hle. case_bool_decide as Hj.
  - apply list_lookup_inserts; lia.
  - destruct (decide (j < i)%nat).
    + by apply list_lookup_inserts_lt.
    + apply list_lookup_inserts_ge. lia.
Qed.

(** The string at an offset, from the bytes found there. *)
Lemma string_at_lookup (mem s : list byte) (p : nat) :
  NUL ∉ s →
  (∀ j, (j < length s)%nat → mem !! (p + j)%nat = s !! j) →
  mem !! (p + length s)%nat = Some NUL →
  string_at mem (Ptr p) = Some s.
Proof.
  intros Hs Hbytes Hnul.
  assert (Hdrop : drop p mem = s ++ NUL :: drop (S (length s)) (drop p mem)).
  { apply list_eq. intros j. rewrite lookup_drop.
    destruct (decide (j < length s)%nat) as [Hlt|Hge].
    - rewrite lookup_app_l by done. by apply Hbytes.
    - rewrite lookup_app_r by lia.
      destruct (j - length s)%nat as [|k] eqn:Ek.
      + replace j with (length s) by lia. done.
      + rewrite lookup_cons, !lookup_drop. f_equal. lia. }
  cbn [string_at]. rewrite Hdrop, strlen_app_nul by done.
  cbn [mbind option_bind]. by rewrite take_app_length.
Qed.

(** ** setproctitle: the memory it leaves *)

Lemma spt_min_nat (x y : nat) :
  Spt.spt_min (Z.of_nat x) (Z.of_nat y) = Z.of_nat (x `min` y).
Proof. unfold Spt.spt_min. destruct (Z.ltb_spec (Z.of_nat x) (Z.of_nat y)); lia. Qed.

Lemma size_t_small (x : Z) : 0 ≤ x < 2 ^ 64 → Spt.size_t x = x.
Proof. intros Hx. unfold Spt.size_t. by rewrite Z.mod_small. Qed.

Lemma snprintf_buf_take (junk t : list byte) (k : nat) :
  (k ≤ length t)%nat → (k ≤ 255)%nat →
  take k (write_at 0 (take (Z.to_nat Spt.SPT_MAXTITLE) t ++ [NUL]) junk) = take k t.
Proof.
  intros Hk Hmax. unfold write_at. rewrite resize_0. cbn [app].
  change (Z.to_nat Spt.SPT_MAXTITLE) with 255%nat.
  rewrite take_app_le by (rewrite length_app, length_take; cbn [length]; lia).
  rewrite take_app_le by (rewrite length_take; lia).
  rewrite take_take. f_equal. lia.
Qed.

Lemma snprintf_buf_length (junk t : list byte) :
  (length t `min` 255 <
   length (write_at 0 (take (Z.to_nat Spt.SPT_MAXTITLE) t ++ [NUL]) junk))%nat.
Proof.
  unfold write_at. rewrite resize_0. cbn [app].
  change (Z.to_nat Spt.SPT_MAXTITLE) with 255%nat.
  rewrite !length_app, length_take. cbn [length]. lia.
Qed.

(** The memory and the [SPT] a call of [spt_setproctitle] with a
    non-empty title leaves, on a title space that is set up. *)
Lemma spt_setproctitle_run (junk t : list byte) (SPT : Spt.spt) (mem : list byte)
    (b n e : nat) :
  title_space SPT mem b n e → t ≠ [] → Z.of_nat (length t) ≤ Spt.INT_MAX →
  let L := title_fit t b e in
  let z := if Spt.SPT_reset SPT =? 0 then (e - b)%nat else (256 `min` (e - b))%nat in
  let m1 := list_inserts b (replicate z NUL) mem in
  let m2 := list_inserts b (take L t) m1 in
  let m3 :=
    if (L <? n - b)%nat then
      list_inserts (b + L) (replicate (n - b - L) Spt.SPACE) m2
    else if (L =? n - b)%nat && (n + 1 <? e)%nat then
      <[S n := NUL]> (<[n := Spt.SPACE]> m2)
    else m2 in
  Spt.spt_setproctitle junk t SPT mem
  = Done (Spt.set_reset (if Spt.SPT_reset SPT =? 0 then 1 else Spt.SPT_reset SPT) SPT,
          m3).
Proof.
  intros (Hbase & Hnul & Hend & Hbn & He & Hmem & _) Hne Hlen L z m1 m2 m3.
  assert (HL : (L ≤ length t ∧ L ≤ 255 ∧ L < e - b)%nat)
    by (unfold L, title_fit; lia).
  assert (Hlen' : Z.of_nat (length t) < 2 ^ 31)
    by (unfold Spt.INT_MAX in Hlen; lia).
  unfold Spt.spt_setproctitle, Spt.setproctitle. rewrite Hbase, Hend, Hnul.
  cbn [mbind Spt.result_bind]. unfold Spt.snprintf_s.
  destruct (Z.leb_spec (Z.of_nat (length t)) Spt.INT_MAX) as [_|?]; [|lia].
  destruct (Z.leb_spec (Z.of_nat (length t)) 0) as [?|_];
    [destruct t; [done|simpl in *; lia]|].
  replace (Z.of_nat e - Z.of_nat b) with (Z.of_nat (e - b)) by lia.
  rewrite !(size_t_small (Z.of_nat (e - b))) by lia.
  change Spt.sizeof_buf with (Z.of_nat 256). rewrite spt_min_nat.
  replace (Z.of_nat (256 `min` (e - b)) - 1)
    with (Z.of_nat (256 `min` (e - b) - 1)) by lia.
  rewrite !(size_t_small (Z.of_nat _)) by lia.
  rewrite spt_min_nat. fold (title_fit t b e). fold L.
  rewrite int_of_size_t_small by lia.
  rewrite (size_t_small (Z.of_nat L)) by lia.
  assert (Hm1 : (if Spt.SPT_reset SPT =? 0
                 then mem0 ← Spt.memset mem (Z.of_nat b) NUL (Z.of_nat (e - b));
                      Done (mem0, 1)
                 else mem0 ← Spt.memset mem (Z.of_nat b) NUL (Z.of_nat (256 `min` (e - b)));
                      Done (mem0, Spt.SPT_reset SPT))
                = Done (m1, if Spt.SPT_reset SPT =? 0 then 1 else Spt.SPT_reset SPT)).
  { unfold m1, z. destruct (Spt.SPT_reset SPT =? 0);
      rewrite spt_memset_ok by lia; done. }
  rewrite Hm1. cbn [mbind Spt.result_bind].
  assert (Hlen1 : length m1 = length mem) by apply length_inserts.
  rewrite spt_memcpy_ok
    by (rewrite ?Hlen1; pose proof (snprintf_buf_length junk t); lia).
  rewrite snprintf_buf_take by lia. fold m2.
  assert (Hlen2 : length m2 = length mem)
    by (unfold m2; by rewrite length_inserts).
  cbn [mbind Spt.result_bind].
  replace (Z.of_nat b + Z.of_nat L) with (Z.of_nat (b + L)) by lia.
  unfold m3.
  destruct (Nat.ltb_spec L (n - b)) as [Hlt|Hge].
  - destruct (Z.ltb_spec (Z.of_nat (b + L)) (Z.of_nat n)); [|lia].
    replace (Z.of_nat n - Z.of_nat (b + L)) with (Z.of_nat (n - b - L)) by lia.
    rewrite size_t_small, spt_memset_ok by lia. done.
  - destruct (Z.ltb_spec (Z.of_nat (b + L)) (Z.of_nat n)); [lia|].
    destruct (Nat.eqb_spec L (n - b)) as [Heq|Hneq].
    + destruct (Z.eqb_spec (Z.of_nat (b + L)) (Z.of_nat n)); [|lia].
      replace (Z.of_nat (b + L) + 1) with (Z.of_nat (S n)) by lia.
      destruct (Nat.ltb_spec (n + 1) e) as [Hroom|Hnone].
      * destruct (Z.ltb_spec (Z.of_nat (S n)) (Z.of_nat e)); [|lia].
        cbn [andb]. rewrite spt_store_ok by lia. cbn [mbind Spt.result_bind].
        rewrite spt_store_ok by (rewrite length_insert; lia). done.
      * destruct (Z.ltb_spec (Z.of_nat (S n)) (Z.of_nat e)); [lia|]. done.
    + destruct (Z.eqb_spec (Z.of_nat (b + L)) (Z.of_nat n)); [lia|]. done.
Qed.

(** Reading the memory [spt_setproctitle] leaves. *)
Lemma lookup_zero_fill (mem : list byte) (b z j : nat) :
  (b + z ≤ length mem)%nat →
  list_inserts b (replicate z NUL) mem !! j
  = if bool_decide (b ≤ j < b + z)%nat then Some NUL else mem !! j.
Proof.
  intros Hle. rewrite lookup_inserts by (rewrite length_replicate; lia).
  rewrite length_replicate. case_bool_decide; [|done].
  apply lookup_replicate_2. lia.
Qed.

Lemma lookup_title_copy (m1 t : list byte) (b L j : nat) :
  (b + L ≤ length m1)%nat → (L ≤ length t)%nat →
  list_inserts b (take L t) m1 !! j
  = if bool_decide (b ≤ j < b + L)%nat then t !! (j - b)%nat else m1 !! j.
Proof.
  intros Hle HL. rewrite lookup_inserts by (rewrite length_take; lia).
  rewrite length_take, Nat.min_l by done. case_bool_decide; [|done].
  apply lookup_take_lt. lia.
Qed.

Lemma space_not_NUL : Spt.SPACE ≠ NUL.
Proof. discriminate. Qed.

Lemma not_elem_of_take_NUL (t : list byte) (k : nat) : NUL ∉ t → NUL ∉ take k t.
Proof.
  intros Ht Hin. apply Ht. apply elem_of_take in Hin as (i & Hi & _).
  by eapply list_elem_of_lookup_2.
Qed.

(** The title a call leaves at [base]. *)
Lemma spt_title_shown (junk t : list byte) (SPT : Spt.spt) (mem : list byte)
    (b n e : nat) :
  title_space SPT mem b n e → t ≠ [] → NUL ∉ t →
  Z.of_nat (length t) ≤ Spt.INT_MAX →
  ∃ SPT' mem',
    Spt.spt_setproctitle junk t SPT mem = Done (SPT', mem')
    ∧ string_at mem' (Ptr b)
      = Some (let L := title_fit t b e in
              if (L <? n - b)%nat then
                take L t ++ replicate (n - b - L) Spt.SPACE
              else if (L =? n - b)%nat && (n + 1 <? e)%nat then
                take L t ++ [Spt.SPACE]
              else take L t).
Proof.
  intros Hspace Hne Hnul Hlen.
  rewrite (spt_setproctitle_run junk t SPT mem b n e Hspace Hne Hlen).
  destruct Hspace as (_ & _ & _ & Hbn & He & _ & Hkeep).
  eexists _, _. split; [reflexivity|]. cbv zeta.
  set (L := title_fit t b e).
  assert (HL : (L ≤ length t ∧ L ≤ 255 ∧ L < e - b)%nat)
    by (unfold L, title_fit; lia).
  set (z := if Spt.SPT_reset SPT =? 0 then (e - b)%nat else (256 `min` (e - b))%nat).
  assert (Hz : (L < z ∧ z ≤ e - b)%nat)
    by (unfold z; destruct (Spt.SPT_reset SPT =? 0); lia).
  set (m1 := list_inserts b (replicate z NUL) mem).
  set (m2 := list_inserts b (take L t) m1).
  assert (Hlen1 : length m1 = length mem) by apply length_inserts.
  assert (Hlen2 : length m2 = length mem)
    by (unfold m2; by rewrite length_inserts).
  assert (Hm2 : ∀ j, m2 !! j
                     = if bool_decide (b ≤ j < b + L)%nat then t !! (j - b)%nat
                       else if bool_decide (b ≤ j < b + z)%nat then Some NUL
                       else mem !! j).
  { intros j. unfold m2. rewrite lookup_title_copy by lia.
    unfold m1. by rewrite lookup_zero_fill by lia. }
  assert (Hn : (L ≤ n - b)%nat → m2 !! n = Some NUL).
  { intros Hle. rewrite Hm2.
    destruct (decide (L = n - b)%nat) as [Heq|Hneq].
    - rewrite bool_decide_eq_false_2 by lia. by rewrite bool_decide_eq_true_2 by lia.
    - rewrite bool_decide_eq_false_2 by lia. case_bool_decide as Hin; [done|].
      apply Hkeep; [|unfold z in *; destruct (Spt.SPT_reset SPT =? 0); lia].
      unfold z in *. destruct (Z.eqb_spec (Spt.SPT_reset SPT) 0); [lia|done]. }
  destruct (Nat.ltb_spec L (n - b)) as [Hlt|Hge].
  - apply string_at_lookup.
    + rewrite not_elem_of_app. split; [by apply not_elem_of_take_NUL|].
      intros Hin. apply elem_of_replicate in Hin as [Hin _].
      by apply space_not_NUL.
    + intros j. rewrite length_app, length_take, length_replicate. intros Hj.
      rewrite lookup_inserts by (rewrite length_replicate; lia).
      rewrite length_replicate.
      destruct (decide (j < L)%nat) as [HjL|HjL].
      * rewrite bool_decide_eq_false_2 by lia. rewrite Hm2.
        rewrite bool_decide_eq_true_2 by lia.
        rewrite lookup_app_l by (rewrite length_take; lia).
        rewrite lookup_take_lt by lia. f_equal. lia.
      * rewrite bool_decide_eq_true_2 by lia.
        rewrite lookup_app_r by (rewrite length_take; lia).
        rewrite !lookup_replicate_2; [done|rewrite length_take; lia|lia].
    + rewrite length_app, length_take, length_replicate.
      replace (b + (L `min` length t + (n - b - L)))%nat with n by lia.
      rewrite lookup_inserts by (rewrite length_replicate; lia).
      rewrite length_replicate, bool_decide_eq_false_2 by lia. apply Hn. lia.
  - destruct (Nat.eqb_spec L (n - b)) as [Heq|Hneq];
      [destruct (Nat.ltb_spec (n + 1) e) as [Hroom|Hnone]|]; cbn [andb].
    + apply string_at_lookup.
      * rewrite not_elem_of_app. split; [by apply not_elem_of_take_NUL|].
        rewrite list_elem_of_singleton. intros Heq'. by apply space_not_NUL.
      * intros j. rewrite length_app, length_take. cbn [length]. intros Hj.
        destruct (decide (j < L)%nat) as [HjL|HjL].
        -- rewrite !list_lookup_insert_ne by lia. rewrite Hm2.
           rewrite bool_decide_eq_true_2 by lia.
           rewrite lookup_app_l by (rewrite length_take; lia).
           rewrite lookup_take_lt by lia. f_equal. lia.
        -- replace (b + j)%nat with n by lia.
           rewrite list_lookup_insert_ne by lia.
           rewrite list_lookup_insert_eq by lia.
           rewrite lookup_app_r by (rewrite length_take; lia).
           rewrite length_take. by replace (j - L `min` length t)%nat with 0%nat by lia.
      * rewrite length_app, length_take. cbn [length].
        replace (b + (L `min` length t + 1))%nat with (S n) by lia.
        apply list_lookup_insert_eq. rewrite length_insert. lia.
    + apply string_at_lookup.
      * by apply not_elem_of_take_NUL.
      * intros j. rewrite length_take. intros Hj. rewrite Hm2.
        rewrite bool_decide_eq_true_2 by lia.
        rewrite lookup_take_lt by lia. f_equal. lia.
      * rewrite length_take. replace (b + L `min` length t)%nat with n by lia.
        apply Hn. lia.
    + apply string_at_lookup.
      * by apply not_elem_of_take_NUL.
      * intros j. rewrite length_take. intros Hj. rewrite Hm2.
        rewrite bool_decide_eq_true_2 by lia.
        rewrite lookup_take_lt by lia. f_equal. lia.
      * rewrite length_take, Hm2. rewrite bool_decide_eq_false_2 by lia.
        by rewrite bool_decide_eq_true_2 by lia.
Qed.

(** A call writes inside the title space only, and leaves it set up. *)
Lemma spt_title_frame (junk t : list byte) (SPT : Spt.spt) (mem : list byte)
    (b n e : nat) :
  title_space SPT mem b n e → t ≠ [] → Z.of_nat (length t) ≤ Spt.INT_MAX →
  ∃ SPT' mem',
    Spt.spt_setproctitle junk t SPT mem = Done (SPT', mem')
    ∧ length mem' = length mem
    ∧ (∀ i, (i < b ∨ e ≤ i)%nat → mem' !! i = mem !! i)
    ∧ title_space SPT' mem' b n e
    ∧ Spt.SPT_reset SPT' ≠ 0
    ∧ Spt.SPT_arg0 SPT' = Spt.SPT_arg0 SPT
    ∧ Spt.SPT_env0 SPT' = Spt.SPT_env0 SPT.
Proof.
  intros Hspace Hne Hlen.
  rewrite (spt_setproctitle_run junk t SPT mem b n e Hspace Hne Hlen).
  destruct Hspace as (Hbase & Hnul & Hend & Hbn & He & Hmem & Hkeep).
  eexists _, _. split; [reflexivity|].
  set (L := title_fit t b e).
  assert (HL : (L ≤ length t ∧ L ≤ 255 ∧ L < e - b)%nat)
    by (unfold L, title_fit; lia).
  set (z := if Spt.SPT_reset SPT =? 0 then (e - b)%nat else (256 `min` (e - b))%nat).
  assert (Hz : (L < z ∧ z ≤ e - b)%nat)
    by (unfold z; destruct (Spt.SPT_reset SPT =? 0); lia).
  set (m1 := list_inserts b (replicate z NUL) mem).
  set (m2 := list_inserts b (take L t) m1).
  set (m3 := if (L <? n - b)%nat then _ else _).
  assert (Hlen1 : length m1 = length mem) by apply length_inserts.
  assert (Hlen2 : length m2 = length mem)
    by (unfold m2; by rewrite length_inserts).
  assert (Hm2 : ∀ j, m2 !! j
                     = if bool_decide (b ≤ j < b + L)%nat then t !! (j - b)%nat
                       else if bool_decide (b ≤ j < b + z)%nat then Some NUL
                       else mem !! j).
  { intros j. unfold m2. rewrite lookup_title_copy by lia.
    unfold m1. by rewrite lookup_zero_fill by lia. }
  assert (Hlen3 : length m3 = length mem).
  { unfold m3. destruct (L <? n - b)%nat; [by rewrite length_inserts|].
    destruct ((L =? n - b)%nat && (n + 1 <? e)%nat); [|done].
    by rewrite !length_insert. }
  assert (Hm3 : ∀ j, (j < b + L ∨ (n < j ∧ (L < n - b ∨ S n < j)))%nat →
                     m3 !! j = m2 !! j).
  { intros j Hj. unfold m3. destruct (Nat.ltb_spec L (n - b)).
    - rewrite lookup_inserts by (rewrite length_replicate; lia).
      rewrite length_replicate. by rewrite bool_decide_eq_false_2 by lia.
    - destruct ((L =? n - b)%nat && (n + 1 <? e)%nat) eqn:Ec; [|done].
      apply andb_prop in Ec as [Heq _]. apply Nat.eqb_eq in Heq.
      rewrite !list_lookup_insert_ne by lia. done. }
  assert (Hreset : (if Spt.SPT_reset SPT =? 0 then 1 else Spt.SPT_reset SPT) ≠ 0)
    by (destruct (Z.eqb_spec (Spt.SPT_reset SPT) 0); lia).
  split_and!; try done.
  - intros i Hi. transitivity (m2 !! i).
    + unfold m3. destruct (Nat.ltb_spec L (n - b)).
      * rewrite lookup_inserts by (rewrite length_replicate; lia).
        rewrite length_replicate. by rewrite bool_decide_eq_false_2 by lia.
      * destruct ((L =? n - b)%nat && (n + 1 <? e)%nat) eqn:Ec; [|done].
        apply andb_prop in Ec as [_ Hroom]. apply Nat.ltb_lt in Hroom.
        rewrite !list_lookup_insert_ne by lia. done.
    + rewrite Hm2. by rewrite !bool_decide_eq_false_2 by lia.
  - unfold title_space. cbn [Spt.set_reset Spt.SPT_base Spt.SPT_nul Spt.SPT_end
                              Spt.SPT_reset].
    split_and!; try done; try lia.
    intros _ Hfar. unfold m3.
    destruct (Nat.ltb_spec L (n - b)) as [Hlt|Hge]; [|lia].
    rewrite lookup_inserts by (rewrite length_replicate; lia).
    rewrite length_replicate, bool_decide_eq_false_2 by lia.
    rewrite Hm2, bool_decide_eq_false_2 by lia.
    case_bool_decide as Hin; [done|].
    apply Hkeep; [|done].
    unfold z in *. destruct (Z.eqb_spec (Spt.SPT_reset SPT) 0); [lia|done].
Qed.

(** ** spt_find_argv_from_env on the strings the kernel laid out *)

Lemma spt_load_app (front back : list byte) (x : byte) :
  Spt.load (front ++ x :: back) (Z.of_nat (length front)) = Done x.
Proof.
  unfold Spt.load. destruct (Z.ltb_spec (Z.of_nat (length front)) 0); [lia|].
  rewrite Nat2Z.id, lookup_app_r, Nat.sub_diag by lia. done.
Qed.

(** Equal lists, up to the nesting of their concatenations. *)
Ltac app_norm :=
  repeat first [rewrite <- app_assoc | progress cbn [app]]; try done.

(** Walking back over a string to the terminator in front of it. *)
Lemma scan_back_string (s : list byte) :
  ∀ (front back : list byte) (limit : Z) (fuel : nat),
    NUL ∉ s → limit < Z.of_nat (length front) → (length s ≤ fuel)%nat →
    Spt.scan_back fuel (front ++ NUL :: s ++ back) limit
                  (Z.of_nat (length front + length s))
    = Done (Z.of_nat (length front)).
Proof.
  induction s as [|x s IH] using rev_ind; intros front back limit fuel Hs Hlim Hfuel.
  - rewrite Nat.add_0_r. destruct fuel; cbn [Spt.scan_back app];
      rewrite spt_load_app; cbn [mbind Spt.result_bind];
      by rewrite bool_decide_eq_true_2.
  - apply not_elem_of_app in Hs as [Hs Hx].
    rewrite list_elem_of_singleton in Hx.
    destruct fuel as [|fuel]; [rewrite length_app in Hfuel; simpl in Hfuel; lia|].
    cbn [Spt.scan_back].
    replace (front ++ NUL :: (s ++ [x]) ++ back)
      with ((front ++ NUL :: s) ++ x :: back)
      by app_norm.
    replace (length front + length (s ++ [x]))%nat
      with (length (front ++ NUL :: s))
      by (rewrite !length_app; simpl; lia).
    rewrite spt_load_app. cbn [mbind Spt.result_bind].
    rewrite bool_decide_eq_false_2 by congruence. cbn [negb andb].
    destruct (Z.gtb_spec (Z.of_nat (length (front ++ NUL :: s))) limit) as [_|Hle];
      [|rewrite length_app in Hle; lia].
    replace (Z.of_nat (length (front ++ NUL :: s)) - 1)
      with (Z.of_nat (length front + length s))
      by (rewrite length_app; simpl; lia).
    rewrite <- app_assoc. cbn [app].
    replace (s ++ x :: back) with (s ++ ([x] ++ back)) by done.
    apply IH; [done..|]. rewrite length_app in Hfuel. simpl in Hfuel. lia.
Qed.

Lemma entry_offsets_app (base : nat) (ss1 ss2 : list (list byte)) :
  entry_offsets base (ss1 ++ ss2)
  = entry_offsets base ss1 ++ entry_offsets (base + length (nul_join ss1)) ss2.
Proof.
  revert base; induction ss1 as [|s ss1 IH]; intros base.
  - cbn. by rewrite Nat.add_0_r.
  - cbn [app entry_offsets]. rewrite IH, nul_join_cons, length_app. cbn [length].
    do 3 f_equal. lia.
Qed.

Lemma nul_join_app (ss1 ss2 : list (list byte)) :
  nul_join (ss1 ++ ss2) = nul_join ss1 ++ nul_join ss2.
Proof. unfold nul_join. by rewrite fmap_app, concat_app. Qed.

Lemma nul_join_snoc (ss : list (list byte)) (s : list byte) :
  nul_join (ss ++ [s]) = nul_join ss ++ s ++ [NUL].
Proof.
  rewrite nul_join_app. unfold nul_join at 2. cbn [fmap list_fmap concat].
  by rewrite app_nil_r.
Qed.

(** The memory up to the end of some arguments ends in a terminator. *)
Lemma terminated_front (front : list byte) (ss : list (list byte)) :
  ∃ F, front ++ NUL :: nul_join ss = F ++ [NUL]
       ∧ length F = (length front + length (nul_join ss))%nat.
Proof.
  destruct ss as [|s ss _] using rev_ind.
  - exists front. cbn. by rewrite Nat.add_0_r.
  - exists (front ++ NUL :: nul_join ss ++ s). rewrite nul_join_snoc. split.
    + app_norm.
    + rewrite !length_app. cbn [length]. rewrite !length_app. cbn [length]. lia.
Qed.

(** The loop of [spt_find_argv_from_env] over the arguments after the
    first: [front] is the memory up to the terminator of argv[0], not
    included. *)
Lemma find_loop_args (ss : list (list byte)) :
  ∀ (front rest : list byte) (limit : Z) (buf : list cell),
    Forall (λ s, NUL ∉ s) ss → limit < Z.of_nat (length front) →
    (length ss < length buf)%nat →
    Spt.find_loop (length ss) (front ++ NUL :: nul_join ss ++ rest) limit
                  (Z.of_nat (length front + length (nul_join ss))) buf
    = Done (Some (Z.of_nat (length front),
                  list_inserts 1 (Ptr <$> entry_offsets (S (length front)) ss) buf)).
Proof.
  induction ss as [|s ss IH] using rev_ind; intros front rest limit buf Hss Hlim Hbuf.
  - cbn. by rewrite Nat.add_0_r.
  - apply Forall_app in Hss as [Hss Hs]. rewrite Forall_singleton in Hs.
    rewrite length_app in *. cbn [length] in *.
    replace (length ss + 1)%nat with (S (length ss)) by lia.
    cbn [Spt.find_loop].
    destruct (terminated_front front ss) as (F & HF & HlenF).
    assert (Hmem : front ++ NUL :: nul_join (ss ++ [s]) ++ rest
                   = (F ++ NUL :: s) ++ NUL :: rest).
    { rewrite nul_join_snoc.
      replace (front ++ NUL :: (nul_join ss ++ s ++ [NUL]) ++ rest)
        with ((front ++ NUL :: nul_join ss) ++ s ++ NUL :: rest)
        by app_norm.
      rewrite HF. app_norm. }
    assert (Hptr : Z.of_nat (length front + length (nul_join (ss ++ [s])))
                   = Z.of_nat (length (F ++ NUL :: s))).
    { rewrite nul_join_snoc, !length_app. cbn [length]. lia. }
    rewrite Hmem, Hptr, spt_load_app. cbn [mbind Spt.result_bind].
    rewrite bool_decide_eq_true_2 by done. cbn [negb].
    replace (Z.of_nat (length (F ++ NUL :: s)) - 1)
      with (Z.of_nat (length F + length s))
      by (rewrite length_app; cbn [length]; lia).
    rewrite <- app_assoc. cbn [app].
    rewrite scan_back_string by (done || lia). cbn [mbind Spt.result_bind].
    destruct (Z.leb_spec (Z.of_nat (length F)) limit); [lia|].
    replace (F ++ NUL :: s ++ NUL :: rest)
      with (front ++ NUL :: nul_join ss ++ (s ++ NUL :: rest))
      by (replace (front ++ NUL :: nul_join ss ++ s ++ NUL :: rest)
            with ((front ++ NUL :: nul_join ss) ++ s ++ NUL :: rest)
            by app_norm;
          rewrite HF; app_norm).
    rewrite HlenF, IH by (done || rewrite ?length_insert; lia).
    do 3 f_equal. rewrite entry_offsets_app, fmap_app.
    cbn [entry_offsets fmap list_fmap].
    replace (Z.to_nat (Z.of_nat (length front + length (nul_join ss)) + 1))
      with (S (length front) + length (nul_join ss))%nat by lia.
    apply list_eq. intros j.
    set (offs := entry_offsets (S (length front)) ss).
    assert (Hoffs : length (Ptr <$> offs) = length ss)
      by (unfold offs; by rewrite length_fmap, entry_offsets_length).
    rewrite !lookup_inserts
      by (rewrite ?length_insert, ?length_app, ?Hoffs; cbn [length]; lia).
    rewrite length_app, Hoffs. cbn [length].
    destruct (decide (j = S (length ss))) as [->|Hj].
    + rewrite bool_decide_eq_false_2 by lia.
      rewrite bool_decide_eq_true_2 by lia.
      rewrite lookup_app_r by (rewrite Hoffs; lia).
      rewrite Hoffs, list_lookup_insert_eq by lia.
      by replace (S (length ss) - 1 - length ss)%nat with 0%nat by lia.
    + rewrite list_lookup_insert_ne by lia.
      case_bool_decide as Hin.
      * rewrite bool_decide_eq_true_2 by lia.
        rewrite lookup_app_l by (rewrite Hoffs; lia). done.
      * by rewrite bool_decide_eq_false_2 by lia.
Qed.

Lemma strcmp_same (s back : list byte) :
  NUL ∉ s → Spt.strcmp (s ++ NUL :: back) (s ++ [NUL]) = Done 0.
Proof.
  induction s as [|x s IH]; intros Hs; cbn [app Spt.strcmp].
  - by rewrite !decide_True.
  - apply not_elem_of_cons in Hs as [Hx Hs].
    rewrite decide_True by done. rewrite decide_False by congruence. by apply IH.
Qed.

(** The strings of a vector whose entries point at NUL-terminated entries
    in the middle of the memory. *)
Lemma vector_strings_inside (ss : list (list byte)) :
  ∀ pre rest : list byte,
    Forall (λ s, NUL ∉ s) ss →
    vector_strings (pre ++ nul_join ss ++ rest)
                   ((Ptr <$> entry_offsets (length pre) ss) ++ [Null]) = Some ss.
Proof.
  induction ss as [|s ss IH]; intros pre rest Hss; [done|].
  apply Forall_cons in Hss as [Hs Hss].
  cbn [entry_offsets fmap list_fmap app vector_strings string_at].
  rewrite drop_app_length, nul_join_cons, <- app_assoc. cbn [app].
  rewrite strlen_app_nul by done.
  cbn [mbind option_bind]. rewrite take_app_length.
  specialize (IH (pre ++ s ++ [NUL]) rest Hss).
  replace ((pre ++ s ++ [NUL]) ++ nul_join ss ++ rest)
    with (pre ++ s ++ NUL :: nul_join ss ++ rest) in IH by app_norm.
  replace (length (pre ++ s ++ [NUL])) with (length pre + (length s + 1))%nat in IH
    by (rewrite !length_app; simpl; lia).
  change (list_fmap nat cell Ptr) with (fmap (M:=list) Ptr).
  by rewrite IH.
Qed.

(** The vector [spt_find_argv_from_env] builds when the arguments lie, one
    after the other, right before the first environment string. *)
Lemma spt_find_argv_layout (SPT : Spt.spt) (pre rest a0 : list byte)
    (ss : list (list byte)) :
  NUL ∉ a0 → Forall (λ s, NUL ∉ s) ss →
  Spt.SPT_env0 SPT = Some (Z.of_nat (length (pre ++ nul_join (a0 :: ss)))) →
  Z.of_nat (length (nul_join (a0 :: ss))) < 8192 →
  Spt.spt_find_argv_from_env SPT (pre ++ nul_join (a0 :: ss) ++ rest) true
                             (Z.of_nat (length (a0 :: ss))) a0
  = Done (Some ((Ptr <$> entry_offsets (length pre) (a0 :: ss)) ++ [Null])).
Proof.
  intros Ha0 Hss Henv Hsmall. unfold Spt.spt_find_argv_from_env. cbn [negb].
  destruct (Z.ltb_spec (Z.of_nat (length (a0 :: ss))) 0); [lia|].
  rewrite Henv. cbv zeta.
  rewrite nul_join_cons in *. rewrite !length_app in *. cbn [length] in *.
  replace (Z.to_nat (Z.of_nat (S (length ss)) - 1)) with (length ss) by lia.
  replace (pre ++ (a0 ++ NUL :: nul_join ss) ++ rest)
    with ((pre ++ a0) ++ NUL :: nul_join ss ++ rest) by app_norm.
  replace (Z.of_nat (length pre + (length a0 + S (length (nul_join ss)))) - 1)
    with (Z.of_nat (length (pre ++ a0) + length (nul_join ss)))
    by (rewrite length_app; lia).
  rewrite find_loop_args
    by (done || rewrite ?length_app, ?length_insert, ?length_replicate; lia).
  cbn [mbind Spt.result_bind].
  replace (Z.of_nat (length (pre ++ a0)) - Z.of_nat (length a0))
    with (Z.of_nat (length pre)) by (rewrite length_app; lia).
  destruct (Z.leb_spec (Z.of_nat (length pre))
              (Z.of_nat (length pre + (length a0 + S (length (nul_join ss)))) - 8192));
    [lia|].
  unfold Spt.strcmp_at. destruct (Z.ltb_spec (Z.of_nat (length pre)) 0); [lia|].
  rewrite Nat2Z.id, <- app_assoc, drop_app_length, strcmp_same by done.
  cbn [mbind Spt.result_bind Z.eqb negb]. do 2 f_equal.
  cbn [entry_offsets fmap list_fmap app].
  replace (Z.to_nat (Z.of_nat (S (length ss)) + 1)) with (S (S (length ss))) by lia.
  replace (Z.to_nat (Z.of_nat (S (length ss)))) with (S (length ss)) by lia.
  replace (S (length (pre ++ a0))) with (length pre + (length a0 + 1))%nat
    by (rewrite length_app; lia).
  set (offs := entry_offsets (length pre + (length a0 + 1)) ss).
  assert (Hoffs : length (Ptr <$> offs) = length ss)
    by (unfold offs; by rewrite length_fmap, entry_offsets_length).
  apply list_eq. intros [|j].
  { rewrite list_lookup_insert_eq; [done|].
    rewrite length_inserts, length_insert, length_replicate. lia. }
  rewrite list_lookup_insert_ne by lia. rewrite lookup_cons.
  rewrite lookup_inserts
    by (rewrite length_insert, length_replicate, Hoffs; lia).
  rewrite Hoffs. replace (S j - 1)%nat with j by lia.
  destruct (decide (j < length ss)%nat) as [Hj|Hj].
  - rewrite bool_decide_eq_true_2 by lia.
    by rewrite lookup_app_l by (rewrite Hoffs; lia).
  - rewrite bool_decide_eq_false_2 by lia.
    rewrite lookup_app_r by (rewrite Hoffs; lia). rewrite Hoffs.
    destruct (decide (j = length ss)) as [->|Hne].
    + rewrite list_lookup_insert_eq by (rewrite length_replicate; lia).
      by rewrite Nat.sub_diag.
    + rewrite list_lookup_insert_ne by lia.
      rewrite (proj1 (lookup_replicate_None _ _ _)) by lia.
      symmetry. apply lookup_ge_None_2. simpl. lia.
Qed.

(** ** spt_init2 on the strings the kernel laid out *)

Lemma entry_offsets_lookup (ss : list (list byte)) :
  ∀ (base i : nat) (s : list byte),
    ss !! i = Some s →
    entry_offsets base ss !! i = Some (base + length (nul_join (take i ss)))%nat.
Proof.
  induction ss as [|s0 ss IH]; intros base i s Hi; [done|].
  destruct i as [|i]; cbn [entry_offsets take lookup list_lookup].
  - cbn. by rewrite Nat.add_0_r.
  - change (list_lookup i ?l) with (l !! i).
    rewrite (IH _ i s) by done. rewrite nul_join_cons, length_app. cbn [length].
    f_equal. lia.
Qed.

Lemma cell_value_entry (offs : list nat) (i o : nat) :
  offs !! i = Some o →
  Spt.cell_value ((Ptr <$> offs) ++ [Null]) (Z.of_nat i) = Done (Some (Z.of_nat o)).
Proof.
  intros Hi. unfold Spt.cell_value.
  destruct (Z.ltb_spec (Z.of_nat i) 0); [lia|]. rewrite Nat2Z.id.
  rewrite lookup_app_l by (rewrite length_fmap; by eapply lookup_lt_Some).
  by rewrite list_lookup_fmap, Hi.
Qed.

Lemma cell_value_sentinel (offs : list nat) :
  Spt.cell_value ((Ptr <$> offs) ++ [Null]) (Z.of_nat (length offs)) = Done None.
Proof.
  unfold Spt.cell_value.
  destruct (Z.ltb_spec (Z.of_nat (length offs)) 0); [lia|]. rewrite Nat2Z.id.
  rewrite lookup_app_r by (rewrite length_fmap; lia).
  by rewrite length_fmap, Nat.sub_diag.
Qed.

Lemma strlen_at_entry (pre rest : list byte) (ss : list (list byte)) (i : nat)
    (s : list byte) :
  Forall (λ s, NUL ∉ s) ss → ss !! i = Some s →
  Spt.strlen_at (pre ++ nul_join ss ++ rest)
                (Z.of_nat (length pre + length (nul_join (take i ss))))
  = Done (Z.of_nat (length s)).
Proof.
  intros Hss Hi. unfold Spt.strlen_at.
  destruct (Z.ltb_spec (Z.of_nat (length pre + length (nul_join (take i ss)))) 0);
    [lia|].
  rewrite Nat2Z.id.
  assert (Hsplit : nul_join ss
                   = nul_join (take i ss) ++ s ++ NUL :: nul_join (drop (S i) ss)).
  { rewrite <- (take_drop i ss) at 1.
    by rewrite nul_join_app, (drop_S ss s i Hi), nul_join_cons. }
  replace (pre ++ nul_join ss ++ rest)
    with ((pre ++ nul_join (take i ss)) ++ s ++ NUL :: nul_join (drop (S i) ss) ++ rest)
    by (rewrite Hsplit; app_norm).
  rewrite <- length_app, drop_app_length.
  rewrite strlen_app_nul; [done|].
  by apply (Forall_lookup_1 _ _ _ _ Hss Hi).
Qed.

(** The first loop of [spt_init2] from the argument [i] on, with [end] at
    the start of that argument. *)
Lemma argv_loop_layout (pre rest : list byte) (ss : list (list byte)) (k : nat) :
  ∀ (i fuel : nat),
    Forall (λ s, NUL ∉ s) ss → (i + k = length ss)%nat → (k < fuel)%nat →
    Spt.argv_loop fuel (pre ++ nul_join ss ++ rest) (Z.of_nat (length ss))
                  ((Ptr <$> entry_offsets (length pre) ss) ++ [Null])
                  (Z.of_nat i)
                  (Z.of_nat (length pre + length (nul_join (take i ss))))
    = Done (Z.of_nat (length pre + length (nul_join ss))).
Proof.
  induction k as [|k IH]; intros i fuel Hss Hi Hfuel;
    (destruct fuel as [|fuel]; [lia|]); cbn [Spt.argv_loop].
  - destruct (Z.ltb_spec (Z.of_nat i) (Z.of_nat (length ss))); [lia|].
    replace i with (length (entry_offsets (length pre) ss))
      by (rewrite entry_offsets_length; lia).
    rewrite cell_value_sentinel. cbn [mbind Spt.result_bind].
    rewrite bool_decide_eq_false_2 by (by intros []).
    rewrite entry_offsets_length, take_ge by lia. done.
  - destruct (Z.ltb_spec (Z.of_nat i) (Z.of_nat (length ss))); [|lia].
    cbn [mbind Spt.result_bind].
    destruct (lookup_lt_is_Some_2 ss i ltac:(lia)) as [s Hs].
    rewrite (cell_value_entry _ i _ (entry_offsets_lookup ss _ i s Hs)).
    cbn [mbind Spt.result_bind].
    destruct (Z.ltb_spec (Z.of_nat (length pre + length (nul_join (take i ss))))
                (Z.of_nat (length pre + length (nul_join (take i ss))))); [lia|].
    rewrite (strlen_at_entry pre rest ss i s Hss Hs). cbn [mbind Spt.result_bind].
    replace (Z.of_nat i + 1) with (Z.of_nat (S i)) by lia.
    replace (Z.of_nat (length pre + length (nul_join (take i ss)))
             + Z.of_nat (length s) + 1)
      with (Z.of_nat (length pre + length (nul_join (take (S i) ss)))).
    + apply IH; [done|lia..].
    + rewrite (take_S_r ss i s Hs), nul_join_snoc, !length_app. cbn [length]. lia.
Qed.

Lemma zero_fill_middle (pre mid rest : list byte) :
  list_inserts (length pre) (replicate (length mid) NUL) (pre ++ mid ++ rest)
  = pre ++ replicate (length mid) NUL ++ rest.
Proof.
  rewrite <- (Nat.add_0_r (length pre)), list_inserts_app_r.
  by rewrite list_inserts_0_r by (by rewrite length_replicate).
Qed.

(** [spt_init2] in a process whose [SPT] holds the first environment
    pointer and nothing else, when no allocation fails. *)
Lemma spt_init2_layout (l : Spt.libc) (SPT : Spt.spt) (pre rest a0 e0 : list byte)
    (ss : list (list byte)) :
  NUL ∉ a0 → Forall (λ s, NUL ∉ s) ss → NUL ∉ e0 →
  Spt.SPT_env0 SPT = Some (Z.of_nat (length (pre ++ nul_join (a0 :: ss)))) →
  Spt.SPT_base SPT = None →
  Z.of_nat (length (nul_join (a0 :: ss))) < 8192 →
  Z.of_nat (length (stack_area pre (a0 :: ss) e0 rest)) < 2 ^ 64 →
  Spt.spt_init2 l [] (Z.of_nat (length (a0 :: ss))) a0 SPT
                (stack_area pre (a0 :: ss) e0 rest)
  = Done (Spt.set_title_space
            (Z.of_nat (length pre))
            (Z.of_nat (length (pre ++ nul_join (a0 :: ss) ++ e0 ++ [NUL])))
            (Z.of_nat (length (pre ++ a0)))
            (Spt.set_arg0 (Some a0) SPT),
          pre ++ replicate (length (nul_join (a0 :: ss) ++ e0 ++ [NUL])) NUL ++ rest).
Proof.
  intros Ha0 Hss He0 Henv Hbase Hsmall Hmem.
  assert (Hargs : Forall (λ s, NUL ∉ s) (a0 :: ss)) by (by constructor).
  unfold Spt.spt_init2, stack_area in *.
  change (Spt.alloc [] 0) with true. change (Spt.alloc [] 1) with true.
  assert (Spt.progname_copied l [] = true) as -> by (by destruct l).
  rewrite spt_find_argv_layout by done. cbn [mbind Spt.result_bind negb].
  set (mem := pre ++ nul_join (a0 :: ss) ++ e0 ++ NUL :: rest) in *.
  set (argv := (Ptr <$> entry_offsets (length pre) (a0 :: ss)) ++ [Null]).
  assert (Hargv0 : Spt.cell_value argv 0 = Done (Some (Z.of_nat (length pre))))
    by (apply (cell_value_entry _ 0%nat); done).
  rewrite Hargv0. cbn [mbind Spt.result_bind].
  assert (Hlen0 : Spt.strlen_at mem (Z.of_nat (length pre))
                  = Done (Z.of_nat (length a0))).
  { pose proof (strlen_at_entry pre (e0 ++ NUL :: rest) (a0 :: ss) 0 a0 Hargs eq_refl)
      as Hs.
    cbn [take nul_join fmap list_fmap concat length] in Hs.
    by rewrite Nat.add_0_r in Hs. }
  rewrite Hlen0. cbn [mbind Spt.result_bind].
  (* the first loop *)
  assert (Hloop1 : Spt.argv_loop (S (length argv)) mem (Z.of_nat (length (a0 :: ss)))
                     argv 0 (Z.of_nat (length pre) + Z.of_nat (length a0) + 1)
                   = Done (Z.of_nat (length pre + length (nul_join (a0 :: ss))))).
  { cbn [Spt.argv_loop].
    destruct (Z.ltb_spec 0 (Z.of_nat (length (a0 :: ss)))); [|simpl in *; lia].
    cbn [mbind Spt.result_bind]. rewrite Hargv0. cbn [mbind Spt.result_bind].
    destruct (Z.ltb_spec (Z.of_nat (length pre))
                (Z.of_nat (length pre) + Z.of_nat (length a0) + 1)); [|lia].
    assert (Hend1 : Z.of_nat (length pre) + Z.of_nat (length a0) + 1
                    = Z.of_nat (length pre + length (nul_join (take 1 (a0 :: ss))))).
    { cbn [take]. rewrite take_0, nul_join_cons, length_app.
      cbn [length nul_join fmap list_fmap concat]. lia. }
    rewrite Hend1.
    apply (argv_loop_layout pre (e0 ++ NUL :: rest) (a0 :: ss) (length ss) 1);
      [done|simpl; lia|].
    unfold argv. rewrite length_app, length_fmap, entry_offsets_length. simpl. lia. }
  rewrite Hloop1. cbn [mbind Spt.result_bind].
  (* the second loop *)
  assert (Hloop2 : Spt.envp_loop 5 mem SPT 0
                     (Z.of_nat (length pre + length (nul_join (a0 :: ss))))
                   = Done (Z.of_nat (length (pre ++ nul_join (a0 :: ss) ++ e0 ++ [NUL])))).
  { cbn [Spt.envp_loop]. unfold Spt.envp. cbn [lookup list_lookup].
    rewrite Henv, Hbase, length_app. cbn [mbind Spt.result_bind].
    destruct (Z.ltb_spec (Z.of_nat (length pre + length (nul_join (a0 :: ss))))
                (Z.of_nat (length pre + length (nul_join (a0 :: ss))))); [lia|].
    unfold Spt.strlen_at.
    destruct (Z.ltb_spec (Z.of_nat (length pre + length (nul_join (a0 :: ss)))) 0);
      [lia|].
    rewrite Nat2Z.id. unfold mem.
    replace (pre ++ nul_join (a0 :: ss) ++ e0 ++ NUL :: rest)
      with ((pre ++ nul_join (a0 :: ss)) ++ e0 ++ NUL :: rest) by app_norm.
    rewrite <- length_app, drop_app_length, strlen_app_nul by done.
    cbn [mbind Spt.result_bind]. f_equal. rewrite !length_app. cbn [length]. lia. }
  rewrite Hloop2. cbn [mbind Spt.result_bind].
  (* the copy of argv[0] *)
  assert (Harg0 : take (Z.to_nat (Z.of_nat (length a0)))
                       (drop (Z.to_nat (Z.of_nat (length pre))) mem) = a0).
  { rewrite !Nat2Z.id. unfold mem. rewrite drop_app_length, nul_join_cons.
    rewrite <- app_assoc. by rewrite take_app_length. }
  rewrite Harg0.
  (* the wipe *)
  replace (Z.of_nat (length (pre ++ nul_join (a0 :: ss) ++ e0 ++ [NUL]))
           - Z.of_nat (length pre))
    with (Z.of_nat (length (nul_join (a0 :: ss) ++ e0 ++ [NUL])))
    by (rewrite !length_app; lia).
  assert (Hfit : (length pre + length (nul_join (a0 :: ss) ++ e0 ++ [NUL])
                  ≤ length mem)%nat).
  { unfold mem. rewrite !length_app. cbn [length]. lia. }
  rewrite size_t_small by lia.
  rewrite spt_memset_ok by done. cbn [mbind Spt.result_bind].
  do 2 f_equal.
  - do 2 f_equal. rewrite length_app. lia.
  - unfold mem.
    replace (pre ++ nul_join (a0 :: ss) ++ e0 ++ NUL :: rest)
      with (pre ++ (nul_join (a0 :: ss) ++ e0 ++ [NUL]) ++ rest) by app_norm.
    apply zero_fill_middle.
Qed.

(** ** spt_init2 on any memory *)

Lemma strlen_at_Done (mem : list byte) (p k : Z) :
  Spt.strlen_at mem p = Done k →
  0 ≤ p ∧ 0 ≤ k ∧ p + k < Z.of_nat (length mem).
Proof.
  unfold Spt.strlen_at. destruct (Z.ltb_spec p 0); [done|].
  destruct (strlen (drop (Z.to_nat p) mem)) as [n|] eqn:En; [|done].
  intros [= <-]. apply strlen_Some in En as (Hn & _).
  rewrite length_drop in Hn. lia.
Qed.

(** The loops of [spt_init2] only move [end] forward, and never past the
    end of the memory. *)
Lemma argv_loop_bounds (fuel : nat) (mem : list byte) (argc : Z) (argv : list cell) :
  ∀ (i end_ end' : Z),
    Spt.argv_loop fuel mem argc argv i end_ = Done end' →
    end_ ≤ end' ∧ (end_ ≤ Z.of_nat (length mem) → end' ≤ Z.of_nat (length mem)).
Proof.
  induction fuel as [|fuel IH]; intros i end_ end'; [done|].
  cbn [Spt.argv_loop].
  destruct (if i <? argc then Done true
            else Spt.cell_value argv i ≫= λ p, Done (bool_decide (p ≠ None)))
    as [[]| |]; cbn [mbind Spt.result_bind]; [|by intros [= <-]|done..].
  destruct (Spt.cell_value argv i) as [[a|]| |]; cbn [mbind Spt.result_bind];
    [|by apply IH|done..].
  destruct (Z.ltb_spec a end_); [by apply IH|].
  destruct (Spt.strlen_at mem a) as [k| |] eqn:Ek; cbn [mbind Spt.result_bind];
    [|done..].
  apply strlen_at_Done in Ek. intros Hrun. apply IH in Hrun. lia.
Qed.

Lemma envp_loop_bounds (fuel : nat) (mem : list byte) (SPT : Spt.spt) :
  ∀ (i : nat) (end_ end' : Z),
    Spt.envp_loop fuel mem SPT i end_ = Done end' →
    end_ ≤ end' ∧ (end_ ≤ Z.of_nat (length mem) → end' ≤ Z.of_nat (length mem)).
Proof.
  induction fuel as [|fuel IH]; intros i end_ end'; [done|].
  cbn [Spt.envp_loop].
  destruct (Spt.envp SPT i) as [[a|]| |]; cbn [mbind Spt.result_bind];
    [|by intros [= <-]|done..].
  destruct (Z.ltb_spec a end_); [by apply IH|].
  destruct (Spt.strlen_at mem a) as [k| |] eqn:Ek; cbn [mbind Spt.result_bind];
    [|done..].
  apply strlen_at_Done in Ek. intros Hrun. apply IH in Hrun. lia.
Qed.

(** [spt_init2] either leaves the memory and the title space of [SPT]
    untouched, or it sets the title space up and wipes it. *)
Lemma spt_init2_outcomes (l : Spt.libc) (heap : list bool) (argc : Z)
    (arg0 : list byte) (SPT SPT' : Spt.spt) (mem mem' : list byte) :
  Spt.SPT_reset SPT = 0 → Z.of_nat (length mem) < 2 ^ 64 →
  Spt.spt_init2 l heap argc arg0 SPT mem = Done (SPT', mem') →
  (mem' = mem ∧ Spt.SPT_base SPT' = Spt.SPT_base SPT
   ∧ Spt.SPT_end SPT' = Spt.SPT_end SPT ∧ Spt.SPT_nul SPT' = Spt.SPT_nul SPT)
  ∨ (∃ b n e,
       title_space SPT' mem' b n e ∧ is_Some (Spt.SPT_arg0 SPT')
       ∧ mem' = list_inserts b (replicate (e - b) NUL) mem).
Proof.
  intros Hreset Hmem. unfold Spt.spt_init2.
  destruct (Spt.spt_find_argv_from_env SPT mem (Spt.alloc heap 0) argc arg0)
    as [[argv|]| |]; cbn [mbind Spt.result_bind];
    [|intros [= <- <-]; by left|done..].
  destruct (Spt.cell_value argv 0) as [[base|]| |] eqn:Ebase;
    cbn [mbind Spt.result_bind]; [|intros [= <- <-]; by left|done..].
  destruct (Spt.strlen_at mem base) as [k| |] eqn:Ek; cbn [mbind Spt.result_bind];
    [|done..].
  apply strlen_at_Done in Ek as (Hbase & Hk & Hnul).
  destruct (Spt.argv_loop _ mem argc argv 0 (base + k + 1)) as [end1| |] eqn:E1;
    cbn [mbind Spt.result_bind]; [|done..].
  apply argv_loop_bounds in E1 as [Hle1 Hin1].
  destruct (Spt.envp_loop 5 mem SPT 0 end1) as [end2| |] eqn:E2;
    cbn [mbind Spt.result_bind]; [|done..].
  apply envp_loop_bounds in E2 as [Hle2 Hin2].
  destruct (Spt.alloc heap 1); cbn [negb]; [|intros [= <- <-]; by left].
  destruct (Spt.progname_copied l heap); cbn [negb]; [|intros [= <- <-]; by left].
  assert (Hsize : Spt.size_t (end2 - base) = end2 - base)
    by (apply size_t_small; lia).
  rewrite Hsize. unfold Spt.memset.
  destruct (Z.leb_spec 0 base); [|lia].
  destruct (Z.leb_spec (base + (end2 - base)) (Z.of_nat (length mem))); [|lia].
  cbn [andb mbind Spt.result_bind]. intros [= <- <-]. right.
  exists (Z.to_nat base), (Z.to_nat (base + k)), (Z.to_nat end2).
  unfold title_space.
  cbn [Spt.set_title_space Spt.set_arg0 Spt.SPT_base Spt.SPT_nul Spt.SPT_end
       Spt.SPT_reset Spt.SPT_arg0].
  rewrite !Z2Nat.id, length_inserts by lia.
  split_and!; try done; try lia.
  f_equal. f_equal. lia.
Qed.

(** ** The title functions, from the caller's side *)

(** X18. When the argument strings lie one after the other right before
    the first environment string, none holds a NUL byte and together they
    take less than 8192 bytes, [spt_find_argv_from_env] called with their
    number and with argv[0] finds them all: it returns a NULL-terminated
    vector whose strings are the arguments, the first entry pointing at
    the start of argv[0]. *)
Theorem spt_find_argv_from_env_recovers (SPT : Spt.spt) (pre rest a0 : list byte)
    (ss : list (list byte)) :
  NUL ∉ a0 → Forall (λ s, NUL ∉ s) ss →
  Spt.SPT_env0 SPT = Some (Z.of_nat (length (pre ++ nul_join (a0 :: ss)))) →
  Z.of_nat (length (nul_join (a0 :: ss))) < 8192 →
  ∃ argv,
    Spt.spt_find_argv_from_env SPT (pre ++ nul_join (a0 :: ss) ++ rest) true
                               (Z.of_nat (length (a0 :: ss))) a0
    = Done (Some argv)
    ∧ vector_strings (pre ++ nul_join (a0 :: ss) ++ rest) argv = Some (a0 :: ss)
    ∧ argv !! 0%nat = Some (Ptr (length pre))
    ∧ length argv = S (length (a0 :: ss)).
Proof.
  intros Ha0 Hss Henv Hsmall. eexists. split; [by apply spt_find_argv_layout|].
  split_and!.
  - apply vector_strings_inside. by constructor.
  - done.
  - rewrite length_app, length_fmap, entry_offsets_length. simpl. lia.
Qed.

Lemma spt_find_argv_from_env_recovers_witness :
  ∃ argv,
    Spt.spt_find_argv_from_env k3s_SPT k3s_stack true 2 [x6b; x33; x73]
    = Done (Some argv)
    ∧ vector_strings k3s_stack argv = Some k3s_args
    ∧ argv !! 0%nat = Some (Ptr 1)
    ∧ length argv = 3%nat.
Proof.
  apply (spt_find_argv_from_env_recovers k3s_SPT [xff] [x41; x3d; x31; x00; x42; x3d; x32; x00]
           [x6b; x33; x73] [[x73; x65; x72; x76; x65; x72]]).
  - by apply strlen_None.
  - constructor; [by apply strlen_None|constructor].
  - reflexivity.
  - reflexivity.
Defined.

(** X19. In a process whose [SPT] holds the pointer to the first
    environment string and nothing else, whose arguments lie right before
    that string, [spt_init2] (when no allocation fails) makes the title
    space of the arguments and the first environment string: [base] is
    the start of argv[0], [nul] its terminator, [end] the byte after the
    terminator of the first environment string. It keeps a copy of argv[0]
    and wipes the title space with zero bytes; no other byte changes. *)
Theorem spt_init2_sets_title_space (l : Spt.libc) (SPT : Spt.spt)
    (pre rest a0 e0 : list byte) (ss : list (list byte)) :
  NUL ∉ a0 → Forall (λ s, NUL ∉ s) ss → NUL ∉ e0 →
  Spt.SPT_env0 SPT = Some (Z.of_nat (length (pre ++ nul_join (a0 :: ss)))) →
  Spt.SPT_base SPT = None →
  Z.of_nat (length (nul_join (a0 :: ss))) < 8192 →
  Z.of_nat (length (stack_area pre (a0 :: ss) e0 rest)) < 2 ^ 64 →
  ∃ SPT' mem',
    Spt.spt_init2 l [] (Z.of_nat (length (a0 :: ss))) a0 SPT
                  (stack_area pre (a0 :: ss) e0 rest)
    = Done (SPT', mem')
    ∧ title_space SPT' mem' (length pre) (length pre + length a0)
                  (length pre + length (nul_join (a0 :: ss)) + length e0 + 1)
    ∧ Spt.SPT_arg0 SPT' = Some a0
    ∧ mem' = pre ++ replicate (length (nul_join (a0 :: ss)) + length e0 + 1) NUL
                 ++ rest.
Proof.
  intros Ha0 Hss He0 Henv Hbase Hsmall Hmem.
  rewrite spt_init2_layout by done. eexists _, _. split; [reflexivity|].
  assert (Hlen : length (nul_join (a0 :: ss) ++ e0 ++ [NUL])
                 = (length (nul_join (a0 :: ss)) + length e0 + 1)%nat)
    by (rewrite !length_app; simpl; lia).
  rewrite Hlen. split_and!; [|done..].
  unfold title_space, stack_area in *.
  cbn [Spt.set_title_space Spt.set_arg0 Spt.SPT_base Spt.SPT_nul Spt.SPT_end
       Spt.SPT_reset].
  rewrite nul_join_cons in *. rewrite ?length_app in *.
  rewrite ?length_replicate. cbn [length] in *. rewrite ?length_app in *.
  cbn [length] in *.
  split_and!; try (done || lia || (do 2 f_equal; lia)).
  intros _ _. rewrite lookup_app_r by lia.
  rewrite lookup_app_l by (rewrite length_replicate; lia).
  apply lookup_replicate_2. lia.
Qed.

Lemma spt_init2_sets_title_space_witness :
  ∃ SPT' mem',
    Spt.spt_init2 Spt.GLIBC [] 2 [x6b; x33; x73] k3s_SPT k3s_stack = Done (SPT', mem')
    ∧ title_space SPT' mem' 1 4 16
    ∧ Spt.SPT_arg0 SPT' = Some [x6b; x33; x73]
    ∧ mem' = [xff] ++ replicate 15 NUL ++ [x42; x3d; x32; x00].
Proof.
  apply (spt_init2_sets_title_space Spt.GLIBC k3s_SPT [xff] [x42; x3d; x32; x00]
           [x6b; x33; x73] [x41; x3d; x31] [[x73; x65; x72; x76; x65; x72]]).
  - by apply strlen_None.
  - constructor; [by apply strlen_None|constructor].
  - by apply strlen_None.
  - reflexivity.
  - reflexivity.
  - reflexivity.
  - reflexivity.
Defined.

(** X20. On a title space that is set up, [spt_setproctitle] with a
    non-empty title shows the first [L] bytes of the title, where [L] is
    the length of the title cut to 255 bytes and to the title space less
    one byte. When that is shorter than the original argv[0], the title is
    padded with spaces up to the length of argv[0]; when it has exactly
    that length and a byte is left after [nul], one space is appended;
    otherwise the title stands alone. *)
Theorem spt_setproctitle_shows_title (junk t : list byte) (SPT : Spt.spt)
    (mem : list byte) (b n e : nat) :
  title_space SPT mem b n e → t ≠ [] → NUL ∉ t →
  Z.of_nat (length t) ≤ Spt.INT_MAX →
  ∃ SPT' mem' shown,
    Spt.spt_setproctitle junk t SPT mem = Done (SPT', mem')
    ∧ string_at mem' (Ptr b) = Some shown
    ∧ ((title_fit t b e < n - b)%nat →
       shown = take (title_fit t b e) t
               ++ replicate (n - b - title_fit t b e) Spt.SPACE)
    ∧ (title_fit t b e = (n - b)%nat → (n + 1 < e)%nat →
       shown = take (title_fit t b e) t ++ [Spt.SPACE])
    ∧ ((n - b < title_fit t b e)%nat
       ∨ (title_fit t b e = (n - b)%nat ∧ e = (n + 1)%nat) →
       shown = take (title_fit t b e) t).
Proof.
  intros Hspace Hne Hnul Hlen.
  destruct (spt_title_shown junk t SPT mem b n e Hspace Hne Hnul Hlen)
    as (SPT' & mem' & Hrun & Hshown).
  destruct Hspace as (_ & _ & _ & Hbn & _).
  eexists SPT', mem', _. split; [done|]. split; [exact Hshown|]. cbv zeta.
  destruct (Nat.ltb_spec (title_fit t b e) (n - b)) as [Hlt|Hge].
  - split_and!; [done|lia..].
  - destruct (Nat.eqb_spec (title_fit t b e) (n - b)) as [Heq|Hneq];
      [destruct (Nat.ltb_spec (n + 1) e) as [Hroom|Hnone]|]; cbn [andb];
      (split_and!; [lia|try done; lia..]).
Qed.

Lemma spt_setproctitle_shows_title_witness :
  let SPT := Spt.mkSPT (Some [x6b; x33; x73]) (Some 12) (Some 1) (Some 16) (Some 4) 0 in
  ∃ SPT' mem',
    Spt.spt_setproctitle [] [x6b; x38] SPT k3s_stack = Done (SPT', mem')
    ∧ string_at mem' (Ptr 1) = Some [x6b; x38; x20].
Proof.
  intros SPT.
  destruct (spt_setproctitle_shows_title [] [x6b; x38] SPT k3s_stack 1 4 16)
    as (SPT' & mem' & shown & Hrun & Hshown & Hshort & _).
  - unfold title_space. split_and!; try reflexivity; vm_compute; lia.
  - discriminate.
  - by apply strlen_None.
  - vm_compute. discriminate.
  - exists SPT', mem'. split; [exact Hrun|].
    rewrite Hshown, Hshort by (vm_compute; lia). reflexivity.
Defined.

(** X21. On a title space that is set up, [spt_setproctitle] with a
    non-empty title succeeds and writes inside the title space only: the
    memory keeps its size, every byte before [base] and from [end] on is
    unchanged, and the title space is still set up, with [reset] set, so
    the next call finds it as this one did. *)
Theorem spt_setproctitle_stays_in_title_space (junk t : list byte) (SPT : Spt.spt)
    (mem : list byte) (b n e : nat) :
  title_space SPT mem b n e → t ≠ [] → Z.of_nat (length t) ≤ Spt.INT_MAX →
  ∃ SPT' mem',
    Spt.spt_setproctitle junk t SPT mem = Done (SPT', mem')
    ∧ length mem' = length mem
    ∧ (∀ i, (i < b ∨ e ≤ i)%nat → mem' !! i = mem !! i)
    ∧ title_space SPT' mem' b n e
    ∧ Spt.SPT_reset SPT' ≠ 0.
Proof.
  intros Hspace Hne Hlen.
  destruct (spt_title_frame junk t SPT mem b n e Hspace Hne Hlen)
    as (SPT' & mem' & Hrun & Hsize & Hframe & Hspace' & Hreset & _).
  by exists SPT', mem'.
Qed.

Lemma spt_setproctitle_stays_in_title_space_witness :
  let SPT := Spt.mkSPT (Some [x6b; x33; x73]) (Some 12) (Some 1) (Some 16) (Some 4) 0 in
  ∃ SPT' mem',
    Spt.spt_setproctitle [] (replicate 300 x61) SPT k3s_stack = Done (SPT', mem')
    ∧ length mem' = length k3s_stack
    ∧ (∀ i, (i < 1 ∨ 16 ≤ i)%nat → mem' !! i = k3s_stack !! i)
    ∧ title_space SPT' mem' 1 4 16
    ∧ Spt.SPT_reset SPT' ≠ 0.
Proof.
  intros SPT.
  apply (spt_setproctitle_stays_in_title_space [] (replicate 300 x61) SPT k3s_stack
           1 4 16).
  - unfold title_space. split_and!; try reflexivity; vm_compute; lia.
  - discriminate.
  - vm_compute. discriminate.
Defined.

(** X22. From the start of a process to its title: after [spt_init1] and
    [spt_init2] (no allocation failing) in a process whose arguments lie
    right before its first environment string, [spt_setproctitle] with a
    non-empty title leaves at the start of argv[0] the title, cut to 255
    bytes and to the room of the arguments and the first environment
    string; a title shorter than argv[0] is padded with spaces to the
    length of argv[0], one of the same length is followed by one space.
    The bytes before argv[0] and after the first environment string are
    those the process started with. *)
Theorem spt_title_after_init (l : Spt.libc) (junk t pre rest a0 e0 : list byte)
    (ss : list (list byte)) (environ : list Z) :
  NUL ∉ a0 → Forall (λ s, NUL ∉ s) ss → NUL ∉ e0 →
  head environ = Some (Z.of_nat (length (pre ++ nul_join (a0 :: ss)))) →
  Z.of_nat (length (nul_join (a0 :: ss))) < 8192 →
  Z.of_nat (length (stack_area pre (a0 :: ss) e0 rest)) < 2 ^ 64 →
  t ≠ [] → NUL ∉ t → Z.of_nat (length t) ≤ Spt.INT_MAX →
  let mem := stack_area pre (a0 :: ss) e0 rest in
  let b := length pre in
  let e := (length pre + length (nul_join (a0 :: ss)) + length e0 + 1)%nat in
  let L := title_fit t b e in
  ∃ SPT1 mem1 SPT2 mem2,
    Spt.spt_init2 l [] (Z.of_nat (length (a0 :: ss))) a0
                  (Spt.spt_init1 environ Spt.SPT_zero).2 mem
    = Done (SPT1, mem1)
    ∧ Spt.spt_setproctitle junk t SPT1 mem1 = Done (SPT2, mem2)
    ∧ string_at mem2 (Ptr b)
      = Some (if (L <? length a0)%nat then
                take L t ++ replicate (length a0 - L) Spt.SPACE
              else if (L =? length a0)%nat then take L t ++ [Spt.SPACE]
              else take L t)
    ∧ length mem2 = length mem
    ∧ (∀ i, (i < b ∨ e ≤ i)%nat → mem2 !! i = mem !! i).
Proof.
  intros Ha0 Hss He0 Henv Hsmall Hmem Hne Hnul Hlen mem b e L.
  set (SPT0 := (Spt.spt_init1 environ Spt.SPT_zero).2).
  assert (Henv0 : Spt.SPT_env0 SPT0
                  = Some (Z.of_nat (length (pre ++ nul_join (a0 :: ss)))))
    by (by unfold SPT0; cbn; rewrite Henv).
  pose proof (spt_init2_layout l SPT0 pre rest a0 e0 ss Ha0 Hss He0 Henv0 eq_refl
                Hsmall Hmem) as Hinit.
  fold mem in Hinit.
  set (SPT1 := Spt.set_title_space _ _ _ _) in Hinit.
  set (mem1 := pre ++ replicate _ NUL ++ rest) in Hinit.
  assert (Hsize1 : length mem1 = length mem).
  { unfold mem1, mem, stack_area. rewrite !length_app, length_replicate.
    cbn [length]. rewrite ?length_app. cbn [length]. lia. }
  assert (Hspace : title_space SPT1 mem1 b (b + length a0) e).
  { unfold title_space, SPT1, b, e.
    cbn [Spt.set_title_space Spt.set_arg0 Spt.SPT_base Spt.SPT_nul Spt.SPT_end
         Spt.SPT_reset].
    rewrite Hsize1. unfold mem, stack_area in *.
    rewrite nul_join_cons in *. rewrite ?length_app in *. cbn [length] in *.
    rewrite ?length_app in *. cbn [length] in *.
    split_and!; try (done || lia || (do 2 f_equal; lia)). }
  destruct (spt_title_shown junk t SPT1 mem1 b (b + length a0) e Hspace Hne Hnul Hlen)
    as (SPT2 & mem2 & Hrun & Hshown).
  destruct (spt_title_frame junk t SPT1 mem1 b (b + length a0) e Hspace Hne Hlen)
    as (SPT2' & mem2' & Hrun' & Hsize2 & Hframe & _).
  rewrite Hrun in Hrun'. injection Hrun' as <- <-.
  exists SPT1, mem1, SPT2, mem2. split_and!; [done..| |congruence|].
  - rewrite Hshown. cbv zeta. fold L.
    replace (b + length a0 - b)%nat with (length a0) by lia.
    destruct (L <? length a0)%nat; [done|].
    destruct (L =? length a0)%nat; [|done].
    assert (Hroom : (b + length a0 + 1 <? e)%nat = true).
    { apply Nat.ltb_lt. unfold e, b. rewrite nul_join_cons, length_app.
      cbn [length]. lia. }
    by rewrite Hroom.
  - intros i Hi. rewrite (Hframe i Hi). unfold mem1, mem, stack_area.
    destruct Hi as [Hi|Hi].
    + by rewrite !lookup_app_l by (unfold b in Hi; lia).
    + unfold e, b in Hi.
      replace (pre ++ nul_join (a0 :: ss) ++ e0 ++ NUL :: rest)
        with (pre ++ (nul_join (a0 :: ss) ++ e0 ++ [NUL]) ++ rest) by app_norm.
      rewrite !lookup_app_r
        by (rewrite ?length_replicate, ?length_app; cbn [length]; lia).
      rewrite length_replicate. done.
Qed.

Lemma spt_title_after_init_witness :
  ∃ SPT1 mem1 SPT2 mem2,
    Spt.spt_init2 Spt.GLIBC [] 2 [x6b; x33; x73]
                  (Spt.spt_init1 [12; 16] Spt.SPT_zero).2 k3s_stack
    = Done (SPT1, mem1)
    ∧ Spt.spt_setproctitle [] [x6b; x38; x73; x2d; x31] SPT1 mem1 = Done (SPT2, mem2)
    ∧ string_at mem2 (Ptr 1) = Some [x6b; x38; x73; x2d; x31]
    ∧ length mem2 = length k3s_stack
    ∧ (∀ i, (i < 1 ∨ 16 ≤ i)%nat → mem2 !! i = k3s_stack !! i).
Proof.
  apply (spt_title_after_init Spt.GLIBC [] [x6b; x38; x73; x2d; x31] [xff]
           [x42; x3d; x32; x00] [x6b; x33; x73] [x41; x3d; x31]
           [[x73; x65; x72; x76; x65; x72]] [12; 16]).
  - by apply strlen_None.
  - constructor; [by apply strlen_None|constructor].
  - by apply strlen_None.
  - reflexivity.
  - reflexivity.
  - reflexivity.
  - discriminate.
  - by apply strlen_None.
  - vm_compute. discriminate.
Defined.

(** X23. Whatever the memory holds and whatever it is called with,
    [spt_init2] either changes nothing of the memory and of the title
    space in [SPT] (no arguments found, or an allocation failed), or it
    sets the title space up inside the memory, with a copy of argv[0]
    kept, and writes zero bytes over exactly that space. *)
Theorem spt_init2_all_or_nothing (l : Spt.libc) (heap : list bool) (argc : Z)
    (arg0 : list byte) (SPT SPT' : Spt.spt) (mem mem' : list byte) :
  Spt.SPT_reset SPT = 0 → Z.of_nat (length mem) < 2 ^ 64 →
  Spt.spt_init2 l heap argc arg0 SPT mem = Done (SPT', mem') →
  (mem' = mem ∧ Spt.SPT_base SPT' = Spt.SPT_base SPT
   ∧ Spt.SPT_end SPT' = Spt.SPT_end SPT ∧ Spt.SPT_nul SPT' = Spt.SPT_nul SPT)
  ∨ (∃ b n e,
       title_space SPT' mem' b n e ∧ is_Some (Spt.SPT_arg0 SPT')
       ∧ length mem' = length mem
       ∧ (∀ i, (b ≤ i < e)%nat → mem' !! i = Some NUL)
       ∧ (∀ i, (i < b ∨ e ≤ i)%nat → mem' !! i = mem !! i)).
Proof.
  intros Hreset Hmem Hrun.
  destruct (spt_init2_outcomes l heap argc arg0 SPT SPT' mem mem' Hreset Hmem Hrun)
    as [Hsame|(b & n & e & Hspace & Harg0 & ->)]; [by left|].
  right. exists b, n, e.
  assert (Hbe : (b ≤ e ∧ e ≤ length mem)%nat).
  { destruct Hspace as (_ & _ & _ & Hbn & He & _).
    rewrite length_inserts in He. lia. }
  split_and!; [done..|apply length_inserts| |].
  - intros i Hi. rewrite lookup_zero_fill by lia.
    by rewrite bool_decide_eq_true_2 by lia.
  - intros i Hi. rewrite lookup_zero_fill by lia.
    by rewrite bool_decide_eq_false_2 by lia.
Qed.

Lemma spt_init2_all_or_nothing_witness :
  ∃ SPT' mem',
    Spt.spt_init2 Spt.GLIBC [true; false] 2 [x6b; x33; x73] k3s_SPT k3s_stack
    = Done (SPT', mem')
    ∧ ((mem' = k3s_stack ∧ Spt.SPT_base SPT' = Spt.SPT_base k3s_SPT
        ∧ Spt.SPT_end SPT' = Spt.SPT_end k3s_SPT
        ∧ Spt.SPT_nul SPT' = Spt.SPT_nul k3s_SPT)
       ∨ (∃ b n e,
            title_space SPT' mem' b n e ∧ is_Some (Spt.SPT_arg0 SPT')
            ∧ length mem' = length k3s_stack
            ∧ (∀ i, (b ≤ i < e)%nat → mem' !! i = Some NUL)
            ∧ (∀ i, (i < b ∨ e ≤ i)%nat → mem' !! i = k3s_stack !! i))).
Proof.
  eexists _, _. split; [vm_compute; reflexivity|].
  apply (spt_init2_all_or_nothing Spt.GLIBC [true; false] 2 [x6b; x33; x73] k3s_SPT);
    [reflexivity|vm_compute; reflexivity|vm_compute; reflexivity].
Defined.

(** A call of [spt_setproctitle] on an [SPT] without title space, or with
    one that is set up, returns and leaves the [SPT] in one of these two
    states. *)
Lemma spt_setproctitle_safe (junk t : list byte) (SPT : Spt.spt) (mem : list byte) :
  (Spt.SPT_base SPT = None ∨ ∃ b n e, title_space SPT mem b n e) →
  Z.of_nat (length t) ≤ Spt.INT_MAX →
  ∃ SPT' mem',
    Spt.spt_setproctitle junk t SPT mem = Done (SPT', mem')
    ∧ length mem' = length mem
    ∧ (Spt.SPT_base SPT = None → SPT' = SPT ∧ mem' = mem)
    ∧ (Spt.SPT_base SPT' = None ∨ ∃ b n e, title_space SPT' mem' b n e).
Proof.
  intros [Hnone|(b & n & e & Hspace)] Hlen.
  - exists SPT, mem. unfold Spt.spt_setproctitle, Spt.setproctitle.
    rewrite Hnone. auto.
  - destruct t as [|x t].
    + exists SPT, mem. pose proof Hspace as (Hbase & _).
      unfold Spt.spt_setproctitle, Spt.setproctitle. rewrite Hbase.
      cbn [mbind Spt.result_bind]. split; [done|]. split; [done|].
      split; [done|]. right. by exists b, n, e.
    + destruct (spt_title_frame junk (x :: t) SPT mem b n e Hspace ltac:(done) Hlen)
        as (SPT' & mem' & Hrun & Hsize & _ & Hspace' & _).
      exists SPT', mem'. split_and!; [done..| |by right; exists b, n, e].
      destruct Hspace as (Hbase & _). by rewrite Hbase.
Qed.

(** X24. After [spt_init2] has returned, on whatever memory and with
    whatever outcome, any number of calls of [spt_setproctitle] with
    titles of at most INT_MAX bytes return without a fault and keep the
    size of the memory; when [spt_init2] has set up no title space they
    change nothing at all. *)
Theorem spt_titles_never_fault (l : Spt.libc) (heap : list bool) (argc : Z)
    (arg0 : list byte) (SPT SPT1 : Spt.spt) (mem mem1 : list byte)
    (calls : list (list byte * list byte)) :
  Spt.SPT_base SPT = None → Spt.SPT_reset SPT = 0 →
  Z.of_nat (length mem) < 2 ^ 64 →
  Spt.spt_init2 l heap argc arg0 SPT mem = Done (SPT1, mem1) →
  Forall (λ c, Z.of_nat (length c.2) ≤ Spt.INT_MAX) calls →
  ∃ SPT2 mem2,
    set_titles calls SPT1 mem1 = Done (SPT2, mem2)
    ∧ length mem2 = length mem
    ∧ (Spt.SPT_base SPT1 = None → SPT2 = SPT1 ∧ mem2 = mem).
Proof.
  intros Hbase Hreset Hmem Hinit Hcalls.
  assert (Hstart : (Spt.SPT_base SPT1 = None ∨ ∃ b n e, title_space SPT1 mem1 b n e)
                   ∧ length mem1 = length mem
                   ∧ (Spt.SPT_base SPT1 = None → mem1 = mem)).
  { destruct (spt_init2_outcomes l heap argc arg0 SPT SPT1 mem mem1 Hreset Hmem Hinit)
      as [(-> & Hb & _)|(b & n & e & Hspace & _ & ->)].
    - split_and!; [left; congruence|done..].
    - split_and!; [right; by exists b, n, e|apply length_inserts|].
      destruct Hspace as (Hb & _). by rewrite Hb. }
  destruct Hstart as (Hstate & Hsize & Hsame).
  assert (Hgo : ∀ SPT1 mem1,
            (Spt.SPT_base SPT1 = None ∨ ∃ b n e, title_space SPT1 mem1 b n e) →
            ∃ SPT2 mem2, set_titles calls SPT1 mem1 = Done (SPT2, mem2)
                         ∧ length mem2 = length mem1
                         ∧ (Spt.SPT_base SPT1 = None → SPT2 = SPT1 ∧ mem2 = mem1)).
  { clear -Hcalls.
    induction Hcalls as [|[junk t] calls Ht _ IH]; intros SPT1 mem1 Hstate.
    - by exists SPT1, mem1.
    - destruct (spt_setproctitle_safe junk t SPT1 mem1 Hstate Ht)
        as (SPT' & mem' & Hrun & Hsize & Hnone & Hstate').
      destruct (IH SPT' mem' Hstate') as (SPT2 & mem2 & Hrest & Hsize2 & Hnone2).
      exists SPT2, mem2. cbn [set_titles]. rewrite Hrun.
      split_and!; [done|congruence|].
      intros Hb. destruct (Hnone Hb) as [-> ->]. by apply Hnone2. }
  destruct (Hgo SPT1 mem1 Hstate) as (SPT2 & mem2 & Hrun & Hsize2 & Hnone).
  exists SPT2, mem2. split_and!; [done|congruence|].
  intros Hb. destruct (Hnone Hb) as [-> ->]. split; [done|by apply Hsame].
Qed.

Lemma spt_titles_never_fault_witness :
  ∃ SPT1 mem1 SPT2 mem2,
    Spt.spt_init2 Spt.GLIBC [] 2 [x6b; x33; x73] k3s_SPT k3s_stack = Done (SPT1, mem1)
    ∧ set_titles [([], [x61]); ([], replicate 300 x62); ([], [])] SPT1 mem1
      = Done (SPT2, mem2)
    ∧ length mem2 = length k3s_stack
    ∧ (Spt.SPT_base SPT1 = None → SPT2 = SPT1 ∧ mem2 = k3s_stack).
Proof.
  destruct (Spt.spt_init2 Spt.GLIBC [] 2 [x6b; x33; x73] k3s_SPT k3s_stack)
    as [[SPT1 mem1]| |] eqn:Hinit;
    [|vm_compute in Hinit; discriminate Hinit..].
  destruct (spt_titles_never_fault Spt.GLIBC [] 2 [x6b; x33; x73] k3s_SPT SPT1
              k3s_stack mem1 [([], [x61]); ([], replicate 300 x62); ([], [])])
    as (SPT2 & mem2 & Hrun & Hsize & Hnone).
  - reflexivity.
  - reflexivity.
  - vm_compute. reflexivity.
  - exact Hinit.
  - repeat constructor; vm_compute; discriminate.
  - by exists SPT1, mem1, SPT2, mem2.
Defined.


(** ** spt_find_argv_from_env on any memory *)

Lemma spt_load_Done (mem : list byte) (p : Z) (x : byte) :
  Spt.load mem p = Done x → 0 ≤ p ∧ mem !! Z.to_nat p = Some x.
Proof.
  unfold Spt.load. destruct (Z.ltb_spec p 0); [done|].
  destruct (mem !! Z.to_nat p) as [y|]; [|done]. by intros [= ->].
Qed.

(** Where the walk back stops: at a NUL byte, or at the limit. *)
Lemma scan_back_stop (fuel : nat) (mem : list byte) (limit : Z) :
  ∀ ptr ptr',
    Spt.scan_back fuel mem limit ptr = Done ptr' →
    ptr' ≤ ptr ∧ 0 ≤ ptr'
    ∧ (limit < ptr' → mem !! Z.to_nat ptr' = Some NUL).
Proof.
  induction fuel as [|fuel IH]; intros ptr ptr'; cbn [Spt.scan_back];
    (destruct (Spt.load mem ptr) as [x| |] eqn:Ex; cbn [mbind Spt.result_bind];
     [|done..]);
    apply spt_load_Done in Ex as [Hpos Hx].
  - case_bool_decide as Hnul; cbn [negb andb].
    + intros [= <-]. subst x. split_and!; [lia|done|done].
    + destruct (Z.gtb_spec ptr limit); [done|]. intros [= <-].
      split_and!; [lia|done|lia].
  - case_bool_decide as Hnul; cbn [negb andb].
    + intros [= <-]. subst x. split_and!; [lia|done|done].
    + destruct (Z.gtb_spec ptr limit).
      * intros Hrun. apply IH in Hrun as (Hle & Hpos' & Hstop).
        split_and!; [lia|done|done].
      * intros [= <-]. split_and!; [lia|done|lia].
Qed.

(** What the loop of [spt_find_argv_from_env] has stored when it ends:
    each entry it wrote points right after a NUL byte, above the limit. *)
Lemma find_loop_stored (i : nat) (mem : list byte) (limit : Z) :
  ∀ (ptr : Z) (buf : list cell) (ptr' : Z) (buf' : list cell),
    Spt.find_loop i mem limit ptr buf = Done (Some (ptr', buf')) →
    length buf' = length buf
    ∧ (∀ j, (j = 0 ∨ i < j)%nat → buf' !! j = buf !! j)
    ∧ (∀ j, (1 ≤ j ≤ i)%nat → (j < length buf)%nat →
         ∃ o, buf' !! j = Some (Ptr (S o)) ∧ mem !! o = Some NUL
              ∧ limit < Z.of_nat o < ptr).
Proof.
  induction i as [|i IH]; intros ptr buf ptr' buf'; cbn [Spt.find_loop].
  - intros [= <- <-]. split_and!; [done|done|]. intros j Hj. lia.
  - destruct (Spt.load mem ptr) as [x| |] eqn:Ex; cbn [mbind Spt.result_bind];
      [|done..].
    case_bool_decide as Hnul; cbn [negb]; [|done].
    destruct (Spt.scan_back _ mem limit (ptr - 1)) as [p| |] eqn:Ep;
      cbn [mbind Spt.result_bind]; [|done..].
    apply scan_back_stop in Ep as (Hle & Hpos & Hstop).
    destruct (Z.leb_spec p limit) as [|Hgt]; [done|].
    intros Hrun. apply IH in Hrun as (Hlen & Hkeep & Hset).
    rewrite length_insert in Hlen, Hset.
    replace (Z.to_nat (p + 1)) with (S (Z.to_nat p)) in * by lia.
    split_and!; [done| |].
    + intros j Hj. rewrite Hkeep by lia. apply list_lookup_insert_ne. lia.
    + intros j Hj Hjlen. destruct (decide (j = S i)) as [->|Hne].
      * exists (Z.to_nat p). rewrite Hkeep by lia.
        rewrite list_lookup_insert_eq by done.
        split_and!; [done|by apply Hstop|lia..].
      * destruct (Hset j ltac:(lia) Hjlen) as (o & Ho & Hnulo & Hrange).
        exists o. split_and!; [done..|lia|lia].
Qed.

Lemma byte_difference (x y : byte) :
  Z.of_N (Byte.to_N x) - Z.of_N (Byte.to_N y) = 0 → x = y.
Proof.
  intros Hd. assert (Heq : Byte.to_N x = Byte.to_N y) by lia.
  apply (f_equal Byte.of_N) in Heq. rewrite !Byte.of_to_N in Heq. congruence.
Qed.

Lemma strcmp_zero (s : list byte) :
  ∀ a, NUL ∉ s → Spt.strcmp a (s ++ [NUL]) = Done 0 →
       ∃ back, a = s ++ NUL :: back.
Proof.
  induction s as [|y s IH]; intros [|x a] Hs; cbn [app Spt.strcmp]; try done.
  - destruct (decide (x = NUL)) as [->|Hx].
    + intros _. by exists a.
    + intros [= Hd]. destruct Hx. apply byte_difference.
      etrans; [|exact Hd]. reflexivity.
  - apply not_elem_of_cons in Hs as [Hy Hs].
    destruct (decide (x = y)) as [->|Hxy].
    + rewrite decide_False by congruence.
      intros Hrun. apply IH in Hrun as [back ->]; [|done]. by exists back.
    + intros [= Hd]. by apply byte_difference in Hd.
Qed.

(** X25. Whatever the memory holds, a vector that
    [spt_find_argv_from_env] returns for a positive [argc] is well formed:
    it has [argc + 1] entries, the last of them NULL; the first points at
    a string equal to [arg0]; every other entry points right after a NUL
    byte, less than 8192 bytes before the first environment string. *)
Theorem spt_find_argv_from_env_sound (SPT : Spt.spt) (mem : list byte)
    (malloc_ok : bool) (argc : Z) (arg0 : list byte) (argv : list cell) :
  NUL ∉ arg0 → 0 < argc →
  Spt.spt_find_argv_from_env SPT mem malloc_ok argc arg0 = Done (Some argv) →
  ∃ env0 p,
    Spt.SPT_env0 SPT = Some env0
    ∧ length argv = S (Z.to_nat argc)
    ∧ argv !! Z.to_nat argc = Some Null
    ∧ argv !! 0%nat = Some (Ptr p)
    ∧ string_at mem (Ptr p) = Some arg0
    ∧ (∀ j, (1 ≤ j < Z.to_nat argc)%nat →
         ∃ o, argv !! j = Some (Ptr (S o)) ∧ mem !! o = Some NUL
              ∧ env0 - 8192 < Z.of_nat o < env0 - 1).
Proof.
  intros Harg0 Hargc. unfold Spt.spt_find_argv_from_env.
  destruct malloc_ok; cbn [negb]; [|done].
  destruct (Z.ltb_spec argc 0); [lia|].
  destruct (Spt.SPT_env0 SPT) as [env0|]; [|done]. cbv zeta.
  set (buf := <[Z.to_nat argc := Null]> (replicate (Z.to_nat (argc + 1)) Uninit)).
  assert (Hbuf : length buf = S (Z.to_nat argc))
    by (unfold buf; rewrite length_insert, length_replicate; lia).
  destruct (Spt.find_loop _ mem (env0 - 8192) (env0 - 1) buf)
    as [[[ptr buf']|]| |] eqn:Eloop; cbn [mbind Spt.result_bind]; [|done..].
  apply find_loop_stored in Eloop as (Hlen & Hkeep & Hset).
  destruct (Z.leb_spec (ptr - Z.of_nat (length arg0)) (env0 - 8192)); [done|].
  unfold Spt.strcmp_at.
  destruct (Z.ltb_spec (ptr - Z.of_nat (length arg0)) 0); [done|].
  destruct (Spt.strcmp _ (arg0 ++ [NUL])) as [c| |] eqn:Ec;
    cbn [mbind Spt.result_bind]; [|done..].
  destruct (Z.eqb_spec c 0) as [->|]; cbn [negb]; [|done].
  intros [= <-]. apply strcmp_zero in Ec as [back Hmem]; [|done].
  exists env0, (Z.to_nat (ptr - Z.of_nat (length arg0))).
  split_and!.
  - done.
  - rewrite length_insert. congruence.
  - rewrite list_lookup_insert_ne by lia. rewrite Hkeep by lia.
    unfold buf. apply list_lookup_insert_eq. rewrite length_replicate. lia.
  - apply list_lookup_insert_eq. lia.
  - cbn [string_at]. rewrite Hmem, strlen_app_nul by done.
    cbn [mbind option_bind]. by rewrite take_app_length.
  - intros j Hj. rewrite list_lookup_insert_ne by lia.
    destruct (Hset j ltac:(lia) ltac:(lia)) as (o & Ho & Hnul & Hrange).
    by exists o.
Qed.

Lemma spt_find_argv_from_env_sound_witness :
  ∃ env0 p,
    Spt.SPT_env0 k3s_SPT = Some env0
    ∧ length [Ptr 1; Ptr 5; Null] = S (Z.to_nat 2)
    ∧ [Ptr 1; Ptr 5; Null] !! Z.to_nat 2 = Some Null
    ∧ [Ptr 1; Ptr 5; Null] !! 0%nat = Some (Ptr p)
    ∧ string_at k3s_stack (Ptr p) = Some [x6b; x33; x73]
    ∧ (∀ j, (1 ≤ j < Z.to_nat 2)%nat →
         ∃ o, [Ptr 1; Ptr 5; Null] !! j = Some (Ptr (S o))
              ∧ k3s_stack !! o = Some NUL
              ∧ env0 - 8192 < Z.of_nat o < env0 - 1).
Proof.
  apply (spt_find_argv_from_env_sound k3s_SPT k3s_stack true 2 [x6b; x33; x73]).
  - by apply strlen_None.
  - lia.
  - vm_compute. reflexivity.
Defined.
